(** * Intrusive doubly-linked list (intrusive_list.h): a shallow embedding

    The C++ source keeps the [prev]/[next] references inside the user's
    elements.  We model the store of link nodes as a finite map from
    addresses to nodes, pointers as optional addresses ([None] is
    [nullptr]), and every member function as a function on the store in the
    option monad: [None] stands for undefined behaviour (dereferencing
    [nullptr] or a pointer to storage that holds no node).  Loops take a
    bound on their iterations and return [None] when it is exhausted. *)

From stdpp Require Import gmap list.

Local Set Warnings "-clear-no-such-hyp".

(** ** Data model *)

Definition addr := positive.
Bind Scope positive_scope with addr.

(** A [base_list_element*]; [None] is [nullptr]. *)
Abbreviation ptr := (option addr).

(** [struct base_list_element { base_list_element* prev; base_list_element* next; }] *)
Record base_list_element := Node { prev : ptr; next : ptr }.

Global Instance base_list_element_eq_dec : EqDecision base_list_element.
Proof. solve_decision. Defined.

(** The store: which addresses hold a live node, and the node's fields. *)
Abbreviation heap := (gmap addr base_list_element).

(** Reading the fields of the node stored at an address. *)
Definition fprev (h : heap) (a : addr) : option ptr := prev <$> h !! a.
Definition fnext (h : heap) (a : addr) : option ptr := next <$> h !! a.

(** Field updates of the node stored at an address. *)
Definition set_p (a : addr) (v : ptr) (h : heap) : heap :=
  alter (λ n, Node v (next n)) a h.
Definition set_n (a : addr) (v : ptr) (h : heap) : heap :=
  alter (λ n, Node (prev n) v) a h.

(** [p->prev], [p->next] as r-values, and the assignments [p->prev = v],
    [p->next = v]: undefined when [p] is null or dangling. *)
Definition rd_prev (h : heap) (p : ptr) : option ptr := a ← p; fprev h a.
Definition rd_next (h : heap) (p : ptr) : option ptr := a ← p; fnext h a.
Definition wr_prev (h : heap) (p : ptr) (v : ptr) : option heap :=
  a ← p; if decide (is_Some (h !! a)) then Some (set_p a v h) else None.
Definition wr_next (h : heap) (p : ptr) (v : ptr) : option heap :=
  a ← p; if decide (is_Some (h !! a)) then Some (set_n a v h) else None.

(** ** struct base_list_element *)

(** Default construction at a fresh address: [prev{nullptr}], [next{nullptr}]. *)
Definition base_ctor (h : heap) (this : addr) : option heap :=
  match h !! this with
  | None => Some (<[this := Node None None]> h)
  | Some _ => None
  end.

(** [void unlink() { prev = next = nullptr; }] *)
Definition unlink (h : heap) (this : addr) : option heap :=
  h1 ← wr_next h (Some this) None;
  wr_prev h1 (Some this) None.

(** [base_list_element* remove()] *)
Definition remove (h : heap) (this : addr) : option (heap * ptr) :=
  res ← fnext h this;
  (* prev->next = next; *)
  p ← fprev h this; n ← fnext h this;
  h1 ← wr_next h p n;
  (* next->prev = prev; *)
  n' ← fnext h1 this; p' ← fprev h1 this;
  h2 ← wr_prev h1 n' p';
  h3 ← unlink h2 this;
  Some (h3, res).

(** [bool is_linked() const { return prev != nullptr; }] *)
Definition is_linked (h : heap) (this : addr) : option bool :=
  p ← fprev h this; Some (bool_decide (p ≠ None)).

(** [void tie() { prev = next = this; }] *)
Definition tie (h : heap) (this : addr) : option heap :=
  h1 ← wr_next h (Some this) (Some this);
  wr_prev h1 (Some this) (Some this).

(** [base_list_element(base_list_element&& other)]: [this] is fresh storage,
    its members start from their default initialisers. *)
Definition base_move_ctor (h : heap) (this other : addr) : option heap :=
  h0 ← base_ctor h this;
  (* if (other.prev) other.prev->next = this; *)
  op ← fprev h0 other;
  h1 ← (if decide (op ≠ None) then wr_next h0 op (Some this) else Some h0);
  (* if (other.next) other.next->prev = this; *)
  on ← fnext h1 other;
  h2 ← (if decide (on ≠ None) then wr_prev h1 on (Some this) else Some h1);
  (* this->next = other.next; this->prev = other.prev; *)
  on' ← fnext h2 other;
  h3 ← wr_next h2 (Some this) on';
  op' ← fprev h3 other;
  h4 ← wr_prev h3 (Some this) op';
  unlink h4 other.

(** [~base_list_element()]: [if (is_linked()) remove(); unlink();], after
    which the storage of the node is released. *)
Definition base_dtor (h : heap) (this : addr) : option heap :=
  l ← is_linked h this;
  h1 ← (if (l : bool) then fst <$> remove h this else Some h);
  h2 ← unlink h1 this;
  Some (delete this h2).

(** ** struct list_element<Tag>

    [list_element(list_element&& other) : base_list_element(other) {}].
    The mem-initialiser passes the *named* parameter [other], which is an
    lvalue.  The constructors of [base_list_element] that take one argument
    are the move constructor, whose rvalue reference does not bind to an
    lvalue, and the copy constructor, which is declared [= delete]. *)
Inductive value_category := lvalue | xvalue.
Inductive base_ctor_overload :=
  | ctor_move            (* base_list_element(base_list_element&&) *)
  | ctor_copy_deleted.   (* base_list_element(const base_list_element&) = delete *)

Definition base_ctor_resolve (c : value_category) : base_ctor_overload :=
  match c with
  | xvalue => ctor_move
  | lvalue => ctor_copy_deleted
  end.

(** The result is [None] when the selected constructor is the deleted one:
    the member initialisation is ill-formed and no code runs. *)
Definition list_element_move_ctor (h : heap) (this other : addr) : option heap :=
  match base_ctor_resolve lvalue with
  | ctor_move => base_move_ctor h this other
  | ctor_copy_deleted => None
  end.

(** ** struct list<T, Tag>::base_iterator

    An iterator is its [ptr] member. *)
Definition it_inc (h : heap) (it : ptr) : option ptr := rd_next h it.
Definition it_dec (h : heap) (it : ptr) : option ptr := rd_prev h it.
Definition it_eq (a b : ptr) : bool := bool_decide (a = b).
Definition it_neq (a b : ptr) : bool := bool_decide (a ≠ b).

(** ** struct list<T, Tag>

    A list object is its only member, the sentinel [sential]; we identify
    the list with the address of that node. *)

Definition list_begin (h : heap) (this : addr) : option ptr := fnext h this.
Definition list_end (this : addr) : ptr := Some this.

Definition empty (h : heap) (this : addr) : option bool :=
  b ← list_begin h this; Some (it_eq b (list_end this)).

(** [iterator insert_after(base_list_element* first, base_list_element* second)] *)
Definition insert_after (h : heap) (first second : ptr) : option (heap * ptr) :=
  third ← rd_next h first;
  s ← second;
  l ← is_linked h s;
  h1 ← (if (l : bool) then fst <$> remove h s else Some h);
  h2 ← wr_next h1 first second;
  h3 ← wr_prev h2 second first;
  h4 ← wr_next h3 second third;
  h5 ← wr_prev h4 third second;
  Some (h5, second).

(** [iterator erase(iterator element) { return element.ptr->remove(); }] *)
Definition erase (h : heap) (element : ptr) : option (heap * ptr) :=
  a ← element; remove h a.

(** [iterator insert(iterator pos, T& element)] *)
Definition insert (h : heap) (pos : ptr) (element : addr) : option (heap * ptr) :=
  let third := pos in
  let second := Some element in
  (* if (second == third || second == third->prev) return second; *)
  if decide (second = third) then Some (h, second)
  else
    tp ← rd_prev h third;
    if decide (second = tp) then Some (h, second)
    else
      (* insert_after(third->prev, second); return second; *)
      tp' ← rd_prev h third;
      r ← insert_after h tp' second;
      Some ((r : heap * ptr).1, second).

Definition push_back (h : heap) (this object : addr) : option heap :=
  fst <$> insert h (list_end this) object.

Definition push_front (h : heap) (this object : addr) : option heap :=
  b ← list_begin h this; fst <$> insert h b object.

Definition pop_back (h : heap) (this : addr) : option heap :=
  it ← it_dec h (list_end this); fst <$> erase h it.

Definition pop_front (h : heap) (this : addr) : option heap :=
  b ← list_begin h this; fst <$> erase h b.

(** [void splice(const_iterator position, list&, const_iterator begin,
    const_iterator end)]; the list argument is unnamed and unused. *)
Definition splice (h : heap) (position : ptr) (other : addr) (begin end_ : ptr)
  : option heap :=
  if it_eq begin end_ then Some h
  else
    let pos := position in
    let first := begin in
    let second := end_ in
    last ← rd_prev h second;
    (* first->prev->next = second; *)
    fp ← rd_prev h first;
    h1 ← wr_next h fp second;
    (* second->prev = first->prev; *)
    fp' ← rd_prev h1 first;
    h2 ← wr_prev h1 second fp';
    (* pos->prev->next = first; *)
    pp ← rd_prev h2 pos;
    h3 ← wr_next h2 pp first;
    (* first->prev = pos->prev; *)
    pp' ← rd_prev h3 pos;
    h4 ← wr_prev h3 first pp';
    (* last->next = pos; *)
    h5 ← wr_next h4 last pos;
    (* pos->prev = last; *)
    wr_prev h5 pos last.

(** [void untie_all() { while (!empty()) pop_front(); }]; the loop is
    bounded by [fuel] iterations. *)
Fixpoint untie_all (fuel : nat) (h : heap) (this : addr) : option heap :=
  e ← empty h this;
  if (e : bool) then Some h
  else match fuel with
       | O => None
       | S fuel' => h' ← pop_front h this; untie_all fuel' h' this
       end.

(** [void move(list&& other)] *)
Definition move (h : heap) (this other : addr) : option heap :=
  e ← empty h other;
  if negb (e : bool) then
    last ← fprev h other;
    '(h1, _) ← remove h other;
    '(h2, _) ← insert_after h1 last (Some this);
    tie h2 other
  else tie h this.

(** [list() { sential.tie(); }] *)
Definition list_ctor (h : heap) (this : addr) : option heap :=
  h0 ← base_ctor h this; tie h0 this.

(** [list(list&& other) { move(std::move(other)); }] *)
Definition list_move_ctor (h : heap) (this other : addr) : option heap :=
  h0 ← base_ctor h this; move h0 this other.

(** [list& operator=(list&& other)] *)
Definition list_move_assign (fuel : nat) (h : heap) (this other : addr) : option heap :=
  h1 ← untie_all fuel h this; move h1 this other.

(** [~list() { untie_all(); }], followed by the destruction of the member
    [sential]. *)
Definition list_dtor (fuel : nat) (h : heap) (this : addr) : option heap :=
  h1 ← untie_all fuel h this; base_dtor h1 this.

(** Client-side forward iteration:
    [for (it = begin(); it != end(); ++it) visit(it)]. *)
Fixpoint iterate (fuel : nat) (h : heap) (it end_ : ptr) : option (list addr) :=
  if it_neq it end_ then
    match fuel with
    | O => None
    | S fuel' =>
        a ← it; nx ← it_inc h it; r ← iterate fuel' h nx end_; Some (a :: r)
    end
  else Some [].

Definition to_list (fuel : nat) (h : heap) (this : addr) : option (list addr) :=
  b ← list_begin h this; iterate fuel h b (list_end this).

(** ** Invariants and the abstract view of a list *)

(** A node is either unlinked or both of its neighbours are live nodes that
    reference it back. *)
Definition node_ok (h : heap) (a : addr) (n : base_list_element) : Prop :=
  match prev n, next n with
  | None, None => True
  | Some p, Some q => fnext h p = Some (Some a) ∧ fprev h q = Some (Some a)
  | _, _ => False
  end.

Global Instance node_ok_dec h a n : Decision (node_ok h a n).
Proof. unfold node_ok. destruct (prev n), (next n); apply _. Defined.

(** Every node of the store is unlinked or sits in a consistent ring. *)
Definition heap_ok (h : heap) : Prop := map_Forall (node_ok h) h.

(** The node invariant of the source: [prev] and [next] are null together. *)
Definition null_sync (h : heap) : Prop :=
  map_Forall (λ _ n, prev n = None ↔ next n = None) h.

(** [chain h l b]: following [next] from the head of [l] visits exactly the
    nodes of [l], in order, and then reaches [b]. *)
Fixpoint chain (h : heap) (l : list addr) (b : addr) : Prop :=
  match l with
  | [] => True
  | a :: l' => fnext h a = Some (Some (hd b l')) ∧ chain h l' b
  end.

Global Instance chain_dec h l b : Decision (chain h l b).
Proof. revert b. induction l; intros; simpl; apply _. Defined.

(** [ring h c]: the distinct nodes [c] form one cycle of [next] references. *)
Definition ring (h : heap) (c : list addr) : Prop :=
  NoDup c ∧ chain h c (hd 1%positive c).

(** [is_list h s l]: the list whose sentinel lives at [s] has exactly the
    elements [l], in iteration order. *)
Definition is_list (h : heap) (s : addr) (l : list addr) : Prop :=
  NoDup (s :: l) ∧ chain h (s :: l) s.

Global Instance is_list_dec h s l : Decision (is_list h s l).
Proof. unfold is_list. apply _. Defined.

(** ** The stores that the operations produce *)

(** The store after [x.remove()]. *)
Definition removed (h : heap) (x p n : addr) : heap :=
  set_p x None (set_n x None (set_p n (Some p) (set_n p (Some n) h))).

(** The store after linking the unlinked node [x] between [f] and [t]. *)
Definition inserted (h : heap) (f x t : addr) : heap :=
  set_p t (Some x) (set_n x (Some t) (set_p x (Some f) (set_n f (Some x) h))).

(** The store after detaching [x] if it is linked: the effect of
    [if (x.is_linked()) x.remove();]. *)
Definition detached (h : heap) (x : addr) : heap :=
  match fprev h x, fnext h x with
  | Some (Some p), Some (Some n) => removed h x p n
  | _, _ => h
  end.

(** The store after [splice]: [a] was the predecessor of [first], [b] is
    the predecessor of [pos] once the range has been cut out, and [last]
    was the predecessor of [second]. *)
Definition spliced (h : heap) (pos first second a b last : addr) : heap :=
  set_p pos (Some last) (set_n last (Some pos)
    (set_p first (Some b) (set_n b (Some first)
      (set_p second (Some a) (set_n a (Some second) h))))).

(** The store after [x.tie()]. *)
Definition tied (h : heap) (x : addr) : heap :=
  set_p x (Some x) (set_n x (Some x) h).

(** The store after move-constructing the node [this] from the node
    [other], which was linked between [p] and [n]; [h0] is the store in
    which [this] has been default-initialised. *)
Definition moved (h0 : heap) (this other p n : addr) : heap :=
  set_p other None (set_n other None
    (set_p this (Some p) (set_n this (Some n)
      (set_p n (Some this) (set_n p (Some this) h0))))).

(** ** Abstract sequences *)

(** The sequence [l] without the element [x]. *)
Definition list_without (x : addr) (l : list addr) : list addr :=
  filter (λ y, y ≠ x) l.

(** [x] placed immediately before [pos]; at the end when [pos] is not an
    element (the position [end()]). *)
Fixpoint insert_before (pos x : addr) (l : list addr) : list addr :=
  match l with
  | [] => [x]
  | y :: l' => if decide (y = pos) then x :: y :: l' else y :: insert_before pos x l'
  end.

(** The sequence after [insert(pos, x)]. *)
Definition abs_insert (pos x : addr) (l : list addr) : list addr :=
  if decide (x = pos) then l else insert_before pos x (list_without x l).

(** ** Sequences of list operations *)

(** The mutating operations of the list whose sentinel is [s]; iterators
    are given by the node they refer to. *)
Inductive op :=
  | PushFront (x : addr)
  | PushBack (x : addr)
  | Insert (pos x : addr)
  | Erase (it : addr)
  | PopFront
  | PopBack.

Definition run_op (s : addr) (h : heap) (o : op) : option heap :=
  match o with
  | PushFront x => push_front h s x
  | PushBack x => push_back h s x
  | Insert pos x => fst <$> insert h (Some pos) x
  | Erase it => fst <$> erase h (Some it)
  | PopFront => pop_front h s
  | PopBack => pop_back h s
  end.

Fixpoint run_ops (s : addr) (h : heap) (os : list op) : option heap :=
  match os with
  | [] => Some h
  | o :: os' => h' ← run_op s h o; run_ops s h' os'
  end.

(** The sequence of members an operation is expected to leave. *)
Definition abs_op (s : addr) (l : list addr) (o : op) : list addr :=
  match o with
  | PushFront x => x :: list_without x l
  | PushBack x => list_without x l ++ [x]
  | Insert pos x => abs_insert pos x l
  | Erase it => list_without it l
  | PopFront => tail l
  | PopBack => removelast l
  end.

Definition abs_ops (s : addr) (l : list addr) (os : list op) : list addr :=
  foldl (abs_op s) l os.

(** The preconditions of the operations: an inserted object is a live
    element (not the sentinel), a position is a member or [end()], an
    erased iterator refers to a member, and [pop] needs a non-empty list. *)
Definition op_pre (s : addr) (live : gset addr) (l : list addr) (o : op) : Prop :=
  match o with
  | PushFront x | PushBack x => x ≠ s ∧ x ∈ live
  | Insert pos x => pos ∈ l ++ [s] ∧ x ≠ s ∧ x ∈ live
  | Erase it => it ∈ l
  | PopFront | PopBack => l ≠ []
  end.

Global Instance op_pre_dec s live l o : Decision (op_pre s live l o).
Proof. destruct o; simpl; apply _. Defined.

Fixpoint ops_pre (s : addr) (live : gset addr) (l : list addr) (os : list op) : Prop :=
  match os with
  | [] => True
  | o :: os' => op_pre s live l o ∧ ops_pre s live (abs_op s l o) os'
  end.

Global Instance ops_pre_dec s live l os : Decision (ops_pre s live l os).
Proof. revert l. induction os; intros; simpl; apply _. Defined.

(** ** The public operations *)

(** Every public operation that changes the store: the special members of
    the node, those of the list, and the list's modifiers.  Iterators are
    given by their [ptr] member. *)
Inductive public_op :=
  | NodeCtor (this : addr)
  | NodeMoveCtor (this other : addr)
  | NodeDtor (this : addr)
  | ListCtor (this : addr)
  | ListMoveCtor (this other : addr)
  | ListMoveAssign (this other : addr)
  | ListDtor (this : addr)
  | ListPushBack (this object : addr)
  | ListPushFront (this object : addr)
  | ListPopBack (this : addr)
  | ListPopFront (this : addr)
  | ListErase (element : ptr)
  | ListInsert (pos : ptr) (element : addr)
  | ListSplice (position : ptr) (other : addr) (first second : ptr).

Definition run_public (fuel : nat) (h : heap) (o : public_op) : option heap :=
  match o with
  | NodeCtor this => base_ctor h this
  | NodeMoveCtor this other => base_move_ctor h this other
  | NodeDtor this => base_dtor h this
  | ListCtor this => list_ctor h this
  | ListMoveCtor this other => list_move_ctor h this other
  | ListMoveAssign this other => list_move_assign fuel h this other
  | ListDtor this => list_dtor fuel h this
  | ListPushBack this object => push_back h this object
  | ListPushFront this object => push_front h this object
  | ListPopBack this => pop_back h this
  | ListPopFront this => pop_front h this
  | ListErase element => fst <$> erase h element
  | ListInsert pos element => fst <$> insert h pos element
  | ListSplice position other first second => splice h position other first second
  end.

(** What the invariant needs from the caller: a node is moved from a live
    node that is not a sentinel tied to itself, and the position of a
    [splice] is not the first node of a non-empty range. *)
Definition public_pre (h : heap) (o : public_op) : Prop :=
  match o with
  | NodeMoveCtor this other =>
      is_Some (h !! other) ∧ fprev h other ≠ Some (Some other)
  | ListSplice position other first second =>
      position ≠ first ∨ first = second
  | _ => True
  end.

Global Instance public_pre_dec h o : Decision (public_pre h o).
Proof. destruct o; simpl; apply _. Defined.

(** The stores that public operations can produce from the empty store. *)
Inductive reachable : heap → Prop :=
  | reachable_empty : reachable ∅
  | reachable_step fuel h o h' :
      reachable h → public_pre h o → run_public fuel h o = Some h' →
      reachable h'.

(** ** Elements and their payload *)

(** [reference operator*() const]: the iterator's node is a base of the
    element; the element's own members live in a store of payloads. *)
Definition it_deref {T} (elems : gmap addr T) (it : ptr) : option T :=
  a ← it; elems !! a.

(** The payloads met by a forward iteration from [begin()] to [end()]. *)
Definition values {T} (fuel : nat) (h : heap) (elems : gmap addr T) (this : addr)
  : option (list T) :=
  l ← to_list fuel h this; mapM (λ a, it_deref elems (Some a)) l.

Module Scenario.
(** Three unlinked elements holding 1, 2, 3 and a freshly constructed
    list. *)
Definition lst : addr := 100.
Definition e1 : addr := 11.
Definition e2 : addr := 12.
Definition e3 : addr := 13.
Definition elems : gmap addr Z := {[ e1 := 1%Z; e2 := 2%Z; e3 := 3%Z ]}.
Definition nodes : heap :=
  {[ e1 := Node None None; e2 := Node None None; e3 := Node None None ]}.
Definition start : option heap := list_ctor nodes lst.

Definition pushed : option heap :=
  h ← start; h ← push_back h lst e1; h ← push_back h lst e2; push_back h lst e3.
Definition erased : option heap :=
  h ← pushed; b ← list_begin h lst; fst <$> erase h b.
Definition reused : option heap :=
  h ← erased; push_front h lst e1.

(** The store in which the list holds the three elements. *)
Definition full : heap := Eval vm_compute in default ∅ pushed.

(** A second list holding two more elements, next to the first one. *)
Definition lst2 : addr := 200.
Definition e4 : addr := 14.
Definition e5 : addr := 15.
Definition two_lists : heap := Eval vm_compute in
  default ∅ (h ← base_ctor full e4; h ← base_ctor h e5; h ← list_ctor h lst2;
             h ← push_back h lst2 e4; push_back h lst2 e5).

(** Fresh storage for one more node. *)
Definition e6 : addr := 16.

(** A store built from the empty one by public operations only. *)
Definition built1 : heap := Eval vm_compute in
  default ∅ (base_ctor ∅ e1).
Definition built2 : heap := Eval vm_compute in
  default ∅ (list_ctor built1 lst).
Definition built3 : heap := Eval vm_compute in
  default ∅ (push_back built2 lst e1).

(** [splice] called with the first node of the range as position. *)
Definition spliced_at_begin : heap := Eval vm_compute in
  default ∅ (splice full (Some e1) lst (Some e1) (Some e2)).
End Scenario.

(** ** The remaining members of the iterator and of the list *)

(** [base_iterator operator++(int)] and [operator--(int)]: the pair of the
    iterator returned (the old position) and of the iterator after the
    call. *)
Definition it_post_inc (h : heap) (it : ptr) : option (ptr * ptr) :=
  let res := it in
  it' ← it_inc h it; Some (res, it').

Definition it_post_dec (h : heap) (it : ptr) : option (ptr * ptr) :=
  let res := it in
  it' ← it_dec h it; Some (res, it').

(** The reference [*p] to the node a pointer refers to: undefined when the
    pointer is null or dangling. *)
Definition node_ref (h : heap) (p : ptr) : option addr :=
  a ← p; if decide (is_Some (h !! a)) then Some a else None.

(** [T& front()]: the node [sential.next], taken as an element. *)
Definition front (h : heap) (this : addr) : option addr :=
  p ← fnext h this; node_ref h p.

(** [T& back()]: the node [sential.prev], taken as an element. *)
Definition back (h : heap) (this : addr) : option addr :=
  p ← fprev h this; node_ref h p.

(** Client-side backward iteration:
    [for (it = end(); it != begin(); ) { --it; visit(it); }]. *)
Fixpoint iterate_back (fuel : nat) (h : heap) (it begin : ptr)
  : option (list addr) :=
  if it_neq it begin then
    match fuel with
    | O => None
    | S fuel' =>
        it' ← it_dec h it; a ← it'; r ← iterate_back fuel' h it' begin;
        Some (a :: r)
    end
  else Some [].

Definition to_list_back (fuel : nat) (h : heap) (this : addr)
  : option (list addr) :=
  b ← list_begin h this; iterate_back fuel h (list_end this) b.

(** The set of live nodes a public operation is expected to leave: a
    constructor adds the node it constructs, a destructor releases the node
    it destroys, and nothing else changes it. *)
Definition live_after (live : gset addr) (o : public_op) : gset addr :=
  match o with
  | NodeCtor this | NodeMoveCtor this _ | ListCtor this | ListMoveCtor this _ =>
      {[this]} ∪ live
  | NodeDtor this | ListDtor this => live ∖ {[this]}
  | _ => live
  end.

(** A client program: public operations run one after the other. *)
Fixpoint run_publics (fuel : nat) (h : heap) (os : list public_op) : option heap :=
  match os with
  | [] => Some h
  | o :: os' => h' ← run_public fuel h o; run_publics fuel h' os'
  end.

(** Further stores used as concrete inputs. *)
Module Stores.
Import Scenario.
(** Three elements are pushed to a list, [splice] is called with the first
    node of the range as position, and the first element is popped. *)
Definition corrupting_ops : list public_op :=
  [ NodeCtor e1; NodeCtor e2; NodeCtor e3; ListCtor lst;
    ListPushBack lst e1; ListPushBack lst e2; ListPushBack lst e3;
    ListSplice (Some e1) lst (Some e1) (Some e2);
    ListPopFront lst ].
Definition after_pop : heap := Eval vm_compute in
  default ∅ (run_publics 0 ∅ corrupting_ops).
(** A second list is then move-constructed from the first one. *)
Definition after_move : heap := Eval vm_compute in
  default ∅ (run_public 0 after_pop (ListMoveCtor lst2 lst)).
(** The list [e1; e2; e3] and the unlinked node [e6]. *)
Definition with_spare : heap := Eval vm_compute in
  default ∅ (base_ctor full e6).
(** The lists [e1; e2; e3] and [e4; e5] and the unlinked node [e6]. *)
Definition two_with_spare : heap := Eval vm_compute in
  default ∅ (base_ctor two_lists e6).
End Stores.

(** * Properties of the embedding *)

(** ** Reading after writing *)

Global Arguments fprev : simpl never.
Global Arguments fnext : simpl never.
Global Arguments set_p : simpl never.
Global Arguments set_n : simpl never.
Global Arguments wr_prev : simpl never.
Global Arguments wr_next : simpl never.

Section fields.
Implicit Types (h : heap) (a u : addr) (v : ptr).

Lemma lookup_set_n h a v u :
  set_n a v h !! u =
    if decide (u = a) then (λ n, Node (prev n) v) <$> h !! u else h !! u.
Proof.
  unfold set_n. rewrite lookup_alter. repeat case_decide; congruence.
Qed.

Lemma lookup_set_p h a v u :
  set_p a v h !! u =
    if decide (u = a) then (λ n, Node v (next n)) <$> h !! u else h !! u.
Proof.
  unfold set_p. rewrite lookup_alter. repeat case_decide; congruence.
Qed.

Lemma alloc_set_n h a v u : is_Some (set_n a v h !! u) ↔ is_Some (h !! u).
Proof. rewrite lookup_set_n. case_decide; [by rewrite fmap_is_Some|done]. Qed.

Lemma alloc_set_p h a v u : is_Some (set_p a v h !! u) ↔ is_Some (h !! u).
Proof. rewrite lookup_set_p. case_decide; [by rewrite fmap_is_Some|done]. Qed.

Lemma fnext_is_Some h a : is_Some (fnext h a) ↔ is_Some (h !! a).
Proof. unfold fnext. by rewrite fmap_is_Some. Qed.

Lemma fprev_is_Some h a : is_Some (fprev h a) ↔ is_Some (h !! a).
Proof. unfold fprev. by rewrite fmap_is_Some. Qed.

Lemma fnext_alloc h a w : fnext h a = Some w → is_Some (h !! a).
Proof. intros E. apply fnext_is_Some. by rewrite E. Qed.

Lemma fprev_alloc h a w : fprev h a = Some w → is_Some (h !! a).
Proof. intros E. apply fprev_is_Some. by rewrite E. Qed.

Lemma fnext_set_n h a v u :
  is_Some (h !! a) →
  fnext (set_n a v h) u = if decide (u = a) then Some v else fnext h u.
Proof.
  intros [n Hn]. unfold fnext. rewrite lookup_set_n.
  case_decide; [subst; by rewrite Hn|done].
Qed.

Lemma fprev_set_p h a v u :
  is_Some (h !! a) →
  fprev (set_p a v h) u = if decide (u = a) then Some v else fprev h u.
Proof.
  intros [n Hn]. unfold fprev. rewrite lookup_set_p.
  case_decide; [subst; by rewrite Hn|done].
Qed.

Lemma fnext_set_p h a v u : fnext (set_p a v h) u = fnext h u.
Proof.
  unfold fnext. rewrite lookup_set_p. case_decide; [|done].
  by destruct (h !! u).
Qed.

Lemma fprev_set_n h a v u : fprev (set_n a v h) u = fprev h u.
Proof.
  unfold fprev. rewrite lookup_set_n. case_decide; [|done].
  by destruct (h !! u).
Qed.

Lemma wr_next_alloc h a v :
  is_Some (h !! a) → wr_next h (Some a) v = Some (set_n a v h).
Proof. intros H. unfold wr_next. simpl. by rewrite decide_True. Qed.

Lemma wr_prev_alloc h a v :
  is_Some (h !! a) → wr_prev h (Some a) v = Some (set_p a v h).
Proof. intros H. unfold wr_prev. simpl. by rewrite decide_True. Qed.
End fields.

(** Allocation side conditions, through any number of field updates. *)
Ltac solve_alloc :=
  repeat (rewrite alloc_set_n || rewrite alloc_set_p);
  first [ assumption
        | eapply fnext_alloc; eassumption
        | eapply fprev_alloc; eassumption
        | eauto ].

(** Normalise reads of fields through field updates. *)
Ltac field_simpl :=
  repeat first
    [ rewrite fnext_set_p
    | rewrite fprev_set_n
    | rewrite fnext_set_n by solve_alloc
    | rewrite fprev_set_p by solve_alloc ].

Ltac field_simpl_in H :=
  repeat first
    [ rewrite fnext_set_p in H
    | rewrite fprev_set_n in H
    | rewrite fnext_set_n in H by solve_alloc
    | rewrite fprev_set_p in H by solve_alloc ].

(** ** Pointwise form of the store invariant *)

Section invariant.
Implicit Types (h : heap) (a b : addr).

Lemma heap_ok_next_prev h a b :
  heap_ok h → fnext h a = Some (Some b) → fprev h b = Some (Some a).
Proof.
  intros Hok E. unfold fnext in E.
  destruct (h !! a) as [[pa na]|] eqn:Ha; simplify_eq/=.
  pose proof (Hok _ _ Ha) as Hnode. unfold node_ok in Hnode; simpl in Hnode.
  destruct pa; naive_solver.
Qed.

Lemma heap_ok_prev_next h a b :
  heap_ok h → fprev h b = Some (Some a) → fnext h a = Some (Some b).
Proof.
  intros Hok E. unfold fprev in E.
  destruct (h !! b) as [[pb nb]|] eqn:Hb; simplify_eq/=.
  pose proof (Hok _ _ Hb) as Hnode. unfold node_ok in Hnode; simpl in Hnode.
  destruct nb; naive_solver.
Qed.

Lemma heap_ok_null h a :
  heap_ok h → fnext h a = Some None ↔ fprev h a = Some None.
Proof.
  intros Hok. unfold fnext, fprev.
  destruct (h !! a) as [[pa na]|] eqn:Ha; simpl; [|done].
  pose proof (Hok _ _ Ha) as Hnode. unfold node_ok in Hnode; simpl in Hnode.
  destruct pa, na; naive_solver.
Qed.

Lemma heap_ok_intro h :
  (∀ a b, fnext h a = Some (Some b) → fprev h b = Some (Some a)) →
  (∀ a b, fprev h b = Some (Some a) → fnext h a = Some (Some b)) →
  (∀ a, fnext h a = Some None ↔ fprev h a = Some None) →
  heap_ok h.
Proof.
  intros Hnp Hpn Hnull a [pa na] Ha. unfold node_ok; simpl.
  assert (fprev h a = Some pa) as Hp by (unfold fprev; by rewrite Ha).
  assert (fnext h a = Some na) as Hn by (unfold fnext; by rewrite Ha).
  destruct pa as [p|], na as [n|]; [by auto| | |done].
  - apply Hnull in Hn. congruence.
  - apply Hnull in Hp. congruence.
Qed.

Lemma heap_ok_null_sync h : heap_ok h → null_sync h.
Proof.
  intros Hok a [pa na] Ha. pose proof (Hok _ _ Ha) as Hnode.
  unfold node_ok in Hnode; simpl in *. destruct pa, na; naive_solver.
Qed.

Lemma null_sync_intro h :
  (∀ a, fnext h a = Some None ↔ fprev h a = Some None) → null_sync h.
Proof.
  intros Hn a [pa na] Ha. specialize (Hn a). unfold fnext, fprev in Hn.
  rewrite Ha in Hn. simpl in *. destruct pa, na; naive_solver.
Qed.
End invariant.

(** Close a set of field facts under the symmetry of a consistent store. *)
Ltac ok_sat Hok :=
  repeat match goal with
    | E : fnext ?h ?a = Some (Some ?b) |- _ =>
        lazymatch goal with
        | _ : fprev h b = Some (Some a) |- _ => fail
        | _ => pose proof (heap_ok_next_prev _ _ _ Hok E)
        end
    | E : fprev ?h ?b = Some (Some ?a) |- _ =>
        lazymatch goal with
        | _ : fnext h a = Some (Some b) |- _ => fail
        | _ => pose proof (heap_ok_prev_next _ _ _ Hok E)
        end
    | E : fnext ?h ?a = Some None |- _ =>
        lazymatch goal with
        | _ : fprev h a = Some None |- _ => fail
        | _ => pose proof (proj1 (heap_ok_null _ a Hok) E)
        end
    | E : fprev ?h ?a = Some None |- _ =>
        lazymatch goal with
        | _ : fnext h a = Some None |- _ => fail
        | _ => pose proof (proj2 (heap_ok_null _ a Hok) E)
        end
    end.

(** A live node has both fields. *)
Ltac alloc_contra Ax :=
  let v := fresh in let w := fresh in let E := fresh in let F := fresh in
  destruct (proj2 (fprev_is_Some _ _) Ax) as [v E];
  destruct (proj2 (fnext_is_Some _ _) Ax) as [w F];
  congruence.

(** ** Primitive operations on a consistent store *)

Section primitives.
Implicit Types (h : heap) (x p n : addr).

Lemma unlink_spec h x :
  is_Some (h !! x) → unlink h x = Some (set_p x None (set_n x None h)).
Proof.
  intros H. unfold unlink. rewrite wr_next_alloc by done. simpl.
  rewrite wr_prev_alloc by solve_alloc. done.
Qed.

Lemma tie_spec h x :
  is_Some (h !! x) → tie h x = Some (set_p x (Some x) (set_n x (Some x) h)).
Proof.
  intros H. unfold tie. rewrite wr_next_alloc by done. simpl.
  rewrite wr_prev_alloc by solve_alloc. done.
Qed.

Lemma remove_spec h x p n :
  fprev h x = Some (Some p) → fnext h x = Some (Some n) →
  is_Some (h !! p) → is_Some (h !! n) →
  remove h x = Some (removed h x p n, Some n).
Proof.
  intros Hp Hn Ap An. unfold remove, removed.
  rewrite Hn, Hp. simpl. rewrite wr_next_alloc by done. simpl.
  field_simpl. rewrite Hp. case_decide; simpl.
  - rewrite wr_prev_alloc by solve_alloc. simpl.
    rewrite unlink_spec by solve_alloc. done.
  - rewrite Hn. simpl. rewrite wr_prev_alloc by solve_alloc. simpl.
    rewrite unlink_spec by solve_alloc. done.
Qed.

Lemma removed_fnext h x p n u :
  is_Some (h !! x) → is_Some (h !! p) →
  fnext (removed h x p n) u =
    if decide (u = x) then Some None
    else if decide (u = p) then Some (Some n) else fnext h u.
Proof. intros. unfold removed. by field_simpl. Qed.

Lemma removed_fprev h x p n u :
  is_Some (h !! x) → is_Some (h !! n) →
  fprev (removed h x p n) u =
    if decide (u = x) then Some None
    else if decide (u = n) then Some (Some p) else fprev h u.
Proof. intros. unfold removed. by field_simpl. Qed.

Lemma removed_alloc h x p n u :
  is_Some (removed h x p n !! u) ↔ is_Some (h !! u).
Proof. unfold removed. by repeat (rewrite alloc_set_p || rewrite alloc_set_n). Qed.
End primitives.

(** ** Chains of [next] references *)

Section chains.
Implicit Types (h : heap) (l : list addr) (a b u : addr).

Lemma chain_app h l1 l2 b :
  chain h (l1 ++ l2) b ↔ chain h l1 (hd b l2) ∧ chain h l2 b.
Proof.
  induction l1 as [|a l1 IH]; simpl; [naive_solver|].
  rewrite IH. destruct l1; simpl; naive_solver.
Qed.

Lemma chain_frame h h' l b :
  (∀ u, u ∈ l → fnext h' u = fnext h u) → chain h l b → chain h' l b.
Proof.
  induction l as [|a l IH]; simpl; [done|]. intros Hf [Ha Hl]. split.
  - rewrite Hf by left. done.
  - apply IH; [|done]. intros u Hu. apply Hf. by right.
Qed.

Lemma chain_alloc h l b u : chain h l b → u ∈ l → is_Some (h !! u).
Proof.
  induction l as [|a l IH]; simpl; intros Hc Hu; [by apply elem_of_nil in Hu|].
  destruct Hc as [Ha Hl]. apply elem_of_cons in Hu as [->|Hu]; [|by auto].
  by eapply fnext_alloc.
Qed.

Lemma chain_lookup h l1 a l2 b :
  chain h (l1 ++ a :: l2) b → fnext h a = Some (Some (hd b l2)).
Proof. rewrite chain_app. simpl. naive_solver. Qed.

(** Iterating from the head of a chain to its target visits the chain. *)
Lemma iterate_chain h l s fuel :
  chain h l s → s ∉ l → length l ≤ fuel →
  iterate fuel h (Some (hd s l)) (Some s) = Some l.
Proof.
  revert fuel. induction l as [|a l IH]; intros fuel Hc Hs Hlen.
  - destruct fuel; simpl; unfold it_neq; by rewrite bool_decide_false by naive_solver.
  - destruct fuel as [|fuel]; simpl in Hlen; [lia|].
    destruct Hc as [Ha Hl]. apply not_elem_of_cons in Hs as [Hsa Hs].
    simpl. unfold it_neq. rewrite bool_decide_true by congruence.
    unfold it_inc. simpl. rewrite Ha. simpl.
    rewrite IH by (done || lia). done.
Qed.

Lemma is_list_to_list h s l fuel :
  is_list h s l → length l ≤ fuel → to_list fuel h s = Some l.
Proof.
  intros [Hnd [Hs Hc]] Hlen. unfold to_list, list_begin, list_end.
  rewrite Hs. simpl. apply iterate_chain; [done| |done].
  by apply NoDup_cons in Hnd as [? _].
Qed.

Lemma is_list_begin h s l : is_list h s l → list_begin h s = Some (Some (hd s l)).
Proof. by intros [_ [Hs _]]. Qed.

Lemma is_list_alloc h s l u : is_list h s l → u ∈ s :: l → is_Some (h !! u).
Proof. intros [_ Hc]. by eapply chain_alloc. Qed.
End chains.

(** ** Detaching a node *)

Section removal.
Implicit Types (h : heap) (x p n : addr).

Lemma removed_ok h x p n :
  heap_ok h → fprev h x = Some (Some p) → fnext h x = Some (Some n) →
  heap_ok (removed h x p n).
Proof.
  intros Hok Hp Hn.
  pose proof (heap_ok_prev_next _ _ _ Hok Hp) as Hpx.
  pose proof (heap_ok_next_prev _ _ _ Hok Hn) as Hnx.
  assert (is_Some (h !! x)) by solve_alloc.
  assert (is_Some (h !! p)) by solve_alloc.
  assert (is_Some (h !! n)) by solve_alloc.
  apply heap_ok_intro.
  - intros a b. rewrite removed_fnext, removed_fprev by done.
    repeat case_decide; subst; intros E; simplify_eq; ok_sat Hok; congruence.
  - intros a b. rewrite removed_fnext, removed_fprev by done.
    repeat case_decide; subst; intros E; simplify_eq; ok_sat Hok; congruence.
  - intros a. rewrite removed_fnext, removed_fprev by done.
    repeat case_decide; subst; split; intros E; simplify_eq; ok_sat Hok;
      congruence.
Qed.

(** Detaching [x] from a chain that runs through [p], [x]. *)
Lemma chain_removed h x p l0 l2 b :
  NoDup (l0 ++ p :: x :: l2) →
  chain h (l0 ++ p :: x :: l2) b →
  chain (removed h x p (hd b l2)) (l0 ++ p :: l2) b.
Proof.
  intros Hnd Hc.
  assert (is_Some (h !! x)) by (eapply chain_alloc; [done|set_solver]).
  assert (is_Some (h !! p)) by (eapply chain_alloc; [done|set_solver]).
  apply NoDup_app in Hnd as (Hnd0 & Hdisj & Hnd1).
  apply NoDup_cons in Hnd1 as [Hp Hnd1].
  apply NoDup_cons in Hnd1 as [Hx Hnd2].
  apply chain_app in Hc as [Hc0 (Hpx & Hxn & Hc2)]. simpl in *.
  apply chain_app. simpl. split_and!.
  - eapply chain_frame; [|done]. intros u Hu.
    rewrite removed_fnext by done. rewrite !decide_False; set_solver.
  - rewrite removed_fnext by done. rewrite decide_False by set_solver.
    by rewrite decide_True.
  - eapply chain_frame; [|done]. intros u Hu.
    rewrite removed_fnext by done. rewrite !decide_False; set_solver.
Qed.

(** A chain that avoids [x] is untouched when [x] is detached. *)
Lemma chain_removed_frame h x p n l b :
  heap_ok h → fprev h x = Some (Some p) → fnext h x = Some (Some n) →
  x ∉ l → x ≠ b → chain h l b → chain (removed h x p n) l b.
Proof.
  intros Hok Hp Hn Hx Hb Hc.
  assert (is_Some (h !! x)) by solve_alloc.
  pose proof (heap_ok_prev_next _ _ _ Hok Hp) as Hpx.
  assert (p ∉ l) as Hpl.
  { intros Hin. apply list_elem_of_split in Hin as (l1 & l2 & ->).
    apply chain_lookup in Hc. rewrite Hpx in Hc. simplify_eq.
    destruct l2; simpl in *; set_solver. }
  eapply chain_frame; [|done]. intros u Hu.
  rewrite removed_fnext by solve_alloc. rewrite !decide_False; set_solver.
Qed.
End removal.

(** ** Linking a node after another *)

Section insertion.
Implicit Types (h : heap) (f x t p n : addr).

Lemma inserted_fnext h f x t u :
  is_Some (h !! f) → is_Some (h !! x) →
  fnext (inserted h f x t) u =
    if decide (u = x) then Some (Some t)
    else if decide (u = f) then Some (Some x) else fnext h u.
Proof. intros. unfold inserted. by field_simpl. Qed.

Lemma inserted_fprev h f x t u :
  is_Some (h !! x) → is_Some (h !! t) →
  fprev (inserted h f x t) u =
    if decide (u = t) then Some (Some x)
    else if decide (u = x) then Some (Some f) else fprev h u.
Proof. intros. unfold inserted. by field_simpl. Qed.

Lemma inserted_alloc h f x t u :
  is_Some (inserted h f x t !! u) ↔ is_Some (h !! u).
Proof. unfold inserted. by repeat (rewrite alloc_set_p || rewrite alloc_set_n). Qed.

Lemma is_linked_spec h x v :
  fprev h x = Some v → is_linked h x = Some (bool_decide (v ≠ None)).
Proof. intros E. unfold is_linked. by rewrite E. Qed.

Lemma insert_after_unlinked h f x t :
  fnext h f = Some (Some t) → fprev h x = Some None → is_Some (h !! t) →
  insert_after h (Some f) (Some x) = Some (inserted h f x t, Some x).
Proof.
  intros Hf Hx Ht. unfold insert_after, inserted, rd_next. simpl.
  rewrite Hf. simpl. rewrite (is_linked_spec _ _ _ Hx). simpl.
  rewrite wr_next_alloc by solve_alloc. simpl.
  rewrite wr_prev_alloc by solve_alloc. simpl.
  rewrite wr_next_alloc by solve_alloc. simpl.
  rewrite wr_prev_alloc by solve_alloc. done.
Qed.

Lemma insert_after_linked h f x t p n :
  fnext h f = Some (Some t) →
  fprev h x = Some (Some p) → fnext h x = Some (Some n) →
  is_Some (h !! p) → is_Some (h !! n) → is_Some (h !! t) →
  insert_after h (Some f) (Some x)
    = Some (inserted (removed h x p n) f x t, Some x).
Proof.
  intros Hf Hp Hn Ap An At. unfold insert_after, inserted, rd_next. simpl.
  rewrite Hf. simpl. rewrite (is_linked_spec _ _ _ Hp). simpl.
  rewrite (remove_spec _ _ _ _ Hp Hn Ap An). simpl.
  assert (∀ u, is_Some (h !! u) → is_Some (removed h x p n !! u)) as Hal
    by (intros; by apply removed_alloc).
  rewrite wr_next_alloc by (apply Hal; solve_alloc). simpl.
  rewrite wr_prev_alloc by (rewrite alloc_set_n; apply Hal; solve_alloc). simpl.
  rewrite wr_next_alloc
    by (rewrite alloc_set_p, alloc_set_n; apply Hal; solve_alloc). simpl.
  rewrite wr_prev_alloc
    by (rewrite alloc_set_n, alloc_set_p, alloc_set_n; apply Hal; solve_alloc).
  done.
Qed.

Lemma inserted_ok h f x t :
  heap_ok h → fnext h f = Some (Some t) → fprev h x = Some None →
  heap_ok (inserted h f x t).
Proof.
  intros Hok Hf Hx.
  pose proof (heap_ok_next_prev _ _ _ Hok Hf) as Htf.
  pose proof (proj2 (heap_ok_null _ _ Hok) Hx) as Hxn.
  assert (is_Some (h !! x)) by solve_alloc.
  assert (is_Some (h !! f)) by solve_alloc.
  assert (is_Some (h !! t)) by solve_alloc.
  apply heap_ok_intro.
  - intros a b. rewrite inserted_fnext, inserted_fprev by done.
    repeat case_decide; subst; intros E; simplify_eq; ok_sat Hok; congruence.
  - intros a b. rewrite inserted_fnext, inserted_fprev by done.
    repeat case_decide; subst; intros E; simplify_eq; ok_sat Hok; congruence.
  - intros a. rewrite inserted_fnext, inserted_fprev by done.
    repeat case_decide; subst; split; intros E; simplify_eq; ok_sat Hok;
      congruence.
Qed.

(** Linking [x] into a chain, right after [f]. *)
Lemma chain_inserted h f x l0 l2 b :
  is_Some (h !! x) → x ∉ l0 ++ f :: l2 → NoDup (l0 ++ f :: l2) →
  chain h (l0 ++ f :: l2) b →
  chain (inserted h f x (hd b l2)) (l0 ++ f :: x :: l2) b.
Proof.
  intros Ax Hx Hnd Hc.
  apply NoDup_app in Hnd as (Hnd0 & Hdisj & Hnd1).
  apply NoDup_cons in Hnd1 as [Hf Hnd1].
  assert (is_Some (h !! f)) by (eapply chain_alloc; [done|set_solver]).
  apply chain_app in Hc as [Hc0 (Hft & Hc2)]. simpl in *.
  apply chain_app. simpl. split_and!.
  - eapply chain_frame; [|done]. intros u Hu.
    rewrite inserted_fnext by done. rewrite !decide_False; set_solver.
  - rewrite inserted_fnext by done. rewrite decide_False by set_solver.
    by rewrite decide_True.
  - rewrite inserted_fnext by done. by rewrite decide_True.
  - eapply chain_frame; [|done]. intros u Hu.
    rewrite inserted_fnext by done. rewrite !decide_False; set_solver.
Qed.

(** A chain that avoids [f] and [x] is untouched. *)
Lemma chain_inserted_frame h f x t l b :
  is_Some (h !! f) → is_Some (h !! x) → x ∉ l → f ∉ l →
  chain h l b → chain (inserted h f x t) l b.
Proof.
  intros Af Ax Hx Hf Hc. eapply chain_frame; [|done]. intros u Hu.
  rewrite inserted_fnext by done. rewrite !decide_False; set_solver.
Qed.
End insertion.

(** ** Facts about abstract sequences *)

Section sequences.
Implicit Types (l : list addr) (x pos s : addr).

Lemma list_without_notin x l : x ∉ l → list_without x l = l.
Proof.
  induction l as [|y l IH]; [done|]. intros Hx.
  apply not_elem_of_cons in Hx as [Hxy Hx]. unfold list_without in *.
  rewrite filter_cons_True by done. by rewrite IH.
Qed.

Lemma list_without_app x l1 l2 :
  list_without x (l1 ++ l2) = list_without x l1 ++ list_without x l2.
Proof. apply filter_app. Qed.

Lemma list_without_split x l1 l2 :
  NoDup (l1 ++ x :: l2) → list_without x (l1 ++ x :: l2) = l1 ++ l2.
Proof.
  intros Hnd. apply NoDup_app in Hnd as (_ & Hdisj & Hnd).
  apply NoDup_cons in Hnd as [Hx _].
  rewrite list_without_app.
  assert (list_without x (x :: l2) = list_without x l2) as ->.
  { unfold list_without. apply filter_cons_False. naive_solver. }
  rewrite !list_without_notin; [done|done|].
  intros Hin. apply (Hdisj x Hin). left.
Qed.

Lemma list_without_subseteq x l : list_without x l ⊆ l.
Proof. intros y. unfold list_without. rewrite list_elem_of_filter. naive_solver. Qed.

Lemma list_without_not_elem x l : x ∉ list_without x l.
Proof. unfold list_without. rewrite list_elem_of_filter. naive_solver. Qed.

Lemma list_without_elem x y l : y ∈ l → y ≠ x → y ∈ list_without x l.
Proof. unfold list_without. rewrite list_elem_of_filter. naive_solver. Qed.

Lemma list_without_NoDup x l : NoDup l → NoDup (list_without x l).
Proof. apply NoDup_filter. Qed.

Lemma insert_before_split pos x l1 l2 :
  pos ∉ l1 → insert_before pos x (l1 ++ pos :: l2) = l1 ++ x :: pos :: l2.
Proof.
  induction l1 as [|y l1 IH]; simpl; intros Hpos.
  - by rewrite decide_True.
  - apply not_elem_of_cons in Hpos as [Hy Hpos].
    rewrite decide_False by done. by rewrite IH.
Qed.

Lemma insert_before_end pos x l : pos ∉ l → insert_before pos x l = l ++ [x].
Proof.
  induction l as [|y l IH]; simpl; intros Hpos; [done|].
  apply not_elem_of_cons in Hpos as [Hy Hpos].
  rewrite decide_False by done. by rewrite IH.
Qed.

(** A position of the list is an element or the sentinel; it cuts the
    sequence in two. *)
Lemma position_split s l pos :
  NoDup (s :: l) → pos ∈ l ++ [s] →
  ∃ l1 l2, l = l1 ++ l2 ∧ pos = hd s l2 ∧ pos ∉ l1.
Proof.
  intros Hnd Hpos. destruct (decide (pos ∈ l)) as [Hin|Hnin].
  - apply list_elem_of_split_l in Hin as (l1 & l2 & -> & Hl1).
    by exists l1, (pos :: l2).
  - exists l, []. rewrite app_nil_r. split_and!; [done| |done].
    set_solver.
Qed.

Lemma insert_before_position s pos x l1 l2 :
  NoDup (s :: l1 ++ l2) → pos = hd s l2 → pos ∉ l1 →
  insert_before pos x (l1 ++ l2) = l1 ++ x :: l2.
Proof.
  intros Hnd -> Hpos. destruct l2 as [|y l2]; simpl in *.
  - rewrite app_nil_r. apply insert_before_end. done.
  - by apply insert_before_split.
Qed.

Lemma NoDup_remove_mid l1 x l2 : NoDup (l1 ++ x :: l2) → NoDup (l1 ++ l2).
Proof.
  rewrite !NoDup_app, NoDup_cons. intros (? & Hd & _ & ?).
  split_and!; [done| |done]. intros y Hy Hy2. apply (Hd y Hy). by right.
Qed.

Lemma cons_snoc (a : addr) l : ∃ l0 p, a :: l = l0 ++ [p].
Proof.
  destruct l as [|b l] using rev_ind.
  - by exists [], a.
  - by exists (a :: l), b.
Qed.
End sequences.

(** ** Lists on a consistent store *)

Section lists.
Implicit Types (h : heap) (s x pos f p n : addr) (l : list addr).

(** Members of a list are linked; the predecessor of a member is the node
    before it in the sequence. *)
Lemma is_list_fields h s l1 x l2 :
  heap_ok h → is_list h s (l1 ++ x :: l2) →
  ∃ l0 p, s :: l1 = l0 ++ [p] ∧
    fprev h x = Some (Some p) ∧ fnext h x = Some (Some (hd s l2)).
Proof.
  intros Hok [Hnd Hc]. destruct (cons_snoc s l1) as (l0 & p & E).
  exists l0, p. split; [done|].
  rewrite app_comm_cons, E, <-app_assoc in Hc. simpl in Hc.
  split.
  - apply heap_ok_next_prev; [done|].
    by apply (chain_lookup _ l0 p (x :: l2) s) in Hc.
  - by apply (chain_lookup _ (l0 ++ [p]) x l2 s); rewrite <-app_assoc.
Qed.

Lemma is_list_sentinel_prev h s l :
  heap_ok h → is_list h s l →
  ∃ l0 p, s :: l = l0 ++ [p] ∧ fprev h s = Some (Some p).
Proof.
  intros Hok [Hnd Hc]. destruct (cons_snoc s l) as (l0 & p & E).
  exists l0, p. split; [done|]. rewrite E in Hc.
  apply heap_ok_next_prev; [done|].
  by apply (chain_lookup _ l0 p [] s) in Hc.
Qed.

(** An unlinked node is not a member of any list. *)
Lemma is_list_unlinked h s l x :
  heap_ok h → is_list h s l → fprev h x = Some None → x ∉ s :: l.
Proof.
  intros Hok Hl Hx Hin. apply elem_of_cons in Hin as [->|Hin].
  - destruct (is_list_sentinel_prev _ _ _ Hok Hl) as (? & ? & _ & ?). congruence.
  - apply list_elem_of_split in Hin as (l1 & l2 & ->).
    destruct (is_list_fields _ _ _ _ _ Hok Hl) as (? & ? & _ & ? & _). congruence.
Qed.

Lemma detached_alloc h x u : is_Some (detached h x !! u) ↔ is_Some (h !! u).
Proof.
  unfold detached. destruct (fprev h x) as [[?|]|], (fnext h x) as [[?|]|];
    try done. apply removed_alloc.
Qed.

Lemma detached_ok h x : heap_ok h → heap_ok (detached h x).
Proof.
  intros Hok. unfold detached.
  destruct (fprev h x) as [[?|]|] eqn:Hp, (fnext h x) as [[?|]|] eqn:Hn;
    try done. by apply removed_ok.
Qed.

Lemma detached_unlinked h x :
  heap_ok h → is_Some (h !! x) →
  fprev (detached h x) x = Some None ∧ fnext (detached h x) x = Some None.
Proof.
  intros Hok Ax. unfold detached.
  destruct (fprev h x) as [[p|]|] eqn:Hp, (fnext h x) as [[n|]|] eqn:Hn;
    ok_sat Hok; try congruence; try done; try alloc_contra Ax.
  assert (is_Some (h !! p)) by solve_alloc.
  assert (is_Some (h !! n)) by solve_alloc.
  rewrite removed_fprev, removed_fnext by done. by rewrite !decide_True.
Qed.

Lemma detached_is_list h x s l :
  heap_ok h → is_list h s l → x ≠ s →
  is_list (detached h x) s (list_without x l).
Proof.
  intros Hok Hl Hxs. destruct (decide (x ∈ l)) as [Hin|Hnin].
  - apply list_elem_of_split in Hin as (l1 & l2 & ->).
    destruct (is_list_fields _ _ _ _ _ Hok Hl) as (l0 & p & E & Hp & Hn).
    destruct Hl as [Hnd Hc].
    rewrite list_without_split by by apply NoDup_cons in Hnd as [_ ?].
    unfold detached. rewrite Hp, Hn. split.
    + rewrite app_comm_cons in *. by apply NoDup_remove_mid in Hnd.
    + rewrite app_comm_cons, E, <-app_assoc in *. simpl in *.
      by apply chain_removed.
  - rewrite list_without_notin by done. unfold detached.
    destruct (fprev h x) as [[p|]|] eqn:Hp, (fnext h x) as [[n|]|] eqn:Hn;
      try done.
    destruct Hl as [Hnd Hc]. split; [done|].
    apply chain_removed_frame; [done..|set_solver|done|done].
Qed.

(** [insert_after] on a consistent store. *)
Lemma insert_after_spec h f x t :
  heap_ok h → fnext h f = Some (Some t) → is_Some (h !! x) →
  insert_after h (Some f) (Some x)
    = Some (inserted (detached h x) f x t, Some x).
Proof.
  intros Hok Hf Ax. assert (is_Some (h !! t)) by (ok_sat Hok; solve_alloc).
  unfold detached.
  destruct (fprev h x) as [[p|]|] eqn:Hp, (fnext h x) as [[n|]|] eqn:Hn;
    ok_sat Hok; try congruence; try alloc_contra Ax.
  - apply insert_after_linked; try done; solve_alloc.
  - by apply insert_after_unlinked.
Qed.
End lists.

(** ** [insert] and [erase] *)

Section insert_erase.
Implicit Types (h : heap) (s x pos f p n : addr) (l : list addr).

Lemma insert_noop_same h x : insert h (Some x) x = Some (h, Some x).
Proof. unfold insert. by rewrite decide_True. Qed.

Lemma insert_noop_before h pos x :
  fprev h pos = Some (Some x) → insert h (Some pos) x = Some (h, Some x).
Proof.
  intros Hp. unfold insert. case_decide; [done|].
  simpl. rewrite Hp. simpl. by rewrite decide_True.
Qed.

Lemma insert_spec h pos x f :
  heap_ok h → fprev h pos = Some (Some f) → x ≠ pos → x ≠ f →
  is_Some (h !! x) →
  insert h (Some pos) x = Some (inserted (detached h x) f x pos, Some x).
Proof.
  intros Hok Hp Hxp Hxf Ax. unfold insert.
  rewrite decide_False by congruence. simpl. rewrite Hp. simpl.
  rewrite decide_False by congruence.
  rewrite (insert_after_spec h f x pos); [done|done| |done].
  by apply heap_ok_prev_next.
Qed.

Lemma detached_fprev_other h x pos f :
  heap_ok h → fprev h pos = Some (Some f) → x ≠ pos → x ≠ f →
  fprev (detached h x) pos = Some (Some f).
Proof.
  intros Hok Hp Hxp Hxf. unfold detached.
  destruct (fprev h x) as [[p|]|] eqn:Hpx, (fnext h x) as [[n|]|] eqn:Hnx;
    try done.
  rewrite removed_fprev by (ok_sat Hok; solve_alloc).
  rewrite decide_False by done. case_decide; [|done].
  subst. ok_sat Hok. congruence.
Qed.

Lemma insert_ok h pos x f :
  heap_ok h → fprev h pos = Some (Some f) → x ≠ pos → x ≠ f →
  is_Some (h !! x) →
  heap_ok (inserted (detached h x) f x pos).
Proof.
  intros Hok Hp Hxp Hxf Ax. apply inserted_ok.
  - by apply detached_ok.
  - apply heap_ok_prev_next; [by apply detached_ok|].
    by apply detached_fprev_other.
  - by apply detached_unlinked.
Qed.

(** Following [next] from a member of a chain stays in the chain or
    reaches its target. *)
Lemma chain_closed h l b u v :
  chain h l b → u ∈ l → fnext h u = Some (Some v) → v ∈ l ∨ v = b.
Proof.
  intros Hc Hu Hv. apply list_elem_of_split in Hu as (l1 & l2 & ->).
  apply chain_lookup in Hc. rewrite Hc in Hv. simplify_eq.
  destruct l2; simpl; [by right|left]. set_solver.
Qed.

(** Linking an unlinked node into a list, before the position [pos]. *)
Lemma inserted_is_list h s l1 l2 x f pos :
  heap_ok h → is_list h s (l1 ++ l2) → pos = hd s l2 →
  fprev h pos = Some (Some f) → fprev h x = Some None →
  is_list (inserted h f x pos) s (l1 ++ x :: l2).
Proof.
  intros Hok Hl -> Hp Hx.
  pose proof (is_list_unlinked _ _ _ _ Hok Hl Hx) as Hnin.
  destruct Hl as [Hnd Hc]. destruct (cons_snoc s l1) as (l0 & p & E).
  assert (s :: l1 ++ l2 = l0 ++ p :: l2) as E2
    by (by rewrite app_comm_cons, E, <-app_assoc).
  assert (s :: l1 ++ x :: l2 = l0 ++ p :: x :: l2) as E3
    by (by rewrite app_comm_cons, E, <-app_assoc).
  rewrite E2 in Hc, Hnin.
  assert (p = f) as ->.
  { apply (chain_lookup _ l0 p l2 s) in Hc. ok_sat Hok. congruence. }
  split.
  - rewrite E3. rewrite E2 in Hnd.
    apply NoDup_app in Hnd as (? & Hd & Hnd).
    apply NoDup_cons in Hnd as [? ?].
    apply NoDup_app. split_and!; [done| |].
    + intros y Hy Hy2. apply (Hd y Hy). set_solver.
    + rewrite !NoDup_cons. set_solver.
  - rewrite E3. apply chain_inserted; [solve_alloc|done| |done].
    by rewrite <-E2.
Qed.

(** A list that does not contain the position is affected only by the
    detachment of the element. *)
Lemma insert_frame h pos x f s l :
  heap_ok h → fprev h pos = Some (Some f) → x ≠ pos → x ≠ f →
  is_Some (h !! x) →
  is_list h s l → x ≠ s → pos ∉ s :: l →
  is_list (inserted (detached h x) f x pos) s (list_without x l).
Proof.
  intros Hok Hp Hxp Hxf Ax Hl Hxs Hpos.
  pose proof (detached_ok _ x Hok) as Hok1.
  pose proof (detached_is_list _ x _ _ Hok Hl Hxs) as [Hnd Hc].
  pose proof (detached_fprev_other _ _ _ _ Hok Hp Hxp Hxf) as Hp1.
  split; [done|]. apply chain_inserted_frame; [| | |  |done].
  - rewrite detached_alloc.
    pose proof (heap_ok_prev_next _ _ _ Hok Hp). solve_alloc.
  - by rewrite detached_alloc.
  - pose proof (list_without_not_elem x l). set_solver.
  - intros Hf. apply heap_ok_prev_next in Hp1; [|done].
    destruct (chain_closed _ _ _ _ _ Hc Hf Hp1) as [Hin| ->]; [|set_solver].
    apply Hpos. pose proof (list_without_subseteq x l). set_solver.
Qed.

(** [insert] at a position of a list: the element lands immediately
    before the position, wherever it was before. *)
Lemma insert_list_spec h s l pos x :
  heap_ok h → is_list h s l → pos ∈ l ++ [s] → x ≠ s → is_Some (h !! x) →
  ∃ h', insert h (Some pos) x = Some (h', Some x) ∧ heap_ok h' ∧
        is_list h' s (abs_insert pos x l) ∧
        (∀ u, is_Some (h' !! u) ↔ is_Some (h !! u)).
Proof.
  intros Hok Hl Hpos Hxs Ax. unfold abs_insert.
  case_decide as Hxp.
  { subst. exists h. by rewrite insert_noop_same. }
  assert (∃ f, fprev h pos = Some (Some f)) as [f Hp].
  { apply elem_of_app in Hpos as [Hin|Hin].
    - apply list_elem_of_split in Hin as (l1 & l2 & ->).
      destruct (is_list_fields _ _ _ _ _ Hok Hl) as (? & p & _ & ? & _).
      by exists p.
    - apply list_elem_of_singleton in Hin as ->.
      destruct (is_list_sentinel_prev _ _ _ Hok Hl) as (? & p & _ & ?).
      by exists p. }
  destruct (decide (x = f)) as [->|Hxf].
  - exists h. rewrite insert_noop_before by done. split_and!; [done..| |done].
    assert (insert_before pos f (list_without f l) = l) as ->; [|done].
    destruct (position_split s l pos) as (l1 & l2 & -> & E & Hn1);
      [by destruct Hl|done|].
    destruct (cons_snoc s l1) as (l0 & p & E1).
    assert (p = f) as ->.
    { destruct Hl as [_ Hc].
      rewrite app_comm_cons, E1, <-app_assoc in Hc. simpl in Hc.
      apply (chain_lookup _ l0 p l2 s) in Hc. ok_sat Hok. congruence. }
    destruct Hl as [Hnd _]. apply NoDup_cons in Hnd as [_ Hnd].
    destruct l0 as [|s0 l0]; simplify_eq/=.
    rewrite <-app_assoc in *. simpl in *.
    rewrite list_without_split by done.
    apply NoDup_remove_mid in Hnd.
    destruct l2 as [|y l2]; simpl in *.
    + rewrite app_nil_r in *. apply insert_before_end. set_solver.
    + apply insert_before_split. set_solver.
  - exists (inserted (detached h x) f x pos).
    rewrite (insert_spec h pos x f) by done. split_and!; [done|by apply insert_ok| |].
    + pose proof (detached_is_list _ x _ _ Hok Hl Hxs) as Hl1.
      destruct (position_split s (list_without x l) pos) as (k1 & k2 & E & Ep & Hk1).
      { by destruct Hl1. }
      { apply elem_of_app in Hpos as [Hin|Hin]; [|set_solver].
        apply elem_of_app. left. apply list_without_elem; [done|congruence]. }
      rewrite E in *.
      rewrite (insert_before_position s pos x k1 k2); [|by destruct Hl1|done..].
      apply inserted_is_list; [by apply detached_ok|done|done| |].
      * by apply detached_fprev_other.
      * by apply detached_unlinked.
    + intros u. by rewrite inserted_alloc, detached_alloc.
Qed.

(** [erase] of a member: the node is detached, not released, and the
    iterator to its successor is returned. *)
Lemma erase_list_spec h s l1 x l2 :
  heap_ok h → is_list h s (l1 ++ x :: l2) →
  ∃ h' l0 p, s :: l1 = l0 ++ [p] ∧
    erase h (Some x) = Some (h', Some (hd s l2)) ∧
    heap_ok h' ∧ is_list h' s (l1 ++ l2) ∧
    h' !! x = Some (Node None None) ∧
    fnext h' p = Some (Some (hd s l2)) ∧ fprev h' (hd s l2) = Some (Some p) ∧
    (∀ u, is_Some (h' !! u) ↔ is_Some (h !! u)).
Proof.
  intros Hok Hl.
  destruct (is_list_fields _ _ _ _ _ Hok Hl) as (l0 & p & E & Hp & Hn).
  pose proof (heap_ok_prev_next _ _ _ Hok Hp) as Hpx.
  pose proof (heap_ok_next_prev _ _ _ Hok Hn) as Hnx.
  assert (is_Some (h !! x)) as Ax by solve_alloc.
  assert (is_Some (h !! p)) as Ap by solve_alloc.
  assert (is_Some (h !! (hd s l2))) as An by solve_alloc.
  assert (x ≠ p ∧ x ≠ hd s l2 ∧ x ≠ s) as (Hxp & Hxn & Hxs).
  { destruct Hl as [Hnd _].
    rewrite app_comm_cons, E, <-app_assoc in Hnd. simpl in Hnd.
    apply NoDup_app in Hnd as (_ & Hd & Hnd).
    apply NoDup_cons in Hnd as [Hp' Hnd]. apply NoDup_cons in Hnd as [Hx' _].
    assert (s ∈ l0 ++ [p]) as Hs by (rewrite <-E; left).
    assert (x ≠ s) as Hxs.
    { intros ->. apply elem_of_app in Hs as [Hs|Hs]; [|set_solver].
      apply (Hd s Hs). set_solver. }
    split_and!; [set_solver| |done].
    destruct l2; simpl; [done|set_solver]. }
  exists (removed h x p (hd s l2)), l0, p. split_and!; [done| | | | | | |].
  - unfold erase. simpl. by apply remove_spec.
  - by apply removed_ok.
  - pose proof (detached_is_list _ x _ _ Hok Hl Hxs) as Hl1.
    unfold detached in Hl1. rewrite Hp, Hn in Hl1.
    rewrite list_without_split in Hl1; [done|].
    destruct Hl as [Hnd _]. by apply NoDup_cons in Hnd as [_ ?].
  - pose proof (removed_fprev h x p (hd s l2) x Ax An) as E1.
    pose proof (removed_fnext h x p (hd s l2) x Ax Ap) as E2.
    rewrite decide_True in E1, E2 by done. unfold fprev, fnext in E1, E2.
    destruct (removed h x p (hd s l2) !! x) as [[??]|]; by simplify_eq/=.
  - rewrite removed_fnext by done. rewrite decide_False by done.
    by rewrite decide_True.
  - rewrite removed_fprev by done. rewrite decide_False by done.
    by rewrite decide_True.
  - intros u. apply removed_alloc.
Qed.
End insert_erase.

Global Arguments erase : simpl never.
Global Arguments insert : simpl never.
Global Arguments remove : simpl never.

(** ** Sequences of list operations *)

Section op_sequences.
Implicit Types (h : heap) (s x : addr) (l : list addr).

Lemma dom_alloc_eq h h' :
  (∀ u, is_Some (h' !! u) ↔ is_Some (h !! u)) → dom h' = dom h.
Proof. intros H. apply set_eq. intros u. by rewrite !elem_of_dom. Qed.

Lemma abs_insert_end s x l :
  s ∉ l → abs_insert s x l = list_without x l ++ [x] ∨ x = s.
Proof.
  intros Hs. unfold abs_insert. case_decide; [by right|left].
  apply insert_before_end. pose proof (list_without_subseteq x l). set_solver.
Qed.

Lemma abs_insert_begin s x l :
  NoDup (s :: l) → x ≠ s → abs_insert (hd s l) x l = x :: list_without x l.
Proof.
  intros Hnd Hx. apply NoDup_cons in Hnd as [Hs Hnd].
  unfold abs_insert. destruct l as [|y l]; simpl.
  - by rewrite decide_False.
  - apply NoDup_cons in Hnd as [Hy Hnd]. case_decide as E.
    + subst. unfold list_without. rewrite filter_cons_False by naive_solver.
      fold (list_without y l). by rewrite list_without_notin.
    + unfold list_without. rewrite filter_cons_True by done. simpl.
      by rewrite decide_True.
Qed.

Lemma run_op_spec h s l o :
  heap_ok h → is_list h s l → op_pre s (dom h) l o →
  ∃ h', run_op s h o = Some h' ∧ heap_ok h' ∧
        is_list h' s (abs_op s l o) ∧ dom h' = dom h.
Proof.
  intros Hok Hl Hpre. destruct o as [x|x|pos x|it| |]; simpl in *.
  - destruct Hpre as [Hxs Hx%elem_of_dom].
    destruct (insert_list_spec h s l (hd s l) x) as (h' & E & ? & ? & ?);
      [done|done| |done|done|].
    { destruct l; simpl; set_solver. }
    exists h'. unfold push_front. rewrite (is_list_begin _ _ _ Hl). simpl.
    rewrite E. simpl. split_and!; [done|done| |by apply dom_alloc_eq].
    rewrite <-(abs_insert_begin s) by (done || by destruct Hl). done.
  - destruct Hpre as [Hxs Hx%elem_of_dom].
    destruct (insert_list_spec h s l s x) as (h' & E & ? & ? & ?);
      [done|done|set_solver|done|done|].
    exists h'. unfold push_back, list_end. rewrite E. simpl.
    split_and!; [done|done| |by apply dom_alloc_eq].
    destruct (abs_insert_end s x l) as [<-|]; [|done|done].
    destruct Hl as [Hnd _]. by apply NoDup_cons in Hnd as [? _].
  - destruct Hpre as (Hpos & Hxs & Hx%elem_of_dom).
    destruct (insert_list_spec h s l pos x) as (h' & E & ? & ? & ?);
      [done..|].
    exists h'. rewrite E. simpl. split_and!; [done..|by apply dom_alloc_eq].
  - apply list_elem_of_split in Hpre as (l1 & l2 & ->).
    destruct (erase_list_spec h s l1 it l2) as (h' & ? & ? & _ & E & ? & ? & _ & _ & _ & ?);
      [done..|].
    exists h'. rewrite E. simpl. split_and!; [done|done| |by apply dom_alloc_eq].
    rewrite list_without_split; [done|].
    destruct Hl as [Hnd _]. by apply NoDup_cons in Hnd as [_ ?].
  - destruct l as [|x l]; [done|].
    destruct (erase_list_spec h s [] x l) as (h' & ? & ? & _ & E & ? & ? & _ & _ & _ & ?);
      [done..|].
    exists h'. unfold pop_front. rewrite (is_list_begin _ _ _ Hl). simpl.
    rewrite E. simpl. split_and!; [done..|by apply dom_alloc_eq].
  - destruct l as [|x l _] using rev_ind; [done|].
    destruct (erase_list_spec h s l x []) as (h' & ? & ? & _ & E & ? & ? & _ & _ & _ & ?);
      [done..|].
    destruct (is_list_fields _ _ _ _ _ Hok Hl) as (l0 & p & E0 & Hp & Hn).
    exists h'. unfold pop_back, it_dec, list_end. simpl.
    pose proof (heap_ok_next_prev _ _ _ Hok Hn) as Hs. simpl in Hs.
    rewrite Hs. simpl. rewrite E. simpl.
    rewrite removelast_last. rewrite app_nil_r in *.
    split_and!; [done..|by apply dom_alloc_eq].
Qed.

Lemma run_ops_spec h s l os :
  heap_ok h → is_list h s l → ops_pre s (dom h) l os →
  ∃ h', run_ops s h os = Some h' ∧ heap_ok h' ∧
        is_list h' s (abs_ops s l os) ∧ dom h' = dom h.
Proof.
  revert h l. induction os as [|o os IH]; intros h l Hok Hl Hpre.
  - by exists h.
  - destruct Hpre as [Hpre Hrest].
    destruct (run_op_spec h s l o) as (h1 & E1 & Hok1 & Hl1 & Hd1); [done..|].
    destruct (IH h1 (abs_op s l o)) as (h' & E & ? & ? & Hd); [done|done| |].
    { by rewrite Hd1. }
    exists h'. simpl. rewrite E1. simpl.
    split_and!; [done..|congruence].
Qed.
End op_sequences.

(** ** Emptying a list *)

Section emptying.
Implicit Types (h : heap) (s x : addr) (l : list addr).

Lemma empty_spec h s l :
  is_list h s l → empty h s = Some (bool_decide (l = [])).
Proof.
  intros Hl. unfold empty. rewrite (is_list_begin _ _ _ Hl). simpl.
  f_equal. unfold it_eq, list_end. destruct l as [|x l]; simpl.
  - by rewrite !bool_decide_true.
  - destruct Hl as [Hnd _]. apply NoDup_cons in Hnd as [Hs _].
    repeat case_bool_decide; simplify_eq; try done. set_solver.
Qed.

Lemma untie_all_spec h s l fuel :
  heap_ok h → is_list h s l → length l ≤ fuel →
  ∃ h', untie_all fuel h s = Some h' ∧ heap_ok h' ∧ is_list h' s [] ∧
        dom h' = dom h.
Proof.
  revert h fuel. induction l as [|x l IH]; intros h fuel Hok Hl Hlen.
  - exists h. split_and!; [|done..].
    destruct fuel; simpl; rewrite (empty_spec _ _ _ Hl); done.
  - destruct fuel as [|fuel]; simpl in Hlen; [lia|]. simpl.
    rewrite (empty_spec _ _ _ Hl). simpl.
    destruct (run_op_spec h s (x :: l) PopFront) as (h1 & E & Hok1 & Hl1 & Hd1);
      [done..|]. simpl in E, Hl1. rewrite E. simpl.
    destruct (IH h1 fuel) as (h' & E' & ? & ? & ?); [done|done|lia|].
    exists h'. split_and!; [done..|congruence].
Qed.
End emptying.

(** ** [splice] *)

Global Arguments rd_prev : simpl never.
Global Arguments rd_next : simpl never.

Section splicing.
Implicit Types (h : heap) (pos first second a b last : addr).

Lemma rd_prev_Some h x : rd_prev h (Some x) = fprev h x.
Proof. done. Qed.

Lemma splice_empty_range h position o it : splice h position o it it = Some h.
Proof. unfold splice, it_eq. by rewrite bool_decide_true. Qed.

Lemma splice_spec h o pos first second a b last :
  fprev h second = Some (Some last) → fprev h first = Some (Some a) →
  fprev h pos = Some (Some b) → first ≠ second →
  is_Some (h !! a) → is_Some (h !! b) → is_Some (h !! last) →
  splice h (Some pos) o (Some first) (Some second)
    = Some (spliced h pos first second a
              (if decide (pos = second) then a else b) last).
Proof.
  intros Hl Ha Hb Hne Aa Ab Al. unfold splice, it_eq, spliced.
  rewrite bool_decide_false by congruence.
  rewrite !rd_prev_Some, Hl. simpl. rewrite Ha. simpl.
  rewrite wr_next_alloc by done. simpl.
  rewrite rd_prev_Some. field_simpl. rewrite Ha. simpl.
  rewrite wr_prev_alloc by solve_alloc. simpl.
  rewrite rd_prev_Some. field_simpl. case_decide.
  - simpl. rewrite wr_next_alloc by solve_alloc. simpl.
    rewrite rd_prev_Some. field_simpl. rewrite decide_True by done. simpl.
    rewrite wr_prev_alloc by solve_alloc. simpl.
    rewrite wr_next_alloc by solve_alloc. simpl.
    rewrite wr_prev_alloc by solve_alloc. done.
  - rewrite Hb. simpl. rewrite wr_next_alloc by solve_alloc. simpl.
    rewrite rd_prev_Some. field_simpl. rewrite decide_False by done.
    rewrite Hb. simpl.
    rewrite wr_prev_alloc by solve_alloc. simpl.
    rewrite wr_next_alloc by solve_alloc. simpl.
    rewrite wr_prev_alloc by solve_alloc. done.
Qed.

Lemma spliced_fnext h pos first second a b last u :
  is_Some (h !! a) → is_Some (h !! b) → is_Some (h !! last) →
  fnext (spliced h pos first second a b last) u =
    if decide (u = last) then Some (Some pos)
    else if decide (u = b) then Some (Some first)
    else if decide (u = a) then Some (Some second) else fnext h u.
Proof. intros. unfold spliced. by field_simpl. Qed.

Lemma spliced_fprev h pos first second a b last u :
  is_Some (h !! pos) → is_Some (h !! first) → is_Some (h !! second) →
  fprev (spliced h pos first second a b last) u =
    if decide (u = pos) then Some (Some last)
    else if decide (u = first) then Some (Some b)
    else if decide (u = second) then Some (Some a) else fprev h u.
Proof. intros. unfold spliced. by field_simpl. Qed.

Lemma spliced_alloc h pos first second a b last u :
  is_Some (spliced h pos first second a b last !! u) ↔ is_Some (h !! u).
Proof. unfold spliced. by repeat (rewrite alloc_set_p || rewrite alloc_set_n). Qed.

(** Moving a range in front of a position other than its first node keeps
    every ring consistent. *)
Lemma spliced_ok h pos first second a b last :
  heap_ok h →
  fprev h second = Some (Some last) → fprev h first = Some (Some a) →
  fprev h pos = Some (Some b) → first ≠ second → pos ≠ first →
  heap_ok (spliced h pos first second a
             (if decide (pos = second) then a else b) last).
Proof.
  intros Hok Hl Ha Hb Hne Hpf. ok_sat Hok.
  assert (is_Some (h !! a)) by solve_alloc.
  assert (is_Some (h !! b)) by solve_alloc.
  assert (is_Some (h !! last)) by solve_alloc.
  assert (is_Some (h !! pos)) by solve_alloc.
  assert (is_Some (h !! first)) by solve_alloc.
  assert (is_Some (h !! second)) by solve_alloc.
  apply heap_ok_intro.
  - intros x y. rewrite spliced_fnext, spliced_fprev by (done || by case_decide).
    repeat case_decide; subst; intros E; simplify_eq; ok_sat Hok; congruence.
  - intros x y. rewrite spliced_fnext, spliced_fprev by (done || by case_decide).
    repeat case_decide; subst; intros E; simplify_eq; ok_sat Hok; congruence.
  - intros x. rewrite spliced_fnext, spliced_fprev by (done || by case_decide).
    repeat case_decide; subst; split; intros E; simplify_eq; ok_sat Hok;
      congruence.
Qed.
End splicing.

(** Rearranging the segments of a chain *)

Section segments.
Implicit Types (h : heap) (x a c u t : addr) (X Y S : list addr).

Lemma hd_app_cons (d a : addr) S Y : hd d (S ++ a :: Y) = hd a S.
Proof. by destruct S. Qed.

(** Three [next] references are redirected so that the adjacent segments
    [S1 ++ [a]] and [S2 ++ [c]] trade places. *)
Lemma chain_swap h h' X x S1 a S2 c Y t :
  NoDup (X ++ x :: S1 ++ a :: S2 ++ c :: Y) →
  chain h (X ++ x :: S1 ++ a :: S2 ++ c :: Y) t →
  fnext h' x = Some (Some (hd c S2)) →
  fnext h' c = Some (Some (hd a S1)) →
  fnext h' a = Some (Some (hd t Y)) →
  (∀ u, u ≠ x → u ≠ a → u ≠ c → fnext h' u = fnext h u) →
  chain h' (X ++ x :: S2 ++ c :: S1 ++ a :: Y) t.
Proof.
  intros Hnd Hc Hx Hc' Ha Hfr.
  apply NoDup_app in Hnd as (_ & HdX & Hnd). apply NoDup_cons in Hnd as [Hx1 Hnd].
  apply NoDup_app in Hnd as (_ & Hd1 & Hnd). apply NoDup_cons in Hnd as [Ha1 Hnd].
  apply NoDup_app in Hnd as (_ & Hd2 & Hnd). apply NoDup_cons in Hnd as [Hc1 _].
  apply chain_app in Hc as [HX [_ Hc]].
  apply chain_app in Hc as [H1 [_ Hc]].
  apply chain_app in Hc as [H2 [_ HY]]. simpl in *.
  apply chain_app; simpl. split.
  { eapply chain_frame; [|done]. intros u Hu. apply Hfr; set_solver. }
  split; [by rewrite hd_app_cons|].
  apply chain_app; simpl. split.
  { eapply chain_frame; [|done]. intros u Hu. apply Hfr; set_solver. }
  split; [by rewrite hd_app_cons|].
  apply chain_app; simpl. split.
  { eapply chain_frame; [|done]. intros u Hu. apply Hfr; set_solver. }
  split; [done|].
  eapply chain_frame; [|done]. intros u Hu. apply Hfr; set_solver.
Qed.

(** Three [next] references are redirected so that the segment
    [S ++ [c]] leaves one chain and enters another after [x]. *)
Lemma chain_transfer h h' X x Y t1 U u S c V t2 :
  NoDup (X ++ x :: Y) → NoDup (U ++ u :: S ++ c :: V) →
  (∀ z, z ∈ X ++ x :: Y → z ∉ U ++ u :: S ++ c :: V) →
  chain h (X ++ x :: Y) t1 → chain h (U ++ u :: S ++ c :: V) t2 →
  fnext h' x = Some (Some (hd c S)) →
  fnext h' c = Some (Some (hd t1 Y)) →
  fnext h' u = Some (Some (hd t2 V)) →
  (∀ z, z ≠ x → z ≠ u → z ≠ c → fnext h' z = fnext h z) →
  chain h' (X ++ x :: S ++ c :: Y) t1 ∧ chain h' (U ++ u :: V) t2.
Proof.
  intros Hnd1 Hnd2 Hdisj Hc1 Hc2 Hx Hc Hu Hfr.
  apply NoDup_app in Hnd1 as (_ & HdX & Hnd1). apply NoDup_cons in Hnd1 as [Hx1 _].
  apply NoDup_app in Hnd2 as (_ & HdU & Hnd2). apply NoDup_cons in Hnd2 as [Hu1 Hnd2].
  apply NoDup_app in Hnd2 as (_ & HdS & Hnd2). apply NoDup_cons in Hnd2 as [Hc3 _].
  apply chain_app in Hc1 as [HX [_ HY]].
  apply chain_app in Hc2 as [HU [_ Hc2]].
  apply chain_app in Hc2 as [HS [_ HV]]. simpl in *.
  assert (∀ z, z ∈ X → z ∉ U ++ u :: S ++ c :: V) as D1
    by (intros z Hz; apply Hdisj; set_solver).
  assert (∀ z, z ∈ Y → z ∉ U ++ u :: S ++ c :: V) as D2
    by (intros z Hz; apply Hdisj; set_solver).
  assert (x ∉ U ++ u :: S ++ c :: V) as D3 by (apply Hdisj; set_solver).
  split.
  - apply chain_app; simpl. split.
    { eapply chain_frame; [|done]. intros z Hz. specialize (D1 z Hz).
      apply Hfr; set_solver. }
    split; [by rewrite hd_app_cons|].
    apply chain_app; simpl. split.
    { eapply chain_frame; [|done]. intros z Hz. apply Hfr; set_solver. }
    split; [done|].
    eapply chain_frame; [|done]. intros z Hz. specialize (D2 z Hz).
    apply Hfr; set_solver.
  - apply chain_app; simpl. split.
    { eapply chain_frame; [|done]. intros z Hz. apply Hfr; set_solver. }
    split; [done|].
    eapply chain_frame; [|done]. intros z Hz. apply Hfr; set_solver.
Qed.
End segments.

(** ** [splice] on lists *)

Section splice_lists.
Implicit Types (h : heap) (s x a b c : addr) (l P Q R : list addr).

Lemma nonempty_snoc l : l ≠ [] → ∃ l0 c, l = l0 ++ [c].
Proof. destruct l as [|c l _] using rev_ind; [done|]. by exists l, c. Qed.

Lemma hd_elem (d : addr) l : hd d l ∈ l ∨ (l = [] ∧ hd d l = d).
Proof. destruct l; simpl; [by right|left; by left]. Qed.

(** A range of one list moved in front of a position of another list. *)
Lemma splice_between_lists h o s1 P Q s2 A R B :
  heap_ok h → is_list h s1 (P ++ Q) → is_list h s2 (A ++ R ++ B) → R ≠ [] →
  (∀ z, z ∈ s1 :: P ++ Q → z ∉ s2 :: A ++ R ++ B) →
  ∃ h', splice h (Some (hd s1 Q)) o (Some (hd s2 R)) (Some (hd s2 B)) = Some h' ∧
        heap_ok h' ∧ is_list h' s1 (P ++ R ++ Q) ∧ is_list h' s2 (A ++ B).
Proof.
  intros Hok [Hnd1 Hc1] [Hnd2 Hc2] HR Hdisj.
  destruct (cons_snoc s1 P) as (P0 & b & EP).
  destruct (cons_snoc s2 A) as (A0 & a & EA).
  destruct (nonempty_snoc R HR) as (R0 & c & ->).
  assert (s1 :: P ++ Q = P0 ++ b :: Q) as E1
    by (by rewrite app_comm_cons, EP, <-app_assoc).
  assert (s2 :: A ++ (R0 ++ [c]) ++ B = A0 ++ a :: R0 ++ c :: B) as E2
    by (by rewrite app_comm_cons, EA, <-!app_assoc).
  assert (s1 :: P ++ (R0 ++ [c]) ++ Q = P0 ++ b :: R0 ++ c :: Q) as E3
    by (by rewrite app_comm_cons, EP, <-!app_assoc).
  assert (s2 :: A ++ B = A0 ++ a :: B) as E4
    by (by rewrite app_comm_cons, EA, <-app_assoc).
  unfold is_list. rewrite E3, E4. rewrite E1 in Hnd1, Hc1, Hdisj.
  rewrite E2 in Hnd2, Hc2, Hdisj.
  assert (hd s2 (R0 ++ [c]) = hd c R0) as -> by apply hd_app_cons.
  pose proof (chain_lookup _ _ _ _ _ Hc1) as Hb.
  pose proof (chain_lookup _ _ _ _ _ Hc2) as Ha. rewrite hd_app_cons in Ha.
  pose proof (chain_lookup h (A0 ++ a :: R0) c B s2) as Hl.
  rewrite <-app_assoc in Hl. specialize (Hl Hc2).
  pose proof (heap_ok_next_prev _ _ _ Hok Hb) as Hpb.
  pose proof (heap_ok_next_prev _ _ _ Hok Ha) as Hpa.
  pose proof (heap_ok_next_prev _ _ _ Hok Hl) as Hpl.
  assert (s1 ∈ P0 ++ b :: Q) as Hs1 by (rewrite <-E1; left).
  assert (s2 ∈ A0 ++ a :: R0 ++ c :: B) as Hs2 by (rewrite <-E2; left).
  assert (hd s1 Q ∈ P0 ++ b :: Q) as Hpos.
  { destruct (hd_elem s1 Q) as [Hin|[_ ->]]; [|done]. clear -Hin. set_solver. }
  assert (hd s2 B ∈ A0 ++ a :: R0 ++ c :: B) as Hsec.
  { destruct (hd_elem s2 B) as [Hin|[_ ->]]; [|done]. clear -Hin. set_solver. }
  assert (hd c R0 ∈ R0 ++ [c]) as Hfst.
  { destruct (hd_elem c R0) as [Hin|[_ ->]]; [clear -Hin|clear]; set_solver. }
  assert (b ∈ P0 ++ b :: Q) as Hbin by (clear; set_solver).
  assert (a ∈ A0 ++ a :: R0 ++ c :: B) as Hain by (clear; set_solver).
  assert (c ∈ A0 ++ a :: R0 ++ c :: B) as Hcin by (clear; set_solver).
  assert (hd c R0 ∈ A0 ++ a :: R0 ++ c :: B) as Hfst2
    by (clear -Hfst; set_solver).
  assert (a ≠ c) as Hac.
  { apply NoDup_app in Hnd2 as (_ & _ & Hnd2). apply NoDup_cons in Hnd2 as [Hn _].
    clear -Hn. set_solver. }
  assert (hd c R0 ≠ hd s2 B) as Hfs.
  { intros E. rewrite <-E in Hl.
    pose proof (heap_ok_next_prev _ _ _ Hok Ha).
    pose proof (heap_ok_next_prev _ _ _ Hok Hl). congruence. }
  assert (hd s1 Q ≠ hd s2 B) as Hps by (intros E; apply (Hdisj _ Hpos); by rewrite E).
  assert (hd s1 Q ≠ hd c R0) as Hpf by (intros E; apply (Hdisj _ Hpos); by rewrite E).
  assert (b ≠ c) as Hbc by (intros ->; by apply (Hdisj c)).
  assert (b ≠ a) as Hba by (intros ->; by apply (Hdisj a)).
  assert (is_Some (h !! a)) as Aa by solve_alloc.
  assert (is_Some (h !! b)) as Ab by solve_alloc.
  assert (is_Some (h !! c)) as Ac by solve_alloc.
  eexists. rewrite (splice_spec h o _ _ _ a b c) by done.
  rewrite decide_False by done. split; [done|]. split.
  { pose proof (spliced_ok h _ _ _ a b c Hok Hpl Hpa Hpb Hfs Hpf) as H'.
    by rewrite decide_False in H' by done. }
  destruct (chain_transfer h (spliced h (hd s1 Q) (hd c R0) (hd s2 B) a b c)
              P0 b Q s1 A0 a R0 c B s2) as [C1 C2];
    [exact Hnd1|exact Hnd2|exact Hdisj|exact Hc1|exact Hc2| | | | |].
  - rewrite spliced_fnext by done. rewrite decide_False by done.
    by rewrite decide_True.
  - rewrite spliced_fnext by done. by rewrite decide_True.
  - rewrite spliced_fnext by done. rewrite !decide_False by done.
    by rewrite decide_True.
  - intros z ???. rewrite spliced_fnext by done. by rewrite !decide_False.
  - split_and!; [|exact C1| |exact C2].
    + assert (P0 ++ b :: R0 ++ c :: Q ≡ₚ (P0 ++ b :: Q) ++ (R0 ++ [c])) as ->
        by solve_Permutation.
      apply NoDup_app. split_and!; [exact Hnd1| |].
      * intros z Hz Hz'. apply (Hdisj z Hz). clear -Hz'. set_solver.
      * eapply sublist_NoDup; [exact Hnd2|].
        apply sublist_inserts_l. apply sublist_cons.
        rewrite (cons_middle c R0 B), app_assoc. by apply sublist_inserts_r.
    + eapply sublist_NoDup; [exact Hnd2|].
      apply sublist_app; [done|]. apply sublist_skip.
      apply sublist_inserts_l. by apply sublist_cons.
Qed.

(** Two adjacent ranges of one list trade places: either the later range is
    moved in front of the earlier one, or the earlier range is moved in
    front of the position that follows the later one. *)
Lemma splice_same_list h o s X S1 S2 Y :
  heap_ok h → is_list h s (X ++ S1 ++ S2 ++ Y) → S1 ≠ [] → S2 ≠ [] →
  (∃ h', splice h (Some (hd s S1)) o (Some (hd s S2)) (Some (hd s Y)) = Some h' ∧
         heap_ok h' ∧ is_list h' s (X ++ S2 ++ S1 ++ Y)) ∧
  (∃ h', splice h (Some (hd s Y)) o (Some (hd s S1)) (Some (hd s S2)) = Some h' ∧
         heap_ok h' ∧ is_list h' s (X ++ S2 ++ S1 ++ Y)).
Proof.
  intros Hok [Hnd Hc] H1 H2.
  destruct (cons_snoc s X) as (X0 & x & EX).
  destruct (nonempty_snoc S1 H1) as (S1' & a & ->).
  destruct (nonempty_snoc S2 H2) as (S2' & c & ->).
  assert (s :: X ++ (S1' ++ [a]) ++ (S2' ++ [c]) ++ Y
          = X0 ++ x :: S1' ++ a :: S2' ++ c :: Y) as E1
    by (by rewrite app_comm_cons, EX, <-!app_assoc).
  assert (s :: X ++ (S2' ++ [c]) ++ (S1' ++ [a]) ++ Y
          = X0 ++ x :: S2' ++ c :: S1' ++ a :: Y) as E2
    by (by rewrite app_comm_cons, EX, <-!app_assoc).
  unfold is_list. rewrite E2. rewrite E1 in Hnd, Hc. clear E1 E2.
  assert (hd s (S1' ++ [a]) = hd a S1') as -> by apply hd_app_cons.
  assert (hd s (S2' ++ [c]) = hd c S2') as -> by apply hd_app_cons.
  pose proof (chain_lookup _ _ _ _ _ Hc) as Hx. rewrite hd_app_cons in Hx.
  pose proof (chain_lookup h (X0 ++ x :: S1') a (S2' ++ c :: Y) s) as Ha.
  rewrite <-app_assoc, hd_app_cons in Ha. specialize (Ha Hc).
  pose proof (chain_lookup h (X0 ++ x :: S1' ++ a :: S2') c Y s) as Hcn.
  rewrite <-app_assoc in Hcn. simpl in Hcn. rewrite <-app_assoc in Hcn.
  specialize (Hcn Hc).
  pose proof (heap_ok_next_prev _ _ _ Hok Hx) as Hpx.
  pose proof (heap_ok_next_prev _ _ _ Hok Ha) as Hpa.
  pose proof (heap_ok_next_prev _ _ _ Hok Hcn) as Hpc.
  assert (x ≠ a ∧ x ≠ c ∧ a ≠ c) as (Hxa & Hxc & Hac).
  { clear -Hnd. apply NoDup_app in Hnd as (_ & _ & Hnd).
    apply NoDup_cons in Hnd as [Hx Hnd].
    apply NoDup_app in Hnd as (_ & _ & Hnd). apply NoDup_cons in Hnd as [Ha _].
    set_solver. }
  assert (hd a S1' ≠ hd c S2') as N12 by (intros E; rewrite E in Hpx; congruence).
  assert (hd a S1' ≠ hd s Y) as N13 by (intros E; rewrite E in Hpx; congruence).
  assert (hd c S2' ≠ hd s Y) as N23 by (intros E; rewrite E in Hpa; congruence).
  assert (is_Some (h !! a)) as Aa by solve_alloc.
  assert (is_Some (h !! x)) as Ax by solve_alloc.
  assert (is_Some (h !! c)) as Ac by solve_alloc.
  assert (NoDup (X0 ++ x :: S2' ++ c :: S1' ++ a :: Y)) as Hnd'.
  { assert (X0 ++ x :: S2' ++ c :: S1' ++ a :: Y
            ≡ₚ X0 ++ x :: S1' ++ a :: S2' ++ c :: Y) as -> by solve_Permutation.
    done. }
  split.
  - eexists. rewrite (splice_spec h o _ _ _ a x c) by done.
    rewrite decide_False by done. split; [done|]. split.
    { pose proof (spliced_ok h _ _ _ a x c Hok Hpc Hpa Hpx N23 N12) as H'.
      by rewrite decide_False in H' by done. }
    split; [done|]. eapply (chain_swap h); [exact Hnd|exact Hc|..].
    + rewrite spliced_fnext by done. rewrite decide_False by done.
      by rewrite decide_True.
    + rewrite spliced_fnext by done. by rewrite decide_True.
    + rewrite spliced_fnext by done. rewrite !decide_False by done.
      by rewrite decide_True.
    + intros z ???. rewrite spliced_fnext by done. by rewrite !decide_False.
  - eexists. rewrite (splice_spec h o _ _ _ x c a) by done.
    rewrite decide_False by done. split; [done|]. split.
    { pose proof (spliced_ok h _ _ _ x c a Hok Hpa Hpx Hpc N12) as H'.
      rewrite decide_False in H' by done. apply H'. done. }
    split; [done|]. eapply (chain_swap h); [exact Hnd|exact Hc|..].
    + rewrite spliced_fnext by done. rewrite !decide_False by done.
      by rewrite decide_True.
    + rewrite spliced_fnext by done. rewrite decide_False by done.
      by rewrite decide_True.
    + rewrite spliced_fnext by done. by rewrite decide_True.
    + intros z ???. rewrite spliced_fnext by done. by rewrite !decide_False.
Qed.

(** Stores with the same fields at every address are equal. *)
Lemma heap_ext h h' :
  (∀ u, fnext h' u = fnext h u) → (∀ u, fprev h' u = fprev h u) → h' = h.
Proof.
  intros Hn Hp. apply map_eq. intros u. specialize (Hn u). specialize (Hp u).
  unfold fnext, fprev in *.
  destruct (h' !! u) as [[??]|], (h !! u) as [[??]|]; by simplify_eq/=.
Qed.

(** A range moved in front of the position that already follows it: the
    six assignments restore the references they overwrite. *)
Lemma splice_at_range_end h o second first a last :
  heap_ok h →
  fprev h second = Some (Some last) → fprev h first = Some (Some a) →
  first ≠ second →
  splice h (Some second) o (Some first) (Some second) = Some h.
Proof.
  intros Hok Hl Ha Hne. ok_sat Hok.
  assert (is_Some (h !! a)) by solve_alloc.
  assert (is_Some (h !! last)) by solve_alloc.
  assert (is_Some (h !! first)) by solve_alloc.
  assert (is_Some (h !! second)) by solve_alloc.
  rewrite (splice_spec h o second first second a last last) by done.
  rewrite decide_True by done. f_equal. apply heap_ext.
  - intros u. rewrite spliced_fnext by done.
    repeat case_decide; subst; congruence.
  - intros u. rewrite spliced_fprev by done.
    repeat case_decide; subst; congruence.
Qed.

(** Whatever the length of the range, a [splice] rewrites at most three
    [next] and three [prev] references. *)
Lemma splice_rewrites h o pos first second a b last :
  heap_ok h →
  fprev h second = Some (Some last) → fprev h first = Some (Some a) →
  fprev h pos = Some (Some b) → first ≠ second →
  ∃ h', splice h (Some pos) o (Some first) (Some second) = Some h' ∧
        (∀ u, u ∉ [a; b; last] → fnext h' u = fnext h u) ∧
        (∀ u, u ∉ [pos; first; second] → fprev h' u = fprev h u) ∧
        (∀ u, is_Some (h' !! u) ↔ is_Some (h !! u)).
Proof.
  intros Hok Hl Ha Hb Hne. ok_sat Hok.
  assert (is_Some (h !! a)) by solve_alloc.
  assert (is_Some (h !! b)) by solve_alloc.
  assert (is_Some (h !! last)) by solve_alloc.
  assert (is_Some (h !! pos)) by solve_alloc.
  assert (is_Some (h !! first)) by solve_alloc.
  assert (is_Some (h !! second)) by solve_alloc.
  eexists. rewrite (splice_spec h o pos first second a b last) by done.
  split; [done|]. split_and!.
  - intros u Hu. rewrite spliced_fnext by (done || by case_decide).
    rewrite !not_elem_of_cons in Hu. destruct Hu as (? & ? & ? & _).
    repeat case_decide; congruence.
  - intros u Hu. rewrite spliced_fprev by done.
    rewrite !not_elem_of_cons in Hu. destruct Hu as (? & ? & ? & _).
    repeat case_decide; congruence.
  - intros u. apply spliced_alloc.
Qed.
End splice_lists.

(** ** Re-inserting a linked element *)

Section reinsertion.
Implicit Types (h : heap) (s x pos f p n : addr) (l : list addr).

Lemma is_linked_true h x :
  heap_ok h → is_linked h x = Some true →
  ∃ p n, fprev h x = Some (Some p) ∧ fnext h x = Some (Some n).
Proof.
  intros Hok Hl. unfold is_linked in Hl.
  destruct (fprev h x) as [[p|]|] eqn:Hp; simplify_eq/=.
  exists p. assert (is_Some (h !! x)) as Ax by solve_alloc.
  destruct (fnext h x) as [[n|]|] eqn:Hn; [by eauto| |alloc_contra Ax].
  ok_sat Hok. congruence.
Qed.

Lemma detached_unlinked_id h x : fprev h x = Some None → detached h x = h.
Proof. intros Hx. unfold detached. by rewrite Hx. Qed.

Lemma insert_fails_unlinked_pos h pos x :
  x ≠ pos → fprev h pos = Some None → insert h (Some pos) x = None.
Proof.
  intros Hxp Hp. unfold insert. rewrite decide_False by congruence.
  rewrite rd_prev_Some, Hp. done.
Qed.

Lemma insert_fails_dangling_pos h pos x :
  x ≠ pos → fprev h pos = None → insert h (Some pos) x = None.
Proof.
  intros Hxp Hp. unfold insert. rewrite decide_False by congruence.
  by rewrite rd_prev_Some, Hp.
Qed.

(** [insert] of a linked element is [erase] followed by [insert]. *)
Lemma insert_as_erase_insert h pos x :
  heap_ok h → is_linked h x = Some true → x ≠ pos →
  insert h (Some pos) x = ('(h1, _) ← erase h (Some x); insert h1 (Some pos) x).
Proof.
  intros Hok Hl Hxp. destruct (is_linked_true _ _ Hok Hl) as (p & n & Hp & Hn).
  pose proof (heap_ok_prev_next _ _ _ Hok Hp) as Hpx.
  pose proof (heap_ok_next_prev _ _ _ Hok Hn) as Hnx.
  assert (is_Some (h !! x)) as Ax by solve_alloc.
  assert (is_Some (h !! p)) as Ap by solve_alloc.
  assert (is_Some (h !! n)) as An by solve_alloc.
  pose proof (removed_ok _ _ _ _ Hok Hp Hn) as Hok1.
  assert (fprev (removed h x p n) x = Some None) as Hx1
    by (rewrite removed_fprev by done; by rewrite decide_True).
  unfold erase. simpl. rewrite (remove_spec _ _ _ _ Hp Hn Ap An). simpl.
  destruct (fprev h pos) as [[f|]|] eqn:Hpos.
  - destruct (decide (x = f)) as [<-|Hxf].
    + rewrite insert_noop_before by done.
      assert (n = pos) as -> by (ok_sat Hok; congruence).
      assert (x ≠ p) as Hxp' by (intros <-; congruence).
      rewrite (insert_spec _ pos x p); [|done| |done|done|].
      * rewrite detached_unlinked_id by done. do 2 f_equal. symmetry.
        assert (is_Some (removed h x p pos !! x)) by by apply removed_alloc.
        assert (is_Some (removed h x p pos !! p)) by by apply removed_alloc.
        assert (is_Some (removed h x p pos !! pos)) by by apply removed_alloc.
        apply heap_ext; intros u.
        -- rewrite inserted_fnext, removed_fnext by done.
           repeat case_decide; subst; congruence.
        -- rewrite inserted_fprev, removed_fprev by done.
           repeat case_decide; subst; congruence.
      * rewrite removed_fprev by done. rewrite decide_False by done.
        by rewrite decide_True.
      * by apply removed_alloc.
    + rewrite (insert_spec _ pos x f) by done.
      assert (detached h x = removed h x p n) as Hd
        by (unfold detached; by rewrite Hp, Hn).
      rewrite (insert_spec _ pos x f); [|done| |done|done|].
      * rewrite (detached_unlinked_id (removed h x p n)) by done. by rewrite Hd.
      * rewrite <-Hd. by apply detached_fprev_other.
      * by apply removed_alloc.
  - rewrite !insert_fails_unlinked_pos; [done|done| |done|done].
    rewrite removed_fprev by done. rewrite decide_False by done.
    case_decide; [subst; congruence|done].
  - rewrite !insert_fails_dangling_pos; [done|done| |done|done].
    destruct (fprev (removed h x p n) pos) eqn:E; [|done].
    apply fprev_alloc, removed_alloc, fprev_is_Some in E as [? ?]. congruence.
Qed.

(** [insert] of an element at a position other than itself: the element
    ends immediately before the position, and every other list only loses
    the element. *)
Lemma insert_moves h s l pos x :
  heap_ok h → is_list h s l → pos ∈ l ++ [s] → x ≠ s → x ≠ pos →
  is_Some (h !! x) →
  ∃ h' k1 k2, insert h (Some pos) x = Some (h', Some x) ∧
    list_without x l = k1 ++ k2 ∧ pos = hd s k2 ∧ (pos ∉ k1) ∧
    heap_ok h' ∧ is_list h' s (k1 ++ x :: k2) ∧
    ∀ s' l', is_list h s' l' → x ≠ s' → pos ∉ s' :: l' →
             is_list h' s' (list_without x l').
Proof.
  intros Hok Hl Hpos Hxs Hxp Ax.
  pose proof (detached_is_list _ x _ _ Hok Hl Hxs) as Hl1.
  destruct (position_split s (list_without x l) pos) as (k1 & k2 & E & Ep & Hk1).
  { by destruct Hl1. }
  { apply elem_of_app in Hpos as [Hin|Hin]; [|clear -Hin; set_solver].
    apply elem_of_app. left. apply list_without_elem; [done|congruence]. }
  destruct (insert_list_spec h s l pos x) as (h' & Hins & Hok' & Hl' & _); [done..|].
  unfold abs_insert in Hl'. rewrite decide_False in Hl' by done.
  rewrite E, (insert_before_position s pos x k1 k2) in Hl';
    [|by rewrite <-E; destruct Hl1|done..].
  exists h', k1, k2. split_and!; [done..|].
  intros s' l' Hl2 Hxs' Hpos'.
  assert (∃ f, fprev h pos = Some (Some f)) as [f Hp].
  { apply elem_of_app in Hpos as [Hin|Hin].
    - apply list_elem_of_split in Hin as (l1 & l2 & ->).
      destruct (is_list_fields _ _ _ _ _ Hok Hl) as (? & p & _ & ? & _).
      by exists p.
    - apply list_elem_of_singleton in Hin as ->.
      destruct (is_list_sentinel_prev _ _ _ Hok Hl) as (? & p & _ & ?).
      by exists p. }
  destruct (decide (x = f)) as [->|Hxf].
  - rewrite insert_noop_before in Hins by done.
    assert (h' = h) as -> by congruence.
    rewrite list_without_notin; [done|]. intros Hin.
    destruct Hl2 as [_ Hc2]. apply heap_ok_prev_next in Hp; [|done].
    destruct (chain_closed h (s' :: l') s' f pos Hc2) as [?|E'];
      [by right|done|done|]. apply Hpos'. rewrite E'. by left.
  - rewrite (insert_spec h pos x f) in Hins by done.
    assert (h' = inserted (detached h x) f x pos) as -> by congruence.
    by apply insert_frame.
Qed.
End reinsertion.

(** ** Construction and destruction of nodes *)

Section lifetime.
Implicit Types (h : heap) (s x a p n : addr) (l : list addr).

Lemma fnext_delete h x u :
  fnext (delete x h) u = if decide (u = x) then None else fnext h u.
Proof.
  unfold fnext. case_decide; [subst; by rewrite lookup_delete_eq|].
  by rewrite lookup_delete_ne.
Qed.

Lemma fprev_delete h x u :
  fprev (delete x h) u = if decide (u = x) then None else fprev h u.
Proof.
  unfold fprev. case_decide; [subst; by rewrite lookup_delete_eq|].
  by rewrite lookup_delete_ne.
Qed.

Lemma fnext_fresh h x u :
  fnext (<[x := Node None None]> h) u
    = if decide (u = x) then Some None else fnext h u.
Proof.
  unfold fnext. case_decide; [subst; by rewrite lookup_insert_eq|].
  by rewrite lookup_insert_ne.
Qed.

Lemma fprev_fresh h x u :
  fprev (<[x := Node None None]> h) u
    = if decide (u = x) then Some None else fprev h u.
Proof.
  unfold fprev. case_decide; [subst; by rewrite lookup_insert_eq|].
  by rewrite lookup_insert_ne.
Qed.

Lemma not_alloc_fields h x : h !! x = None → fnext h x = None ∧ fprev h x = None.
Proof. intros E. unfold fnext, fprev. by rewrite E. Qed.

(** Releasing an unlinked node. *)
Lemma delete_ok h x : heap_ok h → fprev h x = Some None → heap_ok (delete x h).
Proof.
  intros Hok Hx. ok_sat Hok. apply heap_ok_intro.
  - intros u v. rewrite fnext_delete, fprev_delete.
    repeat case_decide; subst; intros E; simplify_eq; ok_sat Hok; congruence.
  - intros u v. rewrite fnext_delete, fprev_delete.
    repeat case_decide; subst; intros E; simplify_eq; ok_sat Hok; congruence.
  - intros u. rewrite fnext_delete, fprev_delete.
    repeat case_decide; subst; split; intros E; simplify_eq; ok_sat Hok;
      congruence.
Qed.

(** Constructing an unlinked node in fresh storage. *)
Lemma fresh_ok h x : heap_ok h → h !! x = None → heap_ok (<[x := Node None None]> h).
Proof.
  intros Hok Hx. destruct (not_alloc_fields _ _ Hx) as [Hn Hp].
  apply heap_ok_intro.
  - intros u v. rewrite fnext_fresh, fprev_fresh.
    repeat case_decide; subst; intros E; simplify_eq; ok_sat Hok; congruence.
  - intros u v. rewrite fnext_fresh, fprev_fresh.
    repeat case_decide; subst; intros E; simplify_eq; ok_sat Hok; congruence.
  - intros u. rewrite fnext_fresh, fprev_fresh.
    repeat case_decide; subst; split; intros E; simplify_eq; ok_sat Hok;
      congruence.
Qed.

Lemma base_ctor_spec h x :
  h !! x = None → base_ctor h x = Some (<[x := Node None None]> h).
Proof. intros E. unfold base_ctor. by rewrite E. Qed.

Lemma base_ctor_inv h x h' :
  base_ctor h x = Some h' → h !! x = None ∧ h' = <[x := Node None None]> h.
Proof. unfold base_ctor. destruct (h !! x); naive_solver. Qed.

Lemma tied_fnext h x u :
  is_Some (h !! x) →
  fnext (tied h x) u = if decide (u = x) then Some (Some x) else fnext h u.
Proof. intros. unfold tied. by field_simpl. Qed.

Lemma tied_fprev h x u :
  is_Some (h !! x) →
  fprev (tied h x) u = if decide (u = x) then Some (Some x) else fprev h u.
Proof. intros. unfold tied. by field_simpl. Qed.

Lemma tied_alloc h x u : is_Some (tied h x !! u) ↔ is_Some (h !! u).
Proof. unfold tied. by rewrite alloc_set_p, alloc_set_n. Qed.

(** Tying a node that is unlinked, or already tied to itself. *)
Lemma tied_ok h x :
  heap_ok h → fprev h x = Some None ∨ fprev h x = Some (Some x) →
  heap_ok (tied h x).
Proof.
  intros Hok Hx. assert (is_Some (h !! x)) by (destruct Hx; solve_alloc).
  apply heap_ok_intro.
  - intros u v. rewrite tied_fnext, tied_fprev by done.
    destruct Hx; repeat case_decide; subst; intros E; simplify_eq; ok_sat Hok;
      congruence.
  - intros u v. rewrite tied_fnext, tied_fprev by done.
    destruct Hx; repeat case_decide; subst; intros E; simplify_eq; ok_sat Hok;
      congruence.
  - intros u. rewrite tied_fnext, tied_fprev by done.
    destruct Hx; repeat case_decide; subst; split; intros E; simplify_eq;
      ok_sat Hok; congruence.
Qed.

Lemma tie_tied h x : is_Some (h !! x) → tie h x = Some (tied h x).
Proof. apply tie_spec. Qed.

Lemma tie_inv h x h' : tie h x = Some h' → is_Some (h !! x) ∧ h' = tied h x.
Proof.
  intros E. destruct (h !! x) as [nd|] eqn:Hx.
  - rewrite tie_tied in E by by rewrite Hx. by simplify_eq.
  - unfold tie, wr_next in E. simpl in E. rewrite decide_False in E; [done|].
    rewrite Hx. by intros [? ?].
Qed.

(** No node of a consistent store references storage that holds no node. *)
Lemma heap_ok_no_dangling h x u nd :
  heap_ok h → h !! x = None → h !! u = Some nd →
  prev nd ≠ Some x ∧ next nd ≠ Some x.
Proof.
  intros Hok Hx Hu. destruct (not_alloc_fields _ _ Hx) as [Hn Hp].
  assert (fprev h u = Some (prev nd)) as Hpu by (unfold fprev; by rewrite Hu).
  assert (fnext h u = Some (next nd)) as Hnu by (unfold fnext; by rewrite Hu).
  split; intros E; rewrite E in *; ok_sat Hok; congruence.
Qed.

Lemma delete_set_p h x v : delete x (set_p x v h) = delete x h.
Proof. unfold set_p. rewrite delete_alter. by rewrite decide_True. Qed.

Lemma delete_set_n h x v : delete x (set_n x v h) = delete x h.
Proof. unfold set_n. rewrite delete_alter. by rewrite decide_True. Qed.

(** The destructor of a linked node detaches it and releases it. *)
Lemma base_dtor_linked h x p n :
  heap_ok h → fprev h x = Some (Some p) → fnext h x = Some (Some n) →
  base_dtor h x = Some (delete x (removed h x p n)).
Proof.
  intros Hok Hp Hn. ok_sat Hok.
  assert (is_Some (h !! p)) by solve_alloc.
  assert (is_Some (h !! n)) by solve_alloc.
  assert (is_Some (h !! x)) by solve_alloc.
  unfold base_dtor. rewrite (is_linked_spec _ _ _ Hp). simpl.
  rewrite (remove_spec _ _ _ _ Hp Hn) by done. simpl.
  rewrite unlink_spec by by apply removed_alloc. simpl.
  by rewrite delete_set_p, delete_set_n.
Qed.

(** The destructor of an unlinked node only releases it. *)
Lemma base_dtor_unlinked h x :
  fprev h x = Some None → base_dtor h x = Some (delete x h).
Proof.
  intros Hp. assert (is_Some (h !! x)) by solve_alloc.
  unfold base_dtor. rewrite (is_linked_spec _ _ _ Hp). simpl.
  rewrite unlink_spec by done. simpl.
  by rewrite delete_set_p, delete_set_n.
Qed.

Lemma chain_delete_frame h x l b : chain h l b → x ∉ l → chain (delete x h) l b.
Proof.
  intros Hc Hx. eapply chain_frame; [|done]. intros u Hu.
  rewrite fnext_delete. rewrite decide_False; [done|]. by intros ->.
Qed.

Lemma chain_fresh_frame h x l b :
  chain h l b → h !! x = None → chain (<[x := Node None None]> h) l b.
Proof.
  intros Hc Hx. eapply chain_frame; [|done]. intros u Hu.
  rewrite fnext_fresh. rewrite decide_False; [done|]. intros ->.
  apply (chain_alloc _ _ _ _ Hc) in Hu as [? ?]. congruence.
Qed.

(** Destroying a member of a list. *)
Lemma base_dtor_member h s l1 x l2 :
  heap_ok h → is_list h s (l1 ++ x :: l2) →
  ∃ h' l0 p, s :: l1 = l0 ++ [p] ∧ base_dtor h x = Some h' ∧ h' !! x = None ∧
    fnext h' p = Some (Some (hd s l2)) ∧ fprev h' (hd s l2) = Some (Some p) ∧
    heap_ok h' ∧ is_list h' s (l1 ++ l2) ∧ (x ∉ s :: l1 ++ l2).
Proof.
  intros Hok Hl.
  destruct (is_list_fields _ _ _ _ _ Hok Hl) as (_ & p' & _ & Hp & Hn).
  destruct (erase_list_spec h s l1 x l2)
    as (h1 & l0 & p & E & Her & Hok1 & Hl1 & Hx1 & Hpn & Hnp & _); [done..|].
  assert (h1 = removed h x p' (hd s l2)) as ->.
  { unfold erase in Her. simpl in Her. ok_sat Hok.
    rewrite (remove_spec _ _ _ _ Hp Hn) in Her by solve_alloc. congruence. }
  assert (x ∉ s :: l1 ++ l2) as Hxl.
  { destruct Hl as [Hnd _]. rewrite app_comm_cons in Hnd.
    apply NoDup_app in Hnd as (_ & Hd & Hnd). apply NoDup_cons in Hnd as [Hx _].
    rewrite app_comm_cons. intros Hin. apply elem_of_app in Hin as [Hin|Hin]; [|done].
    apply (Hd x Hin). by left. }
  assert (x ≠ p ∧ x ≠ hd s l2) as [Hxp Hxn].
  { assert (p ∈ s :: l1) as Hpin by (rewrite E; clear; set_solver).
    split; [intros <-; clear -Hxl Hpin; set_solver|].
    intros Ex. destruct (hd_elem s l2) as [Hh|[_ Hh]]; rewrite <-Ex in Hh;
      clear -Hxl Hh; set_solver. }
  exists (delete x (removed h x p' (hd s l2))), l0, p.
  rewrite (base_dtor_linked _ _ _ _ Hok Hp Hn).
  split_and!; [done|done|apply lookup_delete_eq| | | | |done].
  - rewrite fnext_delete. by rewrite decide_False.
  - rewrite fprev_delete. by rewrite decide_False.
  - apply delete_ok; [done|]. unfold fprev. by rewrite Hx1.
  - destruct Hl1 as [Hnd1 Hc1]. split; [done|]. by apply chain_delete_frame.
Qed.
End lifetime.

(** ** Moving a list *)

Section list_move.
Implicit Types (h : heap) (s x this other p n : addr) (l : list addr).

Lemma is_list_tail_chain h s l0 p :
  is_list h s (l0 ++ [p]) → chain h l0 p ∧ fnext h p = Some (Some s).
Proof.
  intros [_ Hc]. rewrite app_comm_cons in Hc. apply chain_app in Hc as [Hc Hp].
  simpl in Hc, Hp. destruct Hp as [Hp _]. by destruct Hc as [_ Hc].
Qed.

(** [move] into an unlinked sentinel: the members change owner, the source
    becomes empty.  For a non-empty source the steps are the detachment of
    the source sentinel, which leaves the members in a ring of their own,
    the linking of the destination sentinel after the last member, and the
    tying of the source sentinel. *)
Lemma move_spec h this other l :
  heap_ok h → is_list h other l → fprev h this = Some None →
  ∃ h', move h this other = Some h' ∧ heap_ok h' ∧
        is_list h' this l ∧ is_list h' other [] ∧
        (∀ u, is_Some (h' !! u) ↔ is_Some (h !! u)) ∧
        (l = [] → tie h this = Some h') ∧
        (l ≠ [] → ∃ h1 h2 last r1 r2,
           fprev h other = Some last ∧ remove h other = Some (h1, r1) ∧
           ring h1 l ∧ fprev h1 other = Some None ∧
           insert_after h1 last (Some this) = Some (h2, r2) ∧
           is_list h2 this l ∧ tie h2 other = Some h').
Proof.
  intros Hok Hl Hthis.
  pose proof (is_list_unlinked _ _ _ _ Hok Hl Hthis) as Hnin.
  assert (is_Some (h !! this)) as At by solve_alloc.
  assert (this ≠ other) as Hto by (intros ->; apply Hnin; by left).
  unfold move. rewrite (empty_spec _ _ _ Hl). simpl.
  destruct l as [|y l'] using rev_ind.
  - simpl. rewrite tie_tied by done. exists (tied h this).
    split_and!; [done|apply tied_ok; [done|by left]| | | |done|done].
    + split; [apply NoDup_singleton|]. simpl. split; [|done].
      rewrite tied_fnext by done. by rewrite decide_True.
    + destruct Hl as [Hnd [Hs _]]. split; [done|]. simpl. split; [|done].
      rewrite tied_fnext by done. by rewrite decide_False.
    + intros u. apply tied_alloc.
  - clear IHl'. rename l' into l0. rename y into p.
    rewrite bool_decide_false by (by destruct l0). simpl.
    destruct (is_list_sentinel_prev _ _ _ Hok Hl) as (l0' & p' & E & Hp).
    assert (p' = p ∧ l0' = other :: l0) as [-> ->].
    { rewrite app_comm_cons in E. by apply app_inj_tail in E as [? ?]. }
    clear E. pose proof (is_list_begin _ _ _ Hl) as Hn. unfold list_begin in Hn.
    set (y := hd other (l0 ++ [p])) in *.
    destruct (is_list_tail_chain _ _ _ _ Hl) as [Hc0 Hpn].
    pose proof (heap_ok_next_prev _ _ _ Hok Hn) as Hy.
    assert (is_Some (h !! p)) as Ap by solve_alloc.
    assert (is_Some (h !! y)) as Ay by solve_alloc.
    assert (is_Some (h !! other)) as Ao by solve_alloc.
    assert (p ∈ l0 ++ [p]) as Hpin by (clear; set_solver).
    assert (y ∈ l0 ++ [p]) as Hyin.
    { subst y. destruct (hd_elem other (l0 ++ [p])) as [?|[? _]]; [done|].
      by destruct l0. }
    destruct Hl as [Hnd Hc]. apply NoDup_cons in Hnd as [Hol Hnd].
    assert (this ∉ l0 ++ [p]) as Htl by (intros ?; apply Hnin; by right).
    assert (p ≠ other ∧ y ≠ other ∧ p ≠ this ∧ y ≠ this) as (Hpo & Hyo & Hpt & Hyt).
    { split_and!; intros E; rewrite E in *; done. }
    rewrite Hp. simpl. rewrite (remove_spec _ _ _ _ Hp Hn Ap Ay). simpl.
    set (h1 := removed h other p y).
    pose proof (removed_ok _ _ _ _ Hok Hp Hn) as Hok1. fold h1 in Hok1.
    assert (∀ u, is_Some (h1 !! u) ↔ is_Some (h !! u)) as Al1
      by (intros; apply removed_alloc).
    assert (fnext h1 p = Some (Some y)) as Hp1.
    { unfold h1. rewrite removed_fnext by done. rewrite decide_False by done.
      by rewrite decide_True. }
    assert (fprev h1 this = Some None) as Ht1.
    { unfold h1. rewrite removed_fprev by done. by rewrite !decide_False. }
    assert (fprev h1 other = Some None) as Ho1.
    { unfold h1. rewrite removed_fprev by done. by rewrite decide_True. }
    rewrite (insert_after_spec h1 p this y) by (done || by apply Al1).
    rewrite detached_unlinked_id by done. simpl.
    set (h2 := inserted h1 p this y).
    pose proof (inserted_ok _ _ _ _ Hok1 Hp1 Ht1) as Hok2. fold h2 in Hok2.
    assert (∀ u, is_Some (h2 !! u) ↔ is_Some (h !! u)) as Al2
      by (intros; unfold h2; by rewrite inserted_alloc).
    assert (fprev h2 other = Some None) as Ho2.
    { unfold h2. rewrite inserted_fprev by by apply Al1.
      rewrite !decide_False by done. done. }
    rewrite tie_tied by by apply Al2.
    assert (chain h1 l0 p) as Hc1.
    { eapply chain_frame; [|exact Hc0]. intros u Hu. unfold h1.
      rewrite removed_fnext by done.
      assert (u ∈ l0 ++ [p]) by (clear -Hu; set_solver).
      apply NoDup_app in Hnd as (_ & Hd & _). specialize (Hd u Hu).
      rewrite !decide_False; [done|clear -Hd; set_solver|by intros ->]. }
    assert (ring h1 (l0 ++ [p])) as Hring.
    { split; [done|]. apply chain_app. simpl. split_and!; [done| |done].
      fold y. by destruct l0. }
    assert (is_list h2 this (l0 ++ [p])) as Hl2.
    { split; [by apply NoDup_cons|]. simpl. split.
      - unfold h2. rewrite inserted_fnext by by apply Al1.
        rewrite decide_True by done. do 2 f_equal. subst y. by destruct l0.
      - apply chain_app. simpl. split_and!; [|  |done].
        + eapply chain_frame; [|exact Hc1]. intros u Hu. unfold h2.
          rewrite inserted_fnext by by apply Al1.
          apply NoDup_app in Hnd as (_ & Hd & _). specialize (Hd u Hu).
          rewrite !decide_False; [done|clear -Hd; set_solver|].
          intros ->. apply Htl. clear -Hu. set_solver.
        + unfold h2. rewrite inserted_fnext by by apply Al1.
          rewrite decide_False by done. by rewrite decide_True. }
    exists (tied h2 other).
    split_and!; [done|apply tied_ok; [done|by left]| | | |by destruct l0|].
    + destruct Hl2 as [Hnd2 Hcc]. split; [done|].
      eapply chain_frame; [|exact Hcc]. intros u Hu.
      rewrite tied_fnext by by apply Al2. rewrite decide_False; [done|].
      intros ->. apply elem_of_cons in Hu as [?|?]; done.
    + split; [apply NoDup_singleton|]. simpl. split; [|done].
      rewrite tied_fnext by by apply Al2. by rewrite decide_True.
    + intros u. rewrite tied_alloc. apply Al2.
    + intros _. exists h1, h2, (Some p), (Some y), (Some this).
      split_and!; try done.
      * rewrite (insert_after_spec h1 p this y) by (done || by apply Al1).
        by rewrite detached_unlinked_id.
      * apply tie_tied. by apply Al2.
Qed.

(** Following [next] inside a set that is closed under it. *)
Lemma chain_reach h l b (S : addr → Prop) :
  (∀ u v, S u → fnext h u = Some (Some v) → S v) →
  chain h l b → l ≠ [] → S (hd b l) → S b.
Proof.
  intros Hcl. induction l as [|a l IH]; [done|].
  intros [Ha Hc] _ Hs. simpl in Hs. pose proof (Hcl _ _ Hs Ha) as Hs'.
  destruct l as [|a' l]; [done|]. by apply IH.
Qed.

(** Two lists with different sentinels share no member. *)
Lemma lists_disjoint h s1 l1 s2 l2 x :
  is_list h s1 l1 → is_list h s2 l2 → s1 ≠ s2 → s1 ∉ l2 →
  x ∈ l1 → x ∉ l2.
Proof.
  intros [_ H1] [_ H2] Hs Hs1 Hx1 Hx2.
  apply list_elem_of_split in Hx1 as (a & c & ->).
  rewrite app_comm_cons in H1. apply chain_app in H1 as [_ H1].
  assert (s1 ∈ s2 :: l2) as Hin.
  { apply (chain_reach h (x :: c) s1 (λ u, u ∈ s2 :: l2)); [|done|done|by right].
    intros u v Hu Hv. destruct (chain_closed _ _ _ _ _ H2 Hu Hv) as [?| ->];
      [done|by left]. }
  apply elem_of_cons in Hin as [?|?]; done.
Qed.
End list_move.

(** ** Preservation of the store invariant by every operation *)

Section preservation.
Implicit Types (h : heap) (s x this other pos f p n t : addr) (l : list addr).

Lemma wr_next_inv h q v h' :
  wr_next h q v = Some h' → ∃ a, q = Some a ∧ is_Some (h !! a) ∧ h' = set_n a v h.
Proof.
  unfold wr_next. destruct q as [a|]; simpl; [|done].
  case_decide; [|done]. intros [= <-]. by exists a.
Qed.

Lemma wr_prev_inv h q v h' :
  wr_prev h q v = Some h' → ∃ a, q = Some a ∧ is_Some (h !! a) ∧ h' = set_p a v h.
Proof.
  unfold wr_prev. destruct q as [a|]; simpl; [|done].
  case_decide; [|done]. intros [= <-]. by exists a.
Qed.

Lemma linked_fields h x p :
  heap_ok h → fprev h x = Some (Some p) → ∃ n, fnext h x = Some (Some n).
Proof.
  intros Hok Hp. assert (is_Some (h !! x)) as Ax by solve_alloc.
  destruct (fnext h x) as [[n|]|] eqn:Hn; [by eauto| |alloc_contra Ax].
  ok_sat Hok. congruence.
Qed.

Lemma remove_inv h x h' r :
  heap_ok h → remove h x = Some (h', r) →
  ∃ p n, fprev h x = Some (Some p) ∧ fnext h x = Some (Some n) ∧
         h' = removed h x p n ∧ r = Some n ∧ heap_ok h'.
Proof.
  intros Hok E. pose proof E as E'. unfold remove in E.
  destruct (fnext h x) as [nx|] eqn:Hn; simpl in E; [|done].
  destruct (fprev h x) as [px|] eqn:Hp; simpl in E; [|done].
  destruct (wr_next h px nx) as [h1|] eqn:Hw; simpl in E; [|done].
  apply wr_next_inv in Hw as (p & -> & Ap & ->).
  destruct (linked_fields _ _ _ Hok Hp) as [n Hn']. rewrite Hn in Hn'.
  simplify_eq. pose proof (heap_ok_next_prev _ _ _ Hok Hn).
  rewrite (remove_spec _ _ _ _ Hp Hn) in E' by solve_alloc. simplify_eq.
  exists p, n. split_and!; try done. by apply removed_ok.
Qed.

Lemma erase_inv h it h' r :
  heap_ok h → erase h it = Some (h', r) → heap_ok h'.
Proof.
  intros Hok E. unfold erase in E. destruct it as [x|]; simpl in E; [|done].
  by destruct (remove_inv _ _ _ _ Hok E) as (? & ? & _ & _ & _ & _ & ?).
Qed.

Lemma is_linked_inv h x b : is_linked h x = Some b → is_Some (h !! x).
Proof.
  unfold is_linked. destruct (fprev h x) eqn:E; simpl; [|done].
  intros _. solve_alloc.
Qed.

(** Linking a node between two consecutive nodes other than itself. *)
Lemma insert_after_ok h f x t :
  heap_ok h → fnext h f = Some (Some t) → x ≠ f → x ≠ t → is_Some (h !! x) →
  heap_ok (inserted (detached h x) f x t).
Proof.
  intros Hok Hf Hxf Hxt Ax. apply inserted_ok.
  - by apply detached_ok.
  - apply heap_ok_prev_next; [by apply detached_ok|].
    apply detached_fprev_other; [done| |done|done].
    by apply heap_ok_next_prev.
  - by apply detached_unlinked.
Qed.

Lemma insert_after_inv h f x h' r :
  heap_ok h → insert_after h (Some f) (Some x) = Some (h', r) →
  ∃ t, fnext h f = Some (Some t) ∧ is_Some (h !! x) ∧
       h' = inserted (detached h x) f x t.
Proof.
  intros Hok E. pose proof E as E'. unfold insert_after in E.
  change (rd_next h (Some f)) with (fnext h f) in E.
  destruct (fnext h f) as [third|] eqn:Hf; simpl in E; [|done].
  destruct (is_linked h x) as [lk|] eqn:Hlk; simpl in E; [|done].
  apply is_linked_inv in Hlk.
  destruct third as [t|].
  - rewrite (insert_after_spec h f x t) in E' by done. simplify_eq. by exists t.
  - exfalso. clear E'.
    destruct (if lk then fst <$> remove h x else Some h); simpl in E; [|done].
    destruct (wr_next _ _ _); simpl in E; [|done].
    destruct (wr_prev _ _ _); simpl in E; [|done].
    destruct (wr_next _ _ _); simpl in E; [|done].
    done.
Qed.

Lemma insert_inv h (position : ptr) x h' r :
  heap_ok h → insert h position x = Some (h', r) → heap_ok h'.
Proof.
  intros Hok E. unfold insert in E. case_decide; [by simplify_eq|].
  destruct position as [pos|]; [|done]. rewrite !rd_prev_Some in E.
  destruct (fprev h pos) as [[f|]|] eqn:Hp; simpl in E; [| |done].
  - case_decide; [by simplify_eq|].
    destruct (insert_after h (Some f) (Some x)) as [[h1 r1]|] eqn:Hia;
      simpl in E; [|done]. simplify_eq.
    destruct (insert_after_inv _ _ _ _ _ Hok Hia) as (t & Ht & Ax & ->).
    apply insert_after_ok; [done|done|congruence| |done].
    ok_sat Hok. congruence.
  - done.
Qed.

Lemma rd_prev_inv h q v :
  rd_prev h q = Some v → ∃ a, q = Some a ∧ fprev h a = Some v.
Proof. destruct q as [a|]; [|done]. intros E. by exists a. Qed.

Lemma push_back_inv h s x h' : heap_ok h → push_back h s x = Some h' → heap_ok h'.
Proof.
  intros Hok E. unfold push_back in E.
  destruct (insert h (list_end s) x) as [[h1 r]|] eqn:Hi; simplify_eq/=.
  by eapply insert_inv.
Qed.

Lemma push_front_inv h s x h' : heap_ok h → push_front h s x = Some h' → heap_ok h'.
Proof.
  intros Hok E. unfold push_front in E.
  destruct (list_begin h s) as [b|]; simpl in E; [|done].
  destruct (insert h b x) as [[h1 r]|] eqn:Hi; simplify_eq/=.
  by eapply insert_inv.
Qed.

Lemma pop_back_inv h s h' : heap_ok h → pop_back h s = Some h' → heap_ok h'.
Proof.
  intros Hok E. unfold pop_back in E.
  destruct (it_dec h (list_end s)) as [b|]; simpl in E; [|done].
  destruct (erase h b) as [[h1 r]|] eqn:Hi; simplify_eq/=.
  by eapply erase_inv.
Qed.

Lemma pop_front_inv h s h' : heap_ok h → pop_front h s = Some h' → heap_ok h'.
Proof.
  intros Hok E. unfold pop_front in E.
  destruct (list_begin h s) as [b|]; simpl in E; [|done].
  destruct (erase h b) as [[h1 r]|] eqn:Hi; simplify_eq/=.
  by eapply erase_inv.
Qed.

(** A successful [untie_all] ends with the sentinel tied to itself. *)
Lemma untie_all_inv fuel h s h' :
  heap_ok h → untie_all fuel h s = Some h' →
  heap_ok h' ∧ fnext h' s = Some (Some s).
Proof.
  revert h. induction fuel as [|fuel IH]; intros h Hok E; simpl in E.
  - unfold empty, list_begin, it_eq, list_end in E.
    destruct (fnext h s) as [b|] eqn:Hb; simpl in E; [|done].
    case_bool_decide; simplify_eq/=. done.
  - unfold empty, list_begin, it_eq, list_end in E.
    destruct (fnext h s) as [b|] eqn:Hb; simpl in E; [|done].
    case_bool_decide; simplify_eq/=; [done|].
    destruct (pop_front h s) as [h1|] eqn:Hpop; simpl in E; [|done].
    apply (IH h1); [by eapply pop_front_inv|done].
Qed.

Lemma splice_inv h (position : ptr) o (first second : ptr) h' :
  heap_ok h → splice h position o first second = Some h' →
  position ≠ first ∨ first = second → heap_ok h'.
Proof.
  intros Hok E Hpre. pose proof E as E'. unfold splice, it_eq in E.
  case_bool_decide as Hfs; [by simplify_eq|].
  destruct Hpre as [Hpf|?]; [|done].
  destruct (rd_prev h second) as [lastp|] eqn:H1; simpl in E; [|done].
  destruct (rd_prev h first) as [fp|] eqn:H2; simpl in E; [|done].
  destruct (wr_next h fp second) as [h1|] eqn:H3; simpl in E; [|done].
  destruct (rd_prev h1 first) as [fp'|] eqn:H4; simpl in E; [|done].
  destruct (wr_prev h1 second fp') as [h2|] eqn:H5; simpl in E; [|done].
  destruct (rd_prev h2 position) as [pp|] eqn:H6; simpl in E; [|done].
  destruct (wr_next h2 pp first) as [h3|] eqn:H7; simpl in E; [|done].
  destruct (rd_prev h3 position) as [pp'|] eqn:H8; simpl in E; [|done].
  destruct (wr_prev h3 first pp') as [h4|] eqn:H9; simpl in E; [|done].
  destruct (wr_next h4 lastp position) as [h5|] eqn:H10; simpl in E; [|done].
  apply wr_next_inv in H3 as (a & -> & Aa & ->).
  apply wr_prev_inv in H5 as (s2 & -> & As2 & ->).
  apply wr_next_inv in H7 as (b' & -> & Ab & ->).
  apply wr_prev_inv in H9 as (f1 & -> & Af & ->).
  apply wr_next_inv in H10 as (lst & -> & Al & ->).
  apply wr_prev_inv in E as (ps & -> & Aps & ->).
  rewrite rd_prev_Some in H1, H2, H6. clear H4 H8.
  rewrite fprev_set_p, fprev_set_n in H6 by solve_alloc.
  assert (f1 ≠ s2) as Hne by congruence.
  assert (ps ≠ f1) as Hpf' by congruence.
  assert (∃ b, fprev h ps = Some (Some b)) as [b Hb].
  { case_decide; [subst; by exists lst|by exists b']. }
  ok_sat Hok.
  rewrite (splice_spec h o ps f1 s2 a b lst) in E' by (done || solve_alloc).
  injection E' as <-. by apply spliced_ok.
Qed.

(** Whatever the position, a [splice] that returns keeps [prev] and [next]
    null together. *)
Lemma splice_null_sync h (position : ptr) o (first second : ptr) h' :
  heap_ok h → splice h position o first second = Some h' → null_sync h'.
Proof.
  intros Hok E. pose proof E as E'. unfold splice, it_eq in E.
  case_bool_decide as Hfs; [simplify_eq; by apply heap_ok_null_sync|].
  destruct (rd_prev h second) as [lastp|] eqn:H1; simpl in E; [|done].
  destruct (rd_prev h first) as [fp|] eqn:H2; simpl in E; [|done].
  destruct (wr_next h fp second) as [h1|] eqn:H3; simpl in E; [|done].
  destruct (rd_prev h1 first) as [fp'|] eqn:H4; simpl in E; [|done].
  destruct (wr_prev h1 second fp') as [h2|] eqn:H5; simpl in E; [|done].
  destruct (rd_prev h2 position) as [pp|] eqn:H6; simpl in E; [|done].
  destruct (wr_next h2 pp first) as [h3|] eqn:H7; simpl in E; [|done].
  destruct (rd_prev h3 position) as [pp'|] eqn:H8; simpl in E; [|done].
  destruct (wr_prev h3 first pp') as [h4|] eqn:H9; simpl in E; [|done].
  destruct (wr_next h4 lastp position) as [h5|] eqn:H10; simpl in E; [|done].
  apply wr_next_inv in H3 as (a & -> & Aa & ->).
  apply wr_prev_inv in H5 as (s2 & -> & As2 & ->).
  apply wr_next_inv in H7 as (b' & -> & Ab & ->).
  apply wr_prev_inv in H9 as (f1 & -> & Af & ->).
  apply wr_next_inv in H10 as (lst & -> & Al & ->).
  apply wr_prev_inv in E as (ps & -> & Aps & ->).
  rewrite rd_prev_Some in H1, H2, H6. clear H4 H8.
  rewrite fprev_set_p, fprev_set_n in H6 by solve_alloc.
  assert (f1 ≠ s2) as Hne by congruence.
  assert (∃ b, fprev h ps = Some (Some b)) as [b Hb].
  { case_decide; [subst; by exists lst|by exists b']. }
  ok_sat Hok.
  assert (is_Some (h !! a)) by solve_alloc.
  assert (is_Some (h !! b)) by solve_alloc.
  assert (is_Some (h !! lst)) by solve_alloc.
  assert (is_Some (h !! ps)) by solve_alloc.
  assert (is_Some (h !! f1)) by solve_alloc.
  assert (is_Some (h !! s2)) by solve_alloc.
  rewrite (splice_spec h o ps f1 s2 a b lst) in E' by done.
  injection E' as <-. apply null_sync_intro. intros u.
  rewrite spliced_fnext, spliced_fprev by (done || by case_decide).
  repeat case_decide; subst; split; intros E; simplify_eq; ok_sat Hok;
    congruence.
Qed.

Lemma unlinked_ok h x :
  heap_ok h → fprev h x = Some None → heap_ok (set_p x None (set_n x None h)).
Proof.
  intros Hok Hx. assert (is_Some (h !! x)) by solve_alloc. ok_sat Hok.
  assert (set_p x None (set_n x None h) = h) as ->; [|done].
  apply heap_ext; intros u; field_simpl; case_decide; subst; congruence.
Qed.

Lemma base_dtor_inv h x h' : heap_ok h → base_dtor h x = Some h' → heap_ok h'.
Proof.
  intros Hok E. destruct (fprev h x) as [[p|]|] eqn:Hp.
  - destruct (linked_fields _ _ _ Hok Hp) as [n Hn].
    rewrite (base_dtor_linked _ _ _ _ Hok Hp Hn) in E. simplify_eq.
    ok_sat Hok. apply delete_ok; [by apply removed_ok|].
    rewrite removed_fprev by solve_alloc. by rewrite decide_True.
  - rewrite (base_dtor_unlinked _ _ Hp) in E. simplify_eq. by apply delete_ok.
  - unfold base_dtor, is_linked in E. by rewrite Hp in E.
Qed.

Lemma base_ctor_ok h x h' : heap_ok h → base_ctor h x = Some h' → heap_ok h'.
Proof. intros Hok E. apply base_ctor_inv in E as [? ->]. by apply fresh_ok. Qed.

Lemma tie_ok_inv h x h' :
  heap_ok h → tie h x = Some h' →
  fprev h x = Some None ∨ fprev h x = Some (Some x) → heap_ok h'.
Proof. intros Hok E Hx. apply tie_inv in E as [_ ->]. by apply tied_ok. Qed.

Lemma list_ctor_inv h s h' : heap_ok h → list_ctor h s = Some h' → heap_ok h'.
Proof.
  intros Hok E. unfold list_ctor in E.
  destruct (base_ctor h s) as [h0|] eqn:H0; simpl in E; [|done].
  pose proof (base_ctor_ok _ _ _ Hok H0). apply base_ctor_inv in H0 as [? ->].
  eapply tie_ok_inv; [done|done|]. left. rewrite fprev_fresh. by rewrite decide_True.
Qed.

Lemma detached_keeps_unlinked h x u :
  heap_ok h → fprev h u = Some None → fprev (detached h x) u = Some None.
Proof.
  intros Hok Hu. unfold detached.
  destruct (fprev h x) as [[p|]|] eqn:Hp, (fnext h x) as [[n|]|] eqn:Hn; try done.
  ok_sat Hok. rewrite removed_fprev by solve_alloc.
  repeat case_decide; subst; congruence.
Qed.

Lemma move_inv h this other h' :
  heap_ok h → move h this other = Some h' →
  fprev h this = Some None ∨ fprev h this = Some (Some this) → heap_ok h'.
Proof.
  intros Hok E Hthis. unfold move, empty, list_begin, it_eq, list_end in E.
  destruct (fnext h other) as [b|] eqn:Hn; simpl in E; [|done].
  case_bool_decide as Hb; simpl in E; [by eapply tie_ok_inv|].
  destruct (fprev h other) as [lastp|] eqn:Hp; simpl in E; [|done].
  destruct (remove h other) as [[h1 r1]|] eqn:Hr; simpl in E; [|done].
  destruct (remove_inv _ _ _ _ Hok Hr) as (p & n & Hp' & Hn' & -> & _ & Hok1).
  rewrite Hp in Hp'. rewrite Hn in Hn'. simplify_eq.
  assert (n ≠ other) as Hno by congruence.
  assert (p ≠ other) as Hpo by (intros ->; ok_sat Hok; congruence).
  assert (is_Some (h !! other)) as Ao by solve_alloc.
  pose proof (heap_ok_prev_next _ _ _ Hok Hp) as Hpn.
  pose proof (heap_ok_next_prev _ _ _ Hok Hn) as Hnp.
  assert (is_Some (h !! p)) as Ap by solve_alloc.
  assert (is_Some (h !! n)) as An by solve_alloc.
  destruct (insert_after (removed h other p n) (Some p) (Some this))
    as [[h2 r2]|] eqn:Hia; simpl in E; [|done].
  destruct (insert_after_inv _ _ _ _ _ Hok1 Hia) as (t & Ht & At & ->).
  rewrite removed_fnext in Ht by done.
  rewrite decide_False, decide_True in Ht by done. simplify_eq.
  assert (this ≠ other ∧ this ≠ p ∧ this ≠ t) as (Hto & Htp & Htt).
  { destruct Hthis as [Hu|Hs]; ok_sat Hok; split_and!; intros ->; congruence. }
  eapply tie_ok_inv; [|exact E|].
  - by apply insert_after_ok; [|rewrite removed_fnext by done;
      rewrite decide_False, decide_True by done|..].
  - left. rewrite inserted_fprev; [|by rewrite detached_alloc|].
    + rewrite !decide_False by done. apply detached_keeps_unlinked; [done|].
      rewrite removed_fprev by done. by rewrite decide_True.
    + rewrite detached_alloc. by apply removed_alloc.
Qed.

Lemma list_move_ctor_inv h this other h' :
  heap_ok h → list_move_ctor h this other = Some h' → heap_ok h'.
Proof.
  intros Hok E. unfold list_move_ctor in E.
  destruct (base_ctor h this) as [h0|] eqn:H0; simpl in E; [|done].
  pose proof (base_ctor_ok _ _ _ Hok H0). apply base_ctor_inv in H0 as [? ->].
  eapply move_inv; [done|done|]. left. rewrite fprev_fresh. by rewrite decide_True.
Qed.

Lemma list_move_assign_inv fuel h this other h' :
  heap_ok h → list_move_assign fuel h this other = Some h' → heap_ok h'.
Proof.
  intros Hok E. unfold list_move_assign in E.
  destruct (untie_all fuel h this) as [h1|] eqn:H1; simpl in E; [|done].
  destruct (untie_all_inv _ _ _ _ Hok H1) as [Hok1 Hs].
  eapply move_inv; [done|done|]. right. by apply heap_ok_next_prev.
Qed.

Lemma list_dtor_inv fuel h this h' :
  heap_ok h → list_dtor fuel h this = Some h' → heap_ok h'.
Proof.
  intros Hok E. unfold list_dtor in E.
  destruct (untie_all fuel h this) as [h1|] eqn:H1; simpl in E; [|done].
  destruct (untie_all_inv _ _ _ _ Hok H1) as [Hok1 _].
  by eapply base_dtor_inv.
Qed.
End preservation.

(** ** Moving a node *)

Section node_move.
Implicit Types (h : heap) (s this other p n : addr) (l : list addr).

Lemma base_move_ctor_linked h this other p n :
  heap_ok h → h !! this = None →
  fprev h other = Some (Some p) → fnext h other = Some (Some n) → p ≠ other →
  base_move_ctor h this other
    = Some (moved (<[this := Node None None]> h) this other p n).
Proof.
  intros Hok Ht Hp Hn Hpo. destruct (not_alloc_fields _ _ Ht) as [Htn Htp].
  assert (n ≠ other) as Hno by (intros ->; ok_sat Hok; congruence).
  assert (other ≠ this) as Hot by (intros ->; congruence).
  ok_sat Hok.
  assert (p ≠ this) as Hpt by (intros ->; congruence).
  assert (n ≠ this) as Hnt by (intros ->; congruence).
  unfold base_move_ctor, moved. rewrite (base_ctor_spec _ _ Ht). simpl.
  set (h0 := <[this := Node None None]> h).
  assert (∀ u, is_Some (h !! u) → is_Some (h0 !! u)) as Al.
  { intros u Hu. unfold h0. rewrite lookup_insert. by case_decide. }
  assert (is_Some (h0 !! this)) as At
    by (unfold h0; rewrite lookup_insert_eq; eauto).
  assert (is_Some (h0 !! p)) as Ap by (apply Al; solve_alloc).
  assert (is_Some (h0 !! n)) as An by (apply Al; solve_alloc).
  assert (is_Some (h0 !! other)) as Ao by (apply Al; solve_alloc).
  assert (fprev h0 other = Some (Some p)) as Hp0
    by (unfold h0; rewrite fprev_fresh; by rewrite decide_False).
  assert (fnext h0 other = Some (Some n)) as Hn0
    by (unfold h0; rewrite fnext_fresh; by rewrite decide_False).
  rewrite Hp0. simpl.
  rewrite wr_next_alloc by done. simpl.
  field_simpl. rewrite decide_False by done. rewrite Hn0. simpl.
  rewrite wr_prev_alloc by solve_alloc. simpl.
  field_simpl. rewrite decide_False by done. rewrite Hn0. simpl.
  rewrite wr_next_alloc by solve_alloc. simpl.
  field_simpl. rewrite decide_False by done. rewrite Hp0. simpl.
  rewrite wr_prev_alloc by solve_alloc. simpl.
  rewrite unlink_spec by solve_alloc. done.
Qed.

Lemma base_move_ctor_unlinked h this other :
  h !! this = None →
  fprev (<[this := Node None None]> h) other = Some None →
  fnext (<[this := Node None None]> h) other = Some None →
  base_move_ctor h this other = Some (<[this := Node None None]> h).
Proof.
  intros Ht Hp0 Hn0.
  unfold base_move_ctor. rewrite (base_ctor_spec _ _ Ht). simpl.
  set (h0 := <[this := Node None None]> h) in *.
  assert (is_Some (h0 !! this)) as At
    by (unfold h0; rewrite lookup_insert_eq; eauto).
  assert (is_Some (h0 !! other)) as Ao by solve_alloc.
  assert (fprev h0 this = Some None) as Htp0
    by (unfold h0; rewrite fprev_fresh; by rewrite decide_True).
  assert (fnext h0 this = Some None) as Htn0
    by (unfold h0; rewrite fnext_fresh; by rewrite decide_True).
  rewrite Hp0. simpl. rewrite Hn0. simpl. rewrite Hn0. simpl.
  rewrite wr_next_alloc by done. simpl.
  field_simpl. rewrite Hp0. simpl.
  rewrite wr_prev_alloc by solve_alloc. simpl.
  rewrite unlink_spec by solve_alloc. f_equal.
  apply heap_ext; intros u; field_simpl; repeat case_decide; subst; congruence.
Qed.

(** Moving from a node that is tied to itself: the destination keeps a
    reference to the source, which is left unlinked. *)
Lemma base_move_ctor_tied h this other :
  h !! this = None → fprev h other = Some (Some other) →
  fnext h other = Some (Some other) →
  base_move_ctor h this other
    = Some (set_p other None (set_n other None
              (set_p this (Some other) (set_n this (Some this)
                (set_p this (Some this) (set_n other (Some this)
                  (<[this := Node None None]> h))))))).
Proof.
  intros Ht Hp Hn. destruct (not_alloc_fields _ _ Ht) as [Htn Htp].
  assert (other ≠ this) as Hot by (intros ->; congruence).
  unfold base_move_ctor. rewrite (base_ctor_spec _ _ Ht). simpl.
  set (h0 := <[this := Node None None]> h).
  assert (is_Some (h0 !! this)) as At
    by (unfold h0; rewrite lookup_insert_eq; eauto).
  assert (is_Some (h0 !! other)) as Ao.
  { unfold h0. rewrite lookup_insert. case_decide; [done|]. solve_alloc. }
  assert (fprev h0 other = Some (Some other)) as Hp0
    by (unfold h0; rewrite fprev_fresh; by rewrite decide_False).
  rewrite Hp0. simpl. rewrite wr_next_alloc by done. simpl.
  field_simpl. rewrite decide_True by done. simpl.
  rewrite wr_prev_alloc by solve_alloc. simpl.
  field_simpl. rewrite decide_True by done. simpl.
  rewrite wr_next_alloc by solve_alloc. simpl.
  field_simpl. rewrite decide_False by done. rewrite Hp0. simpl.
  rewrite wr_prev_alloc by solve_alloc. simpl.
  rewrite unlink_spec by solve_alloc. done.
Qed.

Lemma moved_fnext h0 this other p n u :
  is_Some (h0 !! other) → is_Some (h0 !! this) → is_Some (h0 !! p) →
  fnext (moved h0 this other p n) u =
    if decide (u = other) then Some None
    else if decide (u = this) then Some (Some n)
    else if decide (u = p) then Some (Some this) else fnext h0 u.
Proof. intros. unfold moved. by field_simpl. Qed.

Lemma moved_fprev h0 this other p n u :
  is_Some (h0 !! other) → is_Some (h0 !! this) → is_Some (h0 !! n) →
  fprev (moved h0 this other p n) u =
    if decide (u = other) then Some None
    else if decide (u = this) then Some (Some p)
    else if decide (u = n) then Some (Some this) else fprev h0 u.
Proof. intros. unfold moved. by field_simpl. Qed.

(** The destination takes the ring position of a source that is linked
    between other nodes. *)
Lemma moved_ok h0 this other p n :
  heap_ok h0 → fprev h0 this = Some None →
  fprev h0 other = Some (Some p) → fnext h0 other = Some (Some n) →
  p ≠ other → heap_ok (moved h0 this other p n).
Proof.
  intros Hok Ht Hp Hn Hpo. ok_sat Hok.
  assert (is_Some (h0 !! other)) by solve_alloc.
  assert (is_Some (h0 !! this)) by solve_alloc.
  assert (is_Some (h0 !! p)) by solve_alloc.
  assert (is_Some (h0 !! n)) by solve_alloc.
  apply heap_ok_intro.
  - intros u v. rewrite moved_fnext, moved_fprev by done.
    repeat case_decide; subst; intros E; simplify_eq; ok_sat Hok; congruence.
  - intros u v. rewrite moved_fnext, moved_fprev by done.
    repeat case_decide; subst; intros E; simplify_eq; ok_sat Hok; congruence.
  - intros u. rewrite moved_fnext, moved_fprev by done.
    repeat case_decide; subst; split; intros E; simplify_eq; ok_sat Hok;
      congruence.
Qed.

(** Move-constructing from a member of a list: the new node is a member
    at the same place, the source is unlinked. *)
Lemma base_move_ctor_member h s l1 other l2 this :
  heap_ok h → is_list h s (l1 ++ other :: l2) → h !! this = None →
  ∃ h' l0 p, s :: l1 = l0 ++ [p] ∧
    base_move_ctor h this other = Some h' ∧ heap_ok h' ∧
    is_list h' s (l1 ++ this :: l2) ∧
    h' !! other = Some (Node None None) ∧
    fnext h' p = Some (Some this) ∧ fprev h' (hd s l2) = Some (Some this) ∧
    fprev h' this = Some (Some p) ∧ fnext h' this = Some (Some (hd s l2)).
Proof.
  intros Hok Hl Ht.
  destruct (is_list_fields _ _ _ _ _ Hok Hl) as (l0 & p & E & Hp & Hn).
  destruct (not_alloc_fields _ _ Ht) as [Htn Htp].
  set (n := hd s l2) in *.
  assert (s :: l1 ++ other :: l2 = l0 ++ p :: other :: l2) as E1
    by (by rewrite app_comm_cons, E, <-app_assoc).
  assert (s :: l1 ++ this :: l2 = l0 ++ p :: this :: l2) as E2
    by (by rewrite app_comm_cons, E, <-app_assoc).
  destruct Hl as [Hnd Hc]. rewrite E1 in Hnd, Hc.
  assert (this ∉ l0 ++ p :: other :: l2) as Htl.
  { intros Hin. apply (chain_alloc _ _ _ _ Hc) in Hin as [? ?]. congruence. }
  assert (p ≠ other) as Hpo.
  { apply NoDup_app in Hnd as (_ & _ & Hnd). apply NoDup_cons in Hnd as [Hn' _].
    clear -Hn'. set_solver. }
  pose proof (fresh_ok _ _ Hok Ht) as Hok0.
  set (h0 := <[this := Node None None]> h) in *.
  assert (fprev h0 this = Some None) as Ht0
    by (unfold h0; rewrite fprev_fresh; by rewrite decide_True).
  assert (other ≠ this ∧ p ≠ this) as [Hot Hpt]
    by (split; intros ->; apply Htl; clear; set_solver).
  assert (fprev h0 other = Some (Some p)) as Hp0
    by (unfold h0; rewrite fprev_fresh; by rewrite decide_False).
  assert (fnext h0 other = Some (Some n)) as Hn0
    by (unfold h0; rewrite fnext_fresh; by rewrite decide_False).
  pose proof (heap_ok_prev_next _ _ _ Hok0 Hp0) as Hpn0.
  pose proof (heap_ok_next_prev _ _ _ Hok0 Hn0) as Hnp0.
  assert (is_Some (h0 !! other)) as Ao by solve_alloc.
  assert (is_Some (h0 !! this)) as At by solve_alloc.
  assert (is_Some (h0 !! p)) as Ap by solve_alloc.
  assert (is_Some (h0 !! n)) as An by solve_alloc.
  assert (n ≠ other) as Hno by (intros E'; rewrite E' in *; congruence).
  assert (n ≠ this) as Hnt by (intros E'; rewrite E' in *; congruence).
  exists (moved h0 this other p n), l0, p.
  rewrite (base_move_ctor_linked _ _ _ _ _ Hok Ht Hp Hn Hpo).
  split_and!; [done|done|by apply moved_ok| | | | | |].
  - split.
    + rewrite E2. assert (l0 ++ p :: this :: l2 ≡ₚ this :: l0 ++ p :: l2) as ->
        by solve_Permutation.
      apply NoDup_cons. split.
      * intros Hin. apply Htl. clear -Hin. set_solver.
      * eapply sublist_NoDup; [exact Hnd|].
        apply sublist_app; [done|]. apply sublist_skip. by apply sublist_cons.
    + rewrite E2. apply chain_app in Hc as [Hc0 [Hpx [Hxn Hc2]]]. simpl in *.
      apply NoDup_app in Hnd as (_ & Hd0 & Hnd).
      apply NoDup_cons in Hnd as [Hp' Hnd]. apply NoDup_cons in Hnd as [Ho' _].
      apply chain_app. simpl. split_and!.
      * eapply chain_frame; [|exact Hc0]. intros u Hu.
        rewrite moved_fnext by done. unfold h0. rewrite fnext_fresh.
        specialize (Hd0 u Hu).
        rewrite !decide_False; [done|..]; intros ->;
          [apply Htl|apply Hd0|apply Htl|apply Hd0]; clear -Hu; set_solver.
      * rewrite moved_fnext by done. rewrite !decide_False by done.
        by rewrite decide_True.
      * rewrite moved_fnext by done. rewrite decide_False by done.
        by rewrite decide_True.
      * eapply chain_frame; [|exact Hc2]. intros u Hu.
        rewrite moved_fnext by done. unfold h0. rewrite fnext_fresh.
        rewrite !decide_False; [done|..]; intros ->;
          [apply Htl|apply Hp'|apply Htl|apply Ho']; clear -Hu; set_solver.
  - pose proof (moved_fnext h0 this other p n other Ao At Ap) as F1.
    pose proof (moved_fprev h0 this other p n other Ao At An) as F2.
    rewrite decide_True in F1, F2 by done. unfold fnext, fprev in F1, F2.
    destruct (moved h0 this other p n !! other) as [[??]|]; by simplify_eq/=.
  - rewrite moved_fnext by done. rewrite !decide_False by done.
    by rewrite decide_True.
  - rewrite moved_fprev by done. rewrite !decide_False by done.
    by rewrite decide_True.
  - rewrite moved_fprev by done. rewrite decide_False by done.
    by rewrite decide_True.
  - rewrite moved_fnext by done. rewrite decide_False by done.
    by rewrite decide_True.
Qed.
End node_move.

(** ** The public operations *)

Section public_operations.
Implicit Types (h : heap) (o : public_op).

Lemma base_move_ctor_inv h this other h' :
  heap_ok h → base_move_ctor h this other = Some h' →
  is_Some (h !! other) → fprev h other ≠ Some (Some other) → heap_ok h'.
Proof.
  intros Hok E Ao Hns.
  destruct (h !! this) as [nd|] eqn:Ht.
  { unfold base_move_ctor, base_ctor in E. by rewrite Ht in E. }
  destruct (not_alloc_fields _ _ Ht) as [Htn Htp].
  assert (other ≠ this) as Hot by (intros ->; rewrite Ht in Ao; by destruct Ao).
  pose proof (fresh_ok _ _ Hok Ht) as Hok0.
  destruct (fprev h other) as [[p|]|] eqn:Hp; [| |alloc_contra Ao].
  - destruct (linked_fields _ _ _ Hok Hp) as [n Hn].
    assert (p ≠ other) as Hpo by congruence.
    rewrite (base_move_ctor_linked _ _ _ _ _ Hok Ht Hp Hn Hpo) in E.
    injection E as <-. apply moved_ok; [done| | | |done].
    + rewrite fprev_fresh. by rewrite decide_True.
    + rewrite fprev_fresh. by rewrite decide_False.
    + rewrite fnext_fresh. by rewrite decide_False.
  - pose proof (proj2 (heap_ok_null _ _ Hok) Hp) as Hn.
    rewrite (base_move_ctor_unlinked _ _ _ Ht) in E.
    + by injection E as <-.
    + rewrite fprev_fresh. by rewrite decide_False.
    + rewrite fnext_fresh. by rewrite decide_False.
Qed.

(** Whatever the source, a node move that returns keeps [prev] and [next]
    null together. *)
Lemma base_move_ctor_null_sync h this other h' :
  heap_ok h → base_move_ctor h this other = Some h' → null_sync h'.
Proof.
  intros Hok E.
  destruct (h !! this) as [nd|] eqn:Ht.
  { unfold base_move_ctor, base_ctor in E. by rewrite Ht in E. }
  destruct (not_alloc_fields _ _ Ht) as [Htn Htp].
  pose proof (fresh_ok _ _ Hok Ht) as Hok0.
  destruct (decide (other = this)) as [->|Hot].
  { rewrite (base_move_ctor_unlinked _ _ _ Ht) in E.
    - injection E as <-. by apply heap_ok_null_sync.
    - rewrite fprev_fresh. by rewrite decide_True.
    - rewrite fnext_fresh. by rewrite decide_True. }
  destruct (h !! other) as [ndo|] eqn:Ho.
  2:{ unfold base_move_ctor in E. rewrite (base_ctor_spec _ _ Ht) in E.
      simpl in E. rewrite fprev_fresh, decide_False in E by done.
      destruct (not_alloc_fields _ _ Ho) as [_ Hpo]. by rewrite Hpo in E. }
  assert (is_Some (h !! other)) as Ao by by rewrite Ho.
  destruct (decide (fprev h other = Some (Some other))) as [Hs|Hns].
  - pose proof (heap_ok_prev_next _ _ _ Hok Hs) as Hn.
    rewrite (base_move_ctor_tied _ _ _ Ht Hs Hn) in E. injection E as <-.
    set (h0 := <[this := Node None None]> h).
    assert (is_Some (h0 !! this)) as At
      by (unfold h0; rewrite lookup_insert_eq; eauto).
    assert (is_Some (h0 !! other)) as Ao0.
    { unfold h0. rewrite lookup_insert. by case_decide. }
    apply null_sync_intro. intros u. field_simpl.
    unfold h0. rewrite fnext_fresh, fprev_fresh.
    repeat case_decide; subst; split; intros E; simplify_eq; ok_sat Hok;
      congruence.
  - apply heap_ok_null_sync. by apply (base_move_ctor_inv h this other h').
Qed.

Lemma run_public_ok fuel h o h' :
  heap_ok h → public_pre h o → run_public fuel h o = Some h' → heap_ok h'.
Proof.
  intros Hok Hpre E. destruct o; simpl in *.
  - by eapply base_ctor_ok.
  - destruct Hpre. by eapply base_move_ctor_inv.
  - by eapply base_dtor_inv.
  - by eapply list_ctor_inv.
  - by eapply list_move_ctor_inv.
  - by eapply list_move_assign_inv.
  - by eapply list_dtor_inv.
  - by eapply push_back_inv.
  - by eapply push_front_inv.
  - by eapply pop_back_inv.
  - by eapply pop_front_inv.
  - destruct (erase h element) as [[h1 r]|] eqn:He; simplify_eq/=.
    by eapply erase_inv.
  - destruct (insert h pos element) as [[h1 r]|] eqn:He; simplify_eq/=.
    by eapply insert_inv.
  - by eapply splice_inv.
Qed.

Lemma run_public_null_sync fuel h o h' :
  heap_ok h → run_public fuel h o = Some h' → null_sync h'.
Proof.
  intros Hok E. destruct (decide (public_pre h o)) as [Hpre|Hnpre].
  { apply heap_ok_null_sync. by apply (run_public_ok fuel h o h'). }
  destruct o; simpl in *; try done.
  - by apply (base_move_ctor_null_sync h this other h').
  - by apply (splice_null_sync h position other first second h').
Qed.

Lemma heap_ok_empty : heap_ok ∅.
Proof. apply map_Forall_empty. Qed.

Lemma reachable_ok h : reachable h → heap_ok h.
Proof.
  induction 1 as [|fuel h o h' _ IH Hpre E]; [apply heap_ok_empty|].
  by eapply run_public_ok.
Qed.

Lemma is_linked_null_sync h a nd :
  null_sync h → h !! a = Some nd →
  is_linked h a = Some (bool_decide (prev nd ≠ None ∨ next nd ≠ None)).
Proof.
  intros Hns Ha. pose proof (Hns _ _ Ha) as Hnd. simpl in Hnd.
  unfold is_linked, fprev. rewrite Ha. simpl. f_equal.
  apply bool_decide_ext. destruct (prev nd), (next nd); naive_solver.
Qed.
End public_operations.

(** * The claims *)

Import Scenario.

(** Decide a closed proposition by evaluation. *)
Ltac by_compute := apply (bool_decide_unpack _); vm_compute; exact I.

(** The stores of the scenario are the ones the operations return. *)
Lemma scenario_stores :
  pushed = Some full ∧
  (h ← base_ctor full e4; h ← base_ctor h e5; h ← list_ctor h lst2;
   h ← push_back h lst2 e4; push_back h lst2 e5) = Some two_lists ∧
  base_ctor ∅ e1 = Some built1 ∧ list_ctor built1 lst = Some built2 ∧
  push_back built2 lst e1 = Some built3.
Proof. by vm_compute. Qed.

(** C1.  Whatever sequence of [push_front], [push_back], [insert], [erase],
    [pop_front] and [pop_back] is applied to a list within the
    preconditions, the operations all succeed and forward iteration from
    [begin()] to [end()] then visits exactly the expected members in the
    expected order, so that the number of visited elements is the expected
    live count.  In particular, after [push_back] of the elements holding
    1, 2, 3 iteration yields [1; 2; 3], after [erase(begin())] it yields
    [2; 3], and after [push_front] of the detached element it yields
    [1; 2; 3] again. *)
Theorem C1_iteration_after_operations :
  (∀ (h : heap) (s : addr) (l : list addr) (os : list op),
     heap_ok h → is_list h s l → ops_pre s (dom h) l os →
     ∃ h', run_ops s h os = Some h' ∧
           heap_ok h' ∧ is_list h' s (abs_ops s l os) ∧
           ∀ fuel, length (abs_ops s l os) ≤ fuel →
             to_list fuel h' s = Some (abs_ops s l os) ∧
             length <$> to_list fuel h' s = Some (length (abs_ops s l os)))
  ∧ (h ← pushed; values 3 h elems lst) = Some [1; 2; 3]%Z
  ∧ (h ← erased; values 3 h elems lst) = Some [2; 3]%Z
  ∧ (h ← reused; values 3 h elems lst) = Some [1; 2; 3]%Z.
Proof.
  split; [|by vm_compute].
  intros h s l os Hok Hl Hpre.
  destruct (run_ops_spec h s l os) as (h' & E & Hok' & Hl' & _); [done..|].
  exists h'. split_and!; [done..|]. intros fuel Hfuel.
  rewrite (is_list_to_list _ _ _ _ Hl' Hfuel). done.
Qed.

Lemma C1_witness :
  ∃ h', run_ops lst (default ∅ start)
          [PushBack e1; PushBack e2; PushBack e3; Erase e1; PushFront e1]
        = Some h' ∧
        heap_ok h' ∧ is_list h' lst [e1; e2; e3] ∧
        ∀ fuel, 3 ≤ fuel →
          to_list fuel h' lst = Some [e1; e2; e3] ∧
          length <$> to_list fuel h' lst = Some 3.
Proof.
  apply (proj1 C1_iteration_after_operations (default ∅ start) lst []
           [PushBack e1; PushBack e2; PushBack e3; Erase e1; PushFront e1]);
    by_compute.
Defined.

(** C4.  [erase(it)] on an iterator to a member detaches the node and
    restores the continuity of its neighbours, the node itself stays alive
    (now unlinked), and the iterator returned is the one [++it] gave before
    the call.  Erasing [begin()] until the list is empty terminates and
    leaves [begin() == end()]. *)
Theorem C4_erase_returns_successor :
  (∀ (h : heap) (s : addr) (l1 : list addr) (x : addr) (l2 : list addr),
     heap_ok h → is_list h s (l1 ++ x :: l2) →
     ∃ h' r l0 p, s :: l1 = l0 ++ [p] ∧
       erase h (Some x) = Some (h', r) ∧
       it_inc h (Some x) = Some r ∧ r = Some (hd s l2) ∧
       heap_ok h' ∧ is_list h' s (l1 ++ l2) ∧
       h' !! x = Some (Node None None) ∧
       fnext h' p = Some r ∧ rd_prev h' r = Some (Some p))
  ∧ (∀ (h : heap) (s : addr) (l : list addr) (fuel : nat),
       heap_ok h → is_list h s l → length l ≤ fuel →
       ∃ h', untie_all fuel h s = Some h' ∧
             list_begin h' s = Some (list_end s) ∧
             empty h' s = Some true ∧ is_list h' s []).
Proof.
  split.
  - intros h s l1 x l2 Hok Hl.
    destruct (erase_list_spec h s l1 x l2)
      as (h' & l0 & p & E0 & E & ? & ? & ? & ? & ? & _); [done..|].
    destruct (is_list_fields _ _ _ _ _ Hok Hl) as (_ & _ & _ & _ & Hn).
    exists h', (Some (hd s l2)), l0, p. by split_and!.
  - intros h s l fuel Hok Hl Hlen.
    destruct (untie_all_spec h s l fuel) as (h' & E & ? & Hl' & _); [done..|].
    exists h'. split_and!; [done| | |done].
    + by rewrite (is_list_begin _ _ _ Hl').
    + by rewrite (empty_spec _ _ _ Hl').
Qed.

Lemma C4_witness :
  (∃ h' r l0 p, [lst; e1] = l0 ++ [p] ∧
     erase full (Some e2) = Some (h', r) ∧
     it_inc full (Some e2) = Some r ∧ r = Some e3 ∧
     heap_ok h' ∧ is_list h' lst [e1; e3] ∧
     h' !! e2 = Some (Node None None) ∧
     fnext h' p = Some r ∧ rd_prev h' r = Some (Some p))
  ∧ (∃ h', untie_all 3 full lst = Some h' ∧
           list_begin h' lst = Some (list_end lst) ∧
           empty h' lst = Some true ∧ is_list h' lst []).
Proof.
  split.
  - apply (proj1 C4_erase_returns_successor full lst [e1] e2 [e3]); by_compute.
  - apply (proj2 C4_erase_returns_successor full lst [e1; e2; e3] 3);
      [by_compute|by_compute|simpl; lia].
Defined.

(** C3 (as amended).  [splice(pos, other, first, second)] of a non-empty
    range [R] relocates exactly the nodes of [R], in their order, to sit
    immediately before [pos], for every position [pos] that is not a node of
    the half-open range: a position of another list, a position of the same
    list before the range, the end of the range itself (nothing changes), or
    a position of the same list after the end of the range.  The member
    count over source and destination is conserved, and at most three
    [next] and three [prev] references are rewritten whatever the length of
    the range.  An empty range leaves the store unchanged. *)
Theorem C3_splice_relocates_range :
  (∀ (h : heap) (o s1 : addr) (P Q : list addr) (s2 : addr) (A R B : list addr),
     heap_ok h → is_list h s1 (P ++ Q) → is_list h s2 (A ++ R ++ B) → R ≠ [] →
     (∀ z, z ∈ s1 :: P ++ Q → z ∉ s2 :: A ++ R ++ B) →
     ∃ h', splice h (Some (hd s1 Q)) o (Some (hd s2 R)) (Some (hd s2 B)) = Some h' ∧
           heap_ok h' ∧ is_list h' s1 (P ++ R ++ Q) ∧ is_list h' s2 (A ++ B) ∧
           length (P ++ R ++ Q) + length (A ++ B)
             = length (P ++ Q) + length (A ++ R ++ B))
  ∧ (∀ (h : heap) (o s : addr) (X S R Y : list addr),
       heap_ok h → is_list h s (X ++ S ++ R ++ Y) → S ≠ [] → R ≠ [] →
       ∃ h', splice h (Some (hd s S)) o (Some (hd s R)) (Some (hd s Y)) = Some h' ∧
             heap_ok h' ∧ is_list h' s (X ++ R ++ S ++ Y) ∧
             length (X ++ R ++ S ++ Y) = length (X ++ S ++ R ++ Y))
  ∧ (∀ (h : heap) (o s : addr) (X R S Y : list addr),
       heap_ok h → is_list h s (X ++ R ++ S ++ Y) → R ≠ [] →
       ∃ h', splice h (Some (hd s Y)) o (Some (hd s R)) (Some (hd s (S ++ Y)))
               = Some h' ∧
             heap_ok h' ∧ is_list h' s (X ++ S ++ R ++ Y) ∧
             length (X ++ S ++ R ++ Y) = length (X ++ R ++ S ++ Y))
  ∧ (∀ (h : heap) (o pos first second a b last : addr),
       heap_ok h →
       fprev h second = Some (Some last) → fprev h first = Some (Some a) →
       fprev h pos = Some (Some b) → first ≠ second →
       ∃ h', splice h (Some pos) o (Some first) (Some second) = Some h' ∧
             (∀ u, u ∉ [a; b; last] → fnext h' u = fnext h u) ∧
             (∀ u, u ∉ [pos; first; second] → fprev h' u = fprev h u) ∧
             (∀ u, is_Some (h' !! u) ↔ is_Some (h !! u)))
  ∧ (∀ (h : heap) (position : ptr) (o : addr) (it : ptr),
       splice h position o it it = Some h).
Proof.
  split_and!.
  - intros h o s1 P Q s2 A R B Hok H1 H2 HR Hd.
    destruct (splice_between_lists h o s1 P Q s2 A R B) as (h' & ? & ? & ? & ?);
      [done..|].
    exists h'. split_and!; [done..|]. rewrite !length_app. lia.
  - intros h o s X S R Y Hok Hl HS HR.
    destruct (splice_same_list h o s X S R Y) as [(h' & ? & ? & ?) _]; [done..|].
    exists h'. split_and!; [done..|]. rewrite !length_app. lia.
  - intros h o s X R S Y Hok Hl HR. destruct S as [|y S].
    + simpl in *. exists h. split_and!; [|done..].
      destruct (nonempty_snoc R HR) as (R0 & c & ->).
      destruct (cons_snoc s X) as (X0 & x & EX). destruct Hl as [Hnd Hc].
      assert (s :: X ++ (R0 ++ [c]) ++ Y = X0 ++ x :: R0 ++ c :: Y) as E1
        by (by rewrite app_comm_cons, EX, <-!app_assoc).
      rewrite E1 in Hc, Hnd.
      pose proof (chain_lookup _ _ _ _ _ Hc) as Hx. rewrite hd_app_cons in Hx.
      pose proof (chain_lookup h (X0 ++ x :: R0) c Y s) as Hcn.
      rewrite <-app_assoc in Hcn. specialize (Hcn Hc).
      rewrite hd_app_cons.
      apply (splice_at_range_end h o _ _ x c); [done| | |].
      * by apply heap_ok_next_prev.
      * by apply heap_ok_next_prev.
      * intros E. rewrite <-E in Hcn. ok_sat Hok.
        assert (x = c) as -> by congruence.
        apply NoDup_app in Hnd as (_ & _ & Hnd). apply NoDup_cons in Hnd as [Hn _].
        clear -Hn. set_solver.
    + destruct (splice_same_list h o s X R (y :: S) Y) as [_ (h' & ? & ? & ?)];
        [done..|].
      exists h'. split_and!; [done..|]. rewrite !length_app. lia.
  - intros. by apply splice_rewrites.
  - intros. apply splice_empty_range.
Qed.

Lemma C3_witness :
  (∃ h', splice two_lists (Some e5) lst (Some e2) (Some e3) = Some h' ∧
         heap_ok h' ∧ is_list h' lst2 [e4; e2; e5] ∧ is_list h' lst [e1; e3] ∧
         3 + 2 = 2 + 3)
  ∧ (∃ h', splice full (Some e1) lst (Some e2) (Some e3) = Some h' ∧
           heap_ok h' ∧ is_list h' lst [e2; e1; e3] ∧ 3 = 3)
  ∧ (∃ h', splice full (Some e3) lst (Some e1) (Some e2) = Some h' ∧
           heap_ok h' ∧ is_list h' lst [e2; e1; e3] ∧ 3 = 3)
  ∧ (∃ h', splice full (Some e1) lst (Some e3) (Some lst) = Some h' ∧
           (∀ u, u ∉ [e2; lst; e3] → fnext h' u = fnext full u) ∧
           (∀ u, u ∉ [e1; e3; lst] → fprev h' u = fprev full u) ∧
           (∀ u, is_Some (h' !! u) ↔ is_Some (full !! u))).
Proof.
  destruct C3_splice_relocates_range as (H1 & H2 & H3 & H4 & _).
  split_and!.
  - apply (H1 two_lists lst lst2 [e4] [e5] lst [e1] [e2] [e3]);
      [by_compute|by_compute|by_compute|done|].
    apply Forall_forall. by_compute.
  - apply (H2 full lst lst [] [e1] [e2] [e3]); [by_compute|by_compute|done|done].
  - apply (H3 full lst lst [] [e1] [e2] [e3]); [by_compute|by_compute|done].
  - apply (H4 full lst e1 e3 lst e2 lst e3); [by_compute|done..].
Defined.

(** C3, as stated, fails when the position is the first node of the range
    (a position that is not strictly inside it): the range [e1, e2) spliced
    before [e1] leaves [e1] in a ring of its own that [begin()] still
    leads to, so iteration never reaches [end()]. *)
Lemma C3_counterexample :
  is_list full lst [e1; e2; e3] ∧
  splice full (Some e1) lst (Some e1) (Some e2) = Some spliced_at_begin ∧
  ¬ heap_ok spliced_at_begin ∧
  (∀ fuel, to_list fuel spliced_at_begin lst = None) ∧
  (∀ l, ¬ is_list spliced_at_begin lst l).
Proof.
  assert (∀ fuel, to_list fuel spliced_at_begin lst = None) as Hloop.
  { intros fuel. unfold to_list.
    assert (list_begin spliced_at_begin lst = Some (Some e1)) as -> by done.
    simpl. induction fuel as [|fuel IH]; [done|].
    simpl. change (Some 11%positive) with (Some e1). by rewrite IH. }
  split_and!; [by_compute|done| |done|].
  - apply (bool_decide_eq_false_1 (heap_ok spliced_at_begin)). by vm_compute.
  - intros l Hl. pose proof (is_list_to_list _ _ _ (length l) Hl (le_n _)) as E.
    by rewrite Hloop in E.
Qed.

(** C2.  [insert(pos, x)] of an element [x] that is already linked, at a
    position other than [x] itself, gives the very store that [erase(x)]
    followed by [insert(pos, x)] gives.  When [pos] is a position of a list,
    [x] ends up in that list exactly once, immediately before [pos], and
    every other list it was a member of only loses it. *)
Theorem C2_reinsert_is_erase_then_insert :
  (∀ (h : heap) (pos x : addr),
     heap_ok h → is_linked h x = Some true → x ≠ pos →
     insert h (Some pos) x
       = ('(h1, _) ← erase h (Some x); insert h1 (Some pos) x))
  ∧ (∀ (h : heap) (s : addr) (l : list addr) (pos x : addr),
       heap_ok h → is_list h s l → pos ∈ l ++ [s] → x ≠ s → x ≠ pos →
       is_linked h x = Some true →
       ∃ h' k1 k2, insert h (Some pos) x = Some (h', Some x) ∧
         list_without x l = k1 ++ k2 ∧ pos = hd s k2 ∧
         heap_ok h' ∧ is_list h' s (k1 ++ x :: k2) ∧
         (x ∉ k1 ++ k2) ∧
         (∀ fuel, length (k1 ++ x :: k2) ≤ fuel →
                  to_list fuel h' s = Some (k1 ++ x :: k2)) ∧
         ∀ s' l', is_list h s' l' → x ≠ s' → pos ∉ s' :: l' →
                  is_list h' s' (list_without x l') ∧ x ∉ list_without x l').
Proof.
  split; [apply insert_as_erase_insert|].
  intros h s l pos x Hok Hl Hpos Hxs Hxp Hlk.
  destruct (is_linked_true _ _ Hok Hlk) as (p & n & Hp & _).
  destruct (insert_moves h s l pos x)
    as (h' & k1 & k2 & ? & E & ? & ? & ? & Hl' & Hfr); [done..|solve_alloc|].
  exists h', k1, k2. split_and!; [done..| | |].
  - rewrite <-E. apply list_without_not_elem.
  - intros fuel Hfuel. by apply is_list_to_list.
  - intros s' l' ???. split; [by apply Hfr|apply list_without_not_elem].
Qed.

Lemma C2_witness :
  insert full (Some e1) e3
    = ('(h1, _) ← erase full (Some e3); insert h1 (Some e1) e3)
  ∧ ∃ h' k1 k2, insert two_lists (Some e5) e2 = Some (h', Some e2) ∧
      list_without e2 [e4; e5] = k1 ++ k2 ∧ e5 = hd lst2 k2 ∧
      heap_ok h' ∧ is_list h' lst2 (k1 ++ e2 :: k2) ∧
      (e2 ∉ k1 ++ k2) ∧
      (∀ fuel, length (k1 ++ e2 :: k2) ≤ fuel →
               to_list fuel h' lst2 = Some (k1 ++ e2 :: k2)) ∧
      ∀ s' l', is_list two_lists s' l' → e2 ≠ s' → e5 ∉ s' :: l' →
               is_list h' s' (list_without e2 l') ∧ e2 ∉ list_without e2 l'.
Proof.
  split.
  - apply (proj1 C2_reinsert_is_erase_then_insert full e1 e3);
      [by_compute|done|done].
  - apply (proj2 C2_reinsert_is_erase_then_insert two_lists lst2 [e4; e5] e5 e2);
      [by_compute|by_compute|by_compute|done|done|done].
Defined.

(** C5 (as amended).  When the element is the node the position refers to,
    or is the immediate predecessor of that node (the position is the
    element's immediate successor), [insert] returns at once: the store,
    and with it every list, is exactly what it was. *)
Theorem C5_insert_guard_is_noop :
  ∀ (h : heap) (pos : ptr) (x : addr),
    pos = Some x ∨ rd_prev h pos = Some (Some x) →
    insert h pos x = Some (h, Some x).
Proof.
  intros h [p|] x [E|E]; simplify_eq/=.
  - apply insert_noop_same.
  - by apply insert_noop_before.
Qed.

Lemma C5_witness :
  insert full (Some e2) e1 = Some (full, Some e1).
Proof.
  apply (C5_insert_guard_is_noop full (Some e2) e1). right. by vm_compute.
Defined.

(** C5, as stated, fails when the position is the immediate predecessor of
    the element: [insert(e1, e2)] on the list [e1; e2; e3] moves [e2] in
    front of [e1]. *)
Lemma C5_counterexample :
  rd_prev full (Some e2) = Some (Some e1) ∧
  to_list 3 full lst = Some [e1; e2; e3] ∧
  ∃ h', insert full (Some e1) e2 = Some (h', Some e2) ∧
        h' ≠ full ∧ to_list 3 h' lst = Some [e2; e1; e3].
Proof.
  split_and!; [by vm_compute..|].
  eexists. split_and!; [by vm_compute| |by vm_compute].
  intros E. apply (f_equal (λ h, fnext h lst)) in E. by vm_compute in E.
Qed.

(** C10.  The list argument of [splice] does not influence the result: two
    calls that differ only in that argument produce the same store. *)
Theorem C10_splice_ignores_list_argument :
  ∀ (h : heap) (position : ptr) (o1 o2 : addr) (first second : ptr),
    splice h position o1 first second = splice h position o2 first second.
Proof. intros. unfold splice. reflexivity. Qed.

(** C6.  Move-constructing a list from a source list leaves the source
    empty ([begin() == end()]) and gives the destination exactly the
    members of the source, in their order.  For a non-empty source the
    steps are: the source sentinel is detached, which leaves the members
    in a ring of their own; that ring is anchored at the destination
    sentinel; the source sentinel is tied to itself.  For an empty source
    the destination sentinel is tied.  Two lists never share a member. *)
Theorem C6_move_construct_transfers :
  (∀ (h : heap) (dst src : addr) (l : list addr),
     heap_ok h → is_list h src l → h !! dst = None →
     ∃ h0 h', base_ctor h dst = Some h0 ∧
       list_move_ctor h dst src = Some h' ∧ heap_ok h' ∧
       is_list h' dst l ∧ is_list h' src [] ∧
       list_begin h' src = Some (list_end src) ∧ empty h' src = Some true ∧
       (∀ fuel, length l ≤ fuel → to_list fuel h' dst = Some l) ∧
       (l = [] → tie h0 dst = Some h') ∧
       (l ≠ [] → ∃ h1 h2 last r1 r2,
          fprev h0 src = Some last ∧ remove h0 src = Some (h1, r1) ∧
          ring h1 l ∧ fprev h1 src = Some None ∧
          insert_after h1 last (Some dst) = Some (h2, r2) ∧
          is_list h2 dst l ∧ tie h2 src = Some h'))
  ∧ (∀ (h : heap) (s1 : addr) (l1 : list addr) (s2 : addr) (l2 : list addr)
       (x : addr),
       is_list h s1 l1 → is_list h s2 l2 → s1 ≠ s2 → s1 ∉ l2 →
       x ∈ l1 → x ∉ l2).
Proof.
  split; [|apply lists_disjoint].
  intros h dst src l Hok Hl Hdst.
  pose proof (fresh_ok _ _ Hok Hdst) as Hok0.
  set (h0 := <[dst := Node None None]> h) in *.
  assert (is_list h0 src l) as Hl0.
  { destruct Hl as [Hnd Hc]. split; [done|]. by apply chain_fresh_frame. }
  assert (fprev h0 dst = Some None) as Hd0.
  { unfold h0. rewrite fprev_fresh. by rewrite decide_True. }
  destruct (move_spec h0 dst src l Hok0 Hl0 Hd0)
    as (h' & Hmv & Hok' & Hld & Hls & _ & Hempty & Hsteps).
  exists h0, h'. unfold list_move_ctor. rewrite (base_ctor_spec _ _ Hdst). simpl.
  split_and!; [done..| | | |done|done].
  - by rewrite (is_list_begin _ _ _ Hls).
  - by rewrite (empty_spec _ _ _ Hls).
  - intros fuel Hfuel. by apply is_list_to_list.
Qed.

Lemma C6_witness :
  (∃ h0 h', base_ctor full lst2 = Some h0 ∧
     list_move_ctor full lst2 lst = Some h' ∧ heap_ok h' ∧
     is_list h' lst2 [e1; e2; e3] ∧ is_list h' lst [] ∧
     list_begin h' lst = Some (list_end lst) ∧ empty h' lst = Some true ∧
     (∀ fuel, length [e1; e2; e3] ≤ fuel → to_list fuel h' lst2 = Some [e1; e2; e3]) ∧
     ([e1; e2; e3] = [] → tie h0 lst2 = Some h') ∧
     ([e1; e2; e3] ≠ [] → ∃ h1 h2 last r1 r2,
        fprev h0 lst = Some last ∧ remove h0 lst = Some (h1, r1) ∧
        ring h1 [e1; e2; e3] ∧ fprev h1 lst = Some None ∧
        insert_after h1 last (Some lst2) = Some (h2, r2) ∧
        is_list h2 lst2 [e1; e2; e3] ∧ tie h2 lst = Some h'))
  ∧ e1 ∉ [e4; e5].
Proof.
  split.
  - apply (proj1 C6_move_construct_transfers full lst2 lst [e1; e2; e3]);
      [by_compute|by_compute|done].
  - apply (proj2 C6_move_construct_transfers two_lists lst [e1; e2; e3]
             lst2 [e4; e5] e1); by_compute.
Defined.

(** C7.  The destructor of a linked node runs [remove()] before the
    storage is released.  For a member of a list, the two former
    neighbours then reference each other, iteration of the list visits the
    remaining members only, and no node of the store references the
    released storage. *)
Theorem C7_destruction_detaches :
  (∀ (h : heap) (s : addr) (l1 : list addr) (x : addr) (l2 : list addr),
     heap_ok h → is_list h s (l1 ++ x :: l2) →
     ∃ h' l0 p, s :: l1 = l0 ++ [p] ∧
       base_dtor h x = Some h' ∧ h' !! x = None ∧
       fnext h' p = Some (Some (hd s l2)) ∧ fprev h' (hd s l2) = Some (Some p) ∧
       heap_ok h' ∧ is_list h' s (l1 ++ l2) ∧ (x ∉ l1 ++ l2) ∧
       (∀ fuel, length (l1 ++ l2) ≤ fuel → to_list fuel h' s = Some (l1 ++ l2)) ∧
       (∀ u nd, h' !! u = Some nd → prev nd ≠ Some x ∧ next nd ≠ Some x))
  ∧ (∀ (h : heap) (x : addr),
       heap_ok h → is_linked h x = Some true →
       ∃ h1 r h', remove h x = Some (h1, r) ∧
         base_dtor h x = Some h' ∧ h' = delete x h1 ∧ heap_ok h' ∧
         (∀ u nd, h' !! u = Some nd → prev nd ≠ Some x ∧ next nd ≠ Some x)).
Proof.
  split.
  - intros h s l1 x l2 Hok Hl.
    destruct (base_dtor_member h s l1 x l2)
      as (h' & l0 & p & ? & ? & Hx & ? & ? & Hok' & Hl' & Hnin); [done..|].
    exists h', l0, p. split_and!; [done..| | |].
    + intros Hin. apply Hnin. by right.
    + intros fuel Hfuel. by apply is_list_to_list.
    + intros u nd Hu. by apply (heap_ok_no_dangling h' x u nd).
  - intros h x Hok Hlk.
    destruct (is_linked_true _ _ Hok Hlk) as (p & n & Hp & Hn).
    pose proof (heap_ok_prev_next _ _ _ Hok Hp).
    pose proof (heap_ok_next_prev _ _ _ Hok Hn).
    assert (is_Some (h !! x)) by solve_alloc.
    assert (is_Some (h !! p)) by solve_alloc.
    assert (is_Some (h !! n)) by solve_alloc.
    assert (heap_ok (delete x (removed h x p n))) as Hok'.
    { apply delete_ok; [by apply removed_ok|].
      rewrite removed_fprev by done. by rewrite decide_True. }
    exists (removed h x p n), (Some n), (delete x (removed h x p n)).
    split_and!; [by apply remove_spec|by apply base_dtor_linked|done|done|].
    intros u nd Hu.
    apply (heap_ok_no_dangling _ x u nd Hok'); [apply lookup_delete_eq|done].
Qed.

Lemma C7_witness :
  (∃ h' l0 p, [lst; e1] = l0 ++ [p] ∧
     base_dtor full e2 = Some h' ∧ h' !! e2 = None ∧
     fnext h' p = Some (Some e3) ∧ fprev h' e3 = Some (Some p) ∧
     heap_ok h' ∧ is_list h' lst [e1; e3] ∧ (e2 ∉ [e1; e3]) ∧
     (∀ fuel, 2 ≤ fuel → to_list fuel h' lst = Some [e1; e3]) ∧
     (∀ u nd, h' !! u = Some nd → prev nd ≠ Some e2 ∧ next nd ≠ Some e2))
  ∧ (∃ h1 r h', remove full e2 = Some (h1, r) ∧
       base_dtor full e2 = Some h' ∧ h' = delete e2 h1 ∧ heap_ok h' ∧
       (∀ u nd, h' !! u = Some nd → prev nd ≠ Some e2 ∧ next nd ≠ Some e2)).
Proof.
  split.
  - apply (proj1 C7_destruction_detaches full lst [e1] e2 [e3]); by_compute.
  - apply (proj2 C7_destruction_detaches full e2); [by_compute|done].
Defined.

(** C9.  Started in a store whose rings are consistent (every linked
    node's two neighbours reference it back), every public operation that
    returns leaves the fields [prev] and [next] of every node null
    together, and leaves the rings consistent again when the caller keeps
    to the two preconditions of [public_pre]: [splice] is not called with
    the first node of a non-empty range as position, and a node is moved
    from a live node that is not a ring of its own.  So [prev] and [next]
    are null together in every store that public operations used within
    these preconditions produce from the empty one.  Wherever [prev] and
    [next] are null together, [is_linked()], which looks at [prev] only,
    tells whether the node has any neighbour reference. *)
Theorem C9_operations_preserve_node_invariant :
  (∀ (fuel : nat) (h : heap) (o : public_op) (h' : heap),
     heap_ok h → run_public fuel h o = Some h' →
     null_sync h' ∧ (public_pre h o → heap_ok h'))
  ∧ (∀ h : heap, reachable h → null_sync h)
  ∧ (∀ (h : heap) (a : addr) (nd : base_list_element),
       reachable h → h !! a = Some nd →
       (prev nd = None ↔ next nd = None) ∧
       is_linked h a = Some (bool_decide (prev nd ≠ None ∨ next nd ≠ None)))
  ∧ (∀ (h : heap) (a : addr) (nd : base_list_element),
       null_sync h → h !! a = Some nd →
       is_linked h a = Some (bool_decide (prev nd ≠ None ∨ next nd ≠ None))).
Proof.
  split_and!.
  - intros fuel h o h' Hok E. split.
    + by eapply run_public_null_sync.
    + intros Hpre. by eapply run_public_ok.
  - intros h Hr. by apply heap_ok_null_sync, reachable_ok.
  - intros h a nd Hr Ha.
    pose proof (heap_ok_null_sync _ (reachable_ok _ Hr)) as Hns. split.
    + apply (Hns _ _ Ha).
    + by apply is_linked_null_sync.
  - intros h a nd Hns Ha. by apply is_linked_null_sync.
Qed.

Lemma C9_witness :
  (null_sync (default ∅ (splice full (Some e3) lst (Some e1) (Some e2))) ∧
   (public_pre full (ListSplice (Some e3) lst (Some e1) (Some e2)) →
    heap_ok (default ∅ (splice full (Some e3) lst (Some e1) (Some e2)))))
  ∧ null_sync built3
  ∧ ((Some lst = None ↔ Some lst = None) ∧
     is_linked built3 e1
       = Some (bool_decide (Some lst ≠ None ∨ Some lst ≠ None)))
  ∧ is_linked spliced_at_begin e1
      = Some (bool_decide (Some e1 ≠ None ∨ Some e1 ≠ None)).
Proof.
  destruct C9_operations_preserve_node_invariant as (H1 & H2 & H3 & H4).
  assert (reachable built3) as Hr.
  { apply (reachable_step 0 built2 (ListPushBack lst e1)); [|done|done].
    apply (reachable_step 0 built1 (ListCtor lst)); [|done|done].
    apply (reachable_step 0 ∅ (NodeCtor e1)); [constructor|done|done]. }
  split; [|split; [|split]].
  - apply (H1 0 full (ListSplice (Some e3) lst (Some e1) (Some e2)));
      [by_compute|by vm_compute].
  - by apply H2.
  - by apply (H3 built3 e1 (Node (Some lst) (Some lst))).
  - apply (H4 spliced_at_begin e1 (Node (Some e1) (Some e1)));
      [by_compute|done].
Defined.

(** Without the consistency of the rings the node invariant is not kept.
    Every operation of [corrupting_ops] returns and the store [after_pop]
    they produce from the empty one has [prev] and [next] null together in
    every node; the only call outside [public_pre] is the [splice] whose
    position is the first node of its range.  Move-constructing a list
    from [lst] then returns and leaves [e1] with a [prev] reference and a
    null [next]: [is_linked()] answers true for a node whose [next] is
    null. *)
Lemma C9_counterexample :
  run_publics 0 ∅ Stores.corrupting_ops = Some Stores.after_pop ∧
  null_sync Stores.after_pop ∧ ¬ heap_ok Stores.after_pop ∧
  public_pre Stores.after_pop (ListMoveCtor lst2 lst) ∧
  run_public 0 Stores.after_pop (ListMoveCtor lst2 lst) = Some Stores.after_move ∧
  Stores.after_move !! e1 = Some (Node (Some lst2) None) ∧
  ¬ null_sync Stores.after_move ∧
  is_linked Stores.after_move e1 = Some true ∧ fnext Stores.after_move e1 = Some None.
Proof.
  split_and!; [done|by_compute| |done|done|done| |done|done].
  - apply (bool_decide_eq_false_1 (heap_ok Stores.after_pop)). by vm_compute.
  - apply (bool_decide_eq_false_1 (null_sync Stores.after_move)). by vm_compute.
Qed.

(** C8.  Move-constructing a [base_list_element] from a member of a list
    rewires both neighbours of the source to the destination, which takes
    the place of the source in the list, and leaves the source unlinked.
    The move constructor of [list_element<Tag>] does not forward to it:
    its mem-initialiser names the parameter, an lvalue, so the deleted copy
    constructor is selected and no move takes place. *)
Theorem C8_node_move_construction :
  (∀ (h : heap) (s : addr) (l1 : list addr) (other : addr) (l2 : list addr)
     (this : addr),
     heap_ok h → is_list h s (l1 ++ other :: l2) → h !! this = None →
     ∃ h' l0 p, s :: l1 = l0 ++ [p] ∧
       base_move_ctor h this other = Some h' ∧ heap_ok h' ∧
       is_list h' s (l1 ++ this :: l2) ∧
       h' !! other = Some (Node None None) ∧
       fnext h' p = Some (Some this) ∧ fprev h' (hd s l2) = Some (Some this) ∧
       fprev h' this = Some (Some p) ∧ fnext h' this = Some (Some (hd s l2)))
  ∧ base_ctor_resolve lvalue = ctor_copy_deleted
  ∧ list_element_move_ctor full e6 e2 = None
  ∧ (∃ h', base_move_ctor full e6 e2 = Some h' ∧ is_list h' lst [e1; e6; e3])
  ∧ list_element_move_ctor full e6 e2 ≠ base_move_ctor full e6 e2.
Proof.
  split_and!.
  - apply base_move_ctor_member.
  - done.
  - done.
  - eexists. split; [by vm_compute|by_compute].
  - by vm_compute.
Qed.

Lemma C8_witness :
  ∃ h' l0 p, [lst; e1] = l0 ++ [p] ∧
    base_move_ctor full e6 e2 = Some h' ∧ heap_ok h' ∧
    is_list h' lst [e1; e6; e3] ∧
    h' !! e2 = Some (Node None None) ∧
    fnext h' p = Some (Some e6) ∧ fprev h' e3 = Some (Some e6) ∧
    fprev h' e6 = Some (Some p) ∧ fnext h' e6 = Some (Some e3).
Proof.
  apply (proj1 C8_node_move_construction full lst [e1] e2 [e3] e6);
    [by_compute|by_compute|done].
Defined.

(** * Further properties of the code *)

Import Stores.

(** ** Iterators *)

Section iterators.
Implicit Types (h : heap) (s x a : addr) (l : list addr).

Lemma hd_app_ne (s x : addr) l1 l2 :
  NoDup (s :: l1 ++ x :: l2) → hd s l2 ≠ hd s (l1 ++ x :: l2).
Proof.
  intros Hnd. rewrite hd_app_cons.
  apply NoDup_cons in Hnd as [Hs Hnd]. apply NoDup_app in Hnd as (_ & Hd & Hnd).
  apply NoDup_cons in Hnd as [Hx _].
  assert (hd x l1 ∈ l1 ++ [x]) as H1.
  { destruct (hd_elem x l1) as [?|[_ ->]]; set_solver. }
  intros E. rewrite <-E in H1.
  destruct (hd_elem s l2) as [H2|[_ H2]].
  - apply elem_of_app in H1 as [H1|H1]; [apply (Hd _ H1); by right|].
    set_solver.
  - rewrite H2 in H1. set_solver.
Qed.

(** Walking back from a position of the list to [begin()] visits the
    members before the position, last first. *)
Lemma iterate_back_spec h s l1 l2 fuel :
  heap_ok h → is_list h s (l1 ++ l2) → length l1 ≤ fuel →
  iterate_back fuel h (Some (hd s l2)) (Some (hd s (l1 ++ l2)))
    = Some (reverse l1).
Proof.
  intros Hok. revert l2 fuel.
  induction l1 as [|x l1 IH] using rev_ind; intros l2 fuel Hl Hlen.
  - simpl. destruct fuel; simpl; unfold it_neq;
      by rewrite bool_decide_false by naive_solver.
  - rewrite <-app_assoc in *. simpl in *.
    rewrite length_app in Hlen. simpl in Hlen.
    destruct fuel as [|fuel]; [lia|]. simpl.
    unfold it_neq. rewrite bool_decide_true.
    2:{ intros [= E]. by apply (hd_app_ne s x l1 l2); [destruct Hl|]. }
    destruct (is_list_fields _ _ _ _ _ Hok Hl) as (_ & _ & _ & _ & Hn).
    apply heap_ok_next_prev in Hn; [|done].
    unfold it_dec, rd_prev. simpl. rewrite Hn. simpl.
    pose proof (IH (x :: l2) fuel Hl ltac:(lia)) as IH'. simpl in IH'.
    rewrite IH'. simpl.
    by rewrite reverse_snoc.
Qed.

Lemma is_list_to_list_back h s l fuel :
  heap_ok h → is_list h s l → length l ≤ fuel →
  to_list_back fuel h s = Some (reverse l).
Proof.
  intros Hok Hl Hlen. unfold to_list_back, list_end.
  rewrite (is_list_begin _ _ _ Hl). simpl.
  pose proof (iterate_back_spec h s l [] fuel Hok) as H.
  rewrite app_nil_r in H. by apply H.
Qed.
End iterators.

(** X1.  Backward iteration, from [end()] down to [begin()] with
    [operator--], visits the members that forward iteration visits, in the
    opposite order. *)
Theorem X1_backward_iteration_reverses :
  ∀ (h : heap) (s : addr) (l : list addr) (fuel : nat),
    heap_ok h → is_list h s l → length l ≤ fuel →
    to_list_back fuel h s = Some (reverse l) ∧
    to_list_back fuel h s = reverse <$> to_list fuel h s.
Proof.
  intros h s l fuel Hok Hl Hlen.
  rewrite (is_list_to_list_back _ _ _ _ Hok Hl Hlen).
  by rewrite (is_list_to_list _ _ _ _ Hl Hlen).
Qed.

Lemma X1_witness :
  to_list_back 3 full lst = Some (reverse [e1; e2; e3]) ∧
  to_list_back 3 full lst = reverse <$> to_list 3 full lst.
Proof.
  apply (X1_backward_iteration_reverses full lst [e1; e2; e3] 3);
    [by_compute|by_compute|simpl; lia].
Defined.

(** X2.  On a linked node of a consistent store [++] and [--] are inverse
    to each other, and the postfix forms return the old iterator beside the
    advanced one. *)
Theorem X2_increment_decrement_round_trip :
  ∀ (h : heap) (a : addr),
    heap_ok h → is_linked h a = Some true →
    ∃ n p,
      it_inc h (Some a) = Some (Some n) ∧ it_dec h (Some n) = Some (Some a) ∧
      it_dec h (Some a) = Some (Some p) ∧ it_inc h (Some p) = Some (Some a) ∧
      it_post_inc h (Some a) = Some (Some a, Some n) ∧
      it_post_dec h (Some a) = Some (Some a, Some p).
Proof.
  intros h a Hok Hl.
  destruct (is_linked_true _ _ Hok Hl) as (p & n & Hp & Hn).
  exists n, p. unfold it_post_inc, it_post_dec, it_inc, it_dec.
  rewrite !rd_prev_Some. unfold rd_next. simpl.
  rewrite Hp, Hn, (heap_ok_next_prev _ _ _ Hok Hn),
    (heap_ok_prev_next _ _ _ Hok Hp). done.
Qed.

Lemma X2_witness :
  ∃ n p,
    it_inc full (Some e2) = Some (Some n) ∧ it_dec full (Some n) = Some (Some e2) ∧
    it_dec full (Some e2) = Some (Some p) ∧ it_inc full (Some p) = Some (Some e2) ∧
    it_post_inc full (Some e2) = Some (Some e2, Some n) ∧
    it_post_dec full (Some e2) = Some (Some e2, Some p).
Proof.
  apply (X2_increment_decrement_round_trip full e2); by_compute.
Defined.

Section ends.
Implicit Types (h : heap) (s x a : addr) (l : list addr).

Lemma last_cons_default (s : addr) l : last (s :: l) = Some (default s (last l)).
Proof. rewrite last_cons. by destruct (last l). Qed.

Lemma is_list_last h s l :
  heap_ok h → is_list h s l → fprev h s = Some (Some (default s (last l))).
Proof.
  intros Hok Hl. destruct (is_list_sentinel_prev _ _ _ Hok Hl) as (l0 & p & E & Hp).
  rewrite Hp. pose proof (last_cons_default s l) as H.
  rewrite E, last_snoc in H. congruence.
Qed.

Lemma last_elem (s : addr) l : default s (last l) ∈ s :: l.
Proof.
  destruct (last l) as [y|] eqn:E; simpl; [|by left].
  right. by eapply last_Some_elem_of.
Qed.

Lemma node_ref_alloc h a : is_Some (h !! a) → node_ref h (Some a) = Some a.
Proof. intros H. unfold node_ref. simpl. by rewrite decide_True. Qed.
End ends.

(** X3.  [front()] and [back()] refer to the first and to the last member;
    on an empty list both refer to the sentinel of the list, not to an
    element.  [--end()] is the last member, [--begin()] is [end()] and
    [++end()] is [begin()]: the iterators of a list form a ring through the
    sentinel. *)
Theorem X3_front_back_and_ring_of_iterators :
  (∀ (h : heap) (s : addr) (l : list addr),
     heap_ok h → is_list h s l →
     front h s = Some (hd s l) ∧
     back h s = Some (default s (last l)) ∧
     it_dec h (list_end s) = Some (Some (default s (last l))) ∧
     (b ← list_begin h s; it_dec h b) = Some (list_end s) ∧
     it_inc h (list_end s) = list_begin h s)
  ∧ (∀ (h : heap) (s : addr),
       heap_ok h → is_list h s [] → front h s = Some s ∧ back h s = Some s).
Proof.
  assert (∀ h s l, heap_ok h → is_list h s l →
            front h s = Some (hd s l) ∧ back h s = Some (default s (last l)))
    as Hfb.
  { intros h s l Hok Hl.
    pose proof (is_list_begin _ _ _ Hl) as Hb. unfold list_begin in Hb.
    pose proof (is_list_last _ _ _ Hok Hl) as Hp. split.
    - unfold front. rewrite Hb. simpl. apply node_ref_alloc.
      apply (is_list_alloc _ _ _ _ Hl).
      destruct (hd_elem s l) as [?|[_ ->]]; [by right|by left].
    - unfold back. rewrite Hp. simpl. apply node_ref_alloc.
      apply (is_list_alloc _ _ _ _ Hl), last_elem. }
  split.
  - intros h s l Hok Hl. destruct (Hfb h s l Hok Hl) as [Hf Hk].
    pose proof (is_list_begin _ _ _ Hl) as Hb. unfold list_begin in Hb.
    pose proof (is_list_last _ _ _ Hok Hl) as Hp.
    split; [done|]. split; [done|].
    unfold it_dec, it_inc, list_end, list_begin. rewrite rd_prev_Some.
    split; [done|]. split; [|done].
    rewrite Hb. simpl. rewrite rd_prev_Some.
    by apply heap_ok_next_prev.
  - intros h s Hok Hl. apply (Hfb h s [] Hok Hl).
Qed.

Lemma X3_witness :
  (front full lst = Some (hd lst [e1; e2; e3]) ∧
   back full lst = Some (default lst (last [e1; e2; e3])) ∧
   it_dec full (list_end lst) = Some (Some (default lst (last [e1; e2; e3]))) ∧
   (b ← list_begin full lst; it_dec full b) = Some (list_end lst) ∧
   it_inc full (list_end lst) = list_begin full lst)
  ∧ (front built2 lst = Some lst ∧ back built2 lst = Some lst).
Proof.
  split.
  - apply (proj1 X3_front_back_and_ring_of_iterators full lst [e1; e2; e3]);
      by_compute.
  - apply (proj2 X3_front_back_and_ring_of_iterators built2 lst); by_compute.
Defined.

(** ** Round trips *)

Section round_trips.
Implicit Types (h : heap) (s x a pos f p n : addr) (l : list addr).

Lemma unlinked_not_neighbour h x u v :
  heap_ok h → fprev h x = Some None →
  (fprev h u = Some (Some v) → x ≠ u ∧ x ≠ v) ∧
  (fnext h u = Some (Some v) → x ≠ u ∧ x ≠ v).
Proof.
  intros Hok Hx.
  pose proof (proj2 (heap_ok_null _ x Hok) Hx) as Hxn.
  split; intros H.
  - pose proof (heap_ok_prev_next _ _ _ Hok H). split; congruence.
  - pose proof (heap_ok_next_prev _ _ _ Hok H). split; congruence.
Qed.

(** Inserting an unlinked node and erasing it again restores the store. *)
Lemma insert_then_erase h pos x f :
  heap_ok h → fprev h x = Some None → fprev h pos = Some (Some f) →
  insert h (Some pos) x = Some (inserted h f x pos, Some x) ∧
  erase (inserted h f x pos) (Some x) = Some (h, Some pos).
Proof.
  intros Hok Hx Hpos.
  destruct (proj1 (unlinked_not_neighbour h x pos f Hok Hx) Hpos) as [Hxp Hxf].
  pose proof (fprev_alloc _ _ _ Hx) as Ax.
  pose proof (fprev_alloc _ _ _ Hpos) as Ap.
  pose proof (heap_ok_prev_next _ _ _ Hok Hpos) as Hfn.
  pose proof (fnext_alloc _ _ _ Hfn) as Af.
  pose proof (proj2 (heap_ok_null _ x Hok) Hx) as Hxn.
  split.
  { rewrite (insert_spec h pos x f) by done. by rewrite detached_unlinked_id. }
  unfold erase. simpl.
  set (h1 := inserted h f x pos).
  assert (∀ u, is_Some (h1 !! u) ↔ is_Some (h !! u)) as A1
    by (intros u; apply inserted_alloc).
  rewrite (remove_spec h1 x f pos).
  - f_equal. f_equal. apply heap_ext; intros u.
    + rewrite removed_fnext by by apply A1. unfold h1.
      rewrite inserted_fnext by done.
      repeat case_decide; subst; congruence.
    + rewrite removed_fprev by by apply A1. unfold h1.
      rewrite inserted_fprev by done.
      repeat case_decide; subst; congruence.
  - unfold h1. rewrite inserted_fprev by done.
    repeat case_decide; congruence.
  - unfold h1. rewrite inserted_fnext by done.
    repeat case_decide; congruence.
  - by apply A1.
  - by apply A1.
Qed.

(** Erasing a linked node and inserting it before the returned iterator
    restores the store. *)
Lemma erase_then_insert h x p n :
  heap_ok h → fprev h x = Some (Some p) → fnext h x = Some (Some n) → n ≠ x →
  erase h (Some x) = Some (removed h x p n, Some n) ∧
  insert (removed h x p n) (Some n) x = Some (h, Some x).
Proof.
  intros Hok Hp Hn Hnx.
  pose proof (fprev_alloc _ _ _ Hp) as Ax.
  pose proof (heap_ok_prev_next _ _ _ Hok Hp) as Hpn.
  pose proof (heap_ok_next_prev _ _ _ Hok Hn) as Hnp.
  pose proof (fnext_alloc _ _ _ Hpn) as Ap.
  pose proof (fprev_alloc _ _ _ Hnp) as An.
  assert (p ≠ x) as Hpx by congruence.
  split.
  { unfold erase. simpl. by apply remove_spec. }
  set (h1 := removed h x p n).
  assert (∀ u, is_Some (h1 !! u) ↔ is_Some (h !! u)) as A1
    by (intros u; apply removed_alloc).
  assert (heap_ok h1) as Hok1 by by apply removed_ok.
  assert (fprev h1 x = Some None) as Hx1.
  { unfold h1. rewrite removed_fprev by done. by rewrite decide_True. }
  assert (fprev h1 n = Some (Some p)) as Hn1.
  { unfold h1. rewrite removed_fprev by done.
    rewrite decide_False by done. by rewrite decide_True. }
  rewrite (insert_spec h1 n x p) by (done || by apply A1).
  rewrite detached_unlinked_id by done.
  f_equal. f_equal. apply heap_ext; intros u.
  - rewrite inserted_fnext by by apply A1. unfold h1.
    rewrite removed_fnext by done.
    repeat case_decide; subst; congruence.
  - rewrite inserted_fprev by by apply A1. unfold h1.
    rewrite removed_fprev by done.
    repeat case_decide; subst; congruence.
Qed.
End round_trips.

(** X4.  [erase(insert(pos, x))] of an unlinked [x] before a linked position
    restores the store exactly and returns [pos]. *)
Theorem X4_insert_then_erase_restores :
  ∀ (h : heap) (pos x : addr),
    heap_ok h → fprev h x = Some None → is_linked h pos = Some true →
    ('(h1, it) ← insert h (Some pos) x; erase h1 it) = Some (h, Some pos).
Proof.
  intros h pos x Hok Hx Hl.
  destruct (is_linked_true _ _ Hok Hl) as (f & n & Hp & _).
  destruct (insert_then_erase h pos x f Hok Hx Hp) as [-> E]. simpl. exact E.
Qed.

Lemma X4_witness :
  ('(h1, it) ← insert with_spare (Some e2) e6; erase h1 it)
    = Some (with_spare, Some e2).
Proof.
  apply (X4_insert_then_erase_restores with_spare e2 e6); by_compute.
Defined.

(** X5.  [insert(erase(it), x)], where [it] refers to the linked node [x]
    that is not a ring of its own, restores the store exactly: the iterator
    that [erase] returns is the position at which [x] was. *)
Theorem X5_erase_then_insert_restores :
  ∀ (h : heap) (x : addr),
    heap_ok h → is_linked h x = Some true → fnext h x ≠ Some (Some x) →
    ('(h1, it) ← erase h (Some x); insert h1 it x) = Some (h, Some x).
Proof.
  intros h x Hok Hl Hself.
  destruct (is_linked_true _ _ Hok Hl) as (p & n & Hp & Hn).
  assert (n ≠ x) as Hnx by congruence.
  destruct (erase_then_insert h x p n Hok Hp Hn Hnx) as [-> E]. simpl. exact E.
Qed.

Lemma X5_witness :
  ('(h1, it) ← erase full (Some e2); insert h1 it e2) = Some (full, Some e2).
Proof.
  apply (X5_erase_then_insert_restores full e2); by_compute.
Defined.

(** X6.  [push_back] followed by [pop_back], and [push_front] followed by
    [pop_front], of a node that was in no list, restore the store
    exactly. *)
Theorem X6_push_then_pop_restores :
  ∀ (h : heap) (s x : addr),
    heap_ok h → fprev h x = Some None → is_linked h s = Some true →
    (h1 ← push_back h s x; pop_back h1 s) = Some h ∧
    (h1 ← push_front h s x; pop_front h1 s) = Some h.
Proof.
  intros h s x Hok Hx Hl.
  destruct (is_linked_true _ _ Hok Hl) as (f & b & Hp & Hn).
  pose proof (fprev_alloc _ _ _ Hx) as Ax.
  pose proof (fprev_alloc _ _ _ Hp) as As.
  split.
  - destruct (insert_then_erase h s x f Hok Hx Hp) as [Ei Ee].
    unfold push_back, pop_back, list_end, it_dec. rewrite Ei. simpl.
    rewrite rd_prev_Some, inserted_fprev by done.
    rewrite decide_True by done. simpl. by rewrite Ee.
  - pose proof (heap_ok_next_prev _ _ _ Hok Hn) as Hb.
    destruct (insert_then_erase h b x s Hok Hx Hb) as [Ei Ee].
    destruct (proj1 (unlinked_not_neighbour h x b s Hok Hx) Hb) as [_ Hxs].
    unfold push_front, pop_front, list_begin. rewrite Hn. simpl.
    rewrite Ei. simpl. rewrite inserted_fnext by done.
    rewrite decide_False by done. rewrite decide_True by done. simpl.
    by rewrite Ee.
Qed.

Lemma X6_witness :
  (h1 ← push_back with_spare lst e6; pop_back h1 lst) = Some with_spare ∧
  (h1 ← push_front with_spare lst e6; pop_front h1 lst) = Some with_spare.
Proof.
  apply (X6_push_then_pop_restores with_spare lst e6); by_compute.
Defined.

(** X7.  [push_back] and [push_front] are idempotent: pushing an element a
    second time meets the guard of [insert] and changes nothing. *)
Theorem X7_push_is_idempotent :
  ∀ (h : heap) (s : addr) (l : list addr) (x : addr),
    heap_ok h → is_list h s l → x ≠ s → is_Some (h !! x) →
    is_Some (push_back h s x) ∧
    (h1 ← push_back h s x; push_back h1 s x) = push_back h s x ∧
    is_Some (push_front h s x) ∧
    (h1 ← push_front h s x; push_front h1 s x) = push_front h s x.
Proof.
  intros h s l x Hok Hl Hxs Ax.
  assert (x ∈ dom h) as Hd by by apply elem_of_dom.
  destruct (run_op_spec h s l (PushBack x) Hok Hl) as (hb & Eb & Hokb & Hlb & _);
    [done|].
  destruct (run_op_spec h s l (PushFront x) Hok Hl) as (hf & Ef & Hokf & Hlf & _);
    [done|].
  simpl in *. rewrite Eb, Ef. simpl.
  split; [done|]. split; [|split; [done|]].
  - pose proof (is_list_last _ _ _ Hokb Hlb) as Hp.
    rewrite last_snoc in Hp. simpl in Hp.
    unfold push_back, list_end. by rewrite (insert_noop_before _ _ _ Hp).
  - pose proof (is_list_begin _ _ _ Hlf) as Hb. simpl in Hb.
    unfold push_front. rewrite Hb. simpl. by rewrite insert_noop_same.
Qed.

Lemma X7_witness :
  is_Some (push_back full lst e2) ∧
  (h1 ← push_back full lst e2; push_back h1 lst e2) = push_back full lst e2 ∧
  is_Some (push_front full lst e2) ∧
  (h1 ← push_front full lst e2; push_front h1 lst e2) = push_front full lst e2.
Proof.
  apply (X7_push_is_idempotent full lst [e1; e2; e3] e2); by_compute.
Defined.

(** ** Detached nodes, broken lists and fresh lists *)

Section detached_nodes.
Implicit Types (h : heap) (s x y a : addr) (l : list addr).

Lemma erase_unlinked h x : fprev h x = Some None → erase h (Some x) = None.
Proof.
  intros Hx. unfold erase, remove. simpl.
  destruct (fnext h x) as [nx|]; simpl; [|done].
  rewrite Hx. simpl. done.
Qed.

Lemma erase_null h : erase h None = None.
Proof. done. Qed.

Lemma untied_sentinel h s :
  fprev h s = Some None → fnext h s = Some None →
  empty h s = Some false ∧ pop_front h s = None ∧ pop_back h s = None ∧
  (∀ x, x ≠ s → push_back h s x = None ∧ push_front h s x = None) ∧
  (∀ fuel, untie_all fuel h s = None ∧ list_dtor fuel h s = None).
Proof.
  intros Hp Hn.
  assert (empty h s = Some false) as He.
  { unfold empty, list_begin. by rewrite Hn. }
  assert (pop_front h s = None) as Hpf.
  { unfold pop_front, list_begin. by rewrite Hn. }
  split; [done|]. split; [done|]. split; [|split].
  - unfold pop_back, it_dec, list_end. by rewrite rd_prev_Some, Hp.
  - intros x Hx. split.
    + unfold push_back, list_end. by rewrite insert_fails_unlinked_pos.
    + unfold push_front, list_begin. rewrite Hn. simpl.
      by unfold insert, rd_prev.
  - intros fuel.
    assert (untie_all fuel h s = None) as Hu.
    { destruct fuel; simpl; rewrite He; simpl; [done|]. by rewrite Hpf. }
    split; [done|]. unfold list_dtor. by rewrite Hu.
Qed.

Lemma pop_empty h s :
  heap_ok h → is_list h s [] →
  pop_front h s = Some (<[s := Node None None]> h) ∧
  pop_back h s = Some (<[s := Node None None]> h).
Proof.
  intros Hok Hl.
  pose proof (is_list_begin _ _ _ Hl) as Hn. unfold list_begin in Hn.
  simpl in Hn. pose proof (heap_ok_next_prev _ _ _ Hok Hn) as Hp.
  pose proof (fnext_alloc _ _ _ Hn) as As.
  assert (removed h s s s = <[s := Node None None]> h) as E.
  { apply heap_ext; intros u.
    - rewrite removed_fnext, fnext_fresh by done.
      by repeat case_decide.
    - rewrite removed_fprev, fprev_fresh by done.
      by repeat case_decide. }
  unfold pop_front, pop_back, list_begin, list_end, it_dec.
  rewrite rd_prev_Some, Hn, Hp. simpl. unfold erase. simpl.
  rewrite (remove_spec h s s s) by done. simpl. by rewrite E.
Qed.
End detached_nodes.

(** X8.  A live node that is in no list cannot be used as an iterator:
    [erase] of it and [insert] before it dereference a null reference, and
    [++] and [--] yield the null iterator, which cannot be advanced.  In
    particular a member cannot be erased twice. *)
Theorem X8_detached_node_is_no_position :
  (∀ (h : heap) (x : addr),
     heap_ok h → fprev h x = Some None →
     is_linked h x = Some false ∧
     erase h (Some x) = None ∧
     (∀ y, y ≠ x → insert h (Some x) y = None) ∧
     it_inc h (Some x) = Some None ∧ it_dec h (Some x) = Some None ∧
     it_inc h None = None ∧ it_dec h None = None)
  ∧ (∀ (h : heap) (s : addr) (l1 : list addr) (x : addr) (l2 : list addr),
       heap_ok h → is_list h s (l1 ++ x :: l2) →
       ('(h1, _) ← erase h (Some x); erase h1 (Some x)) = None).
Proof.
  split.
  - intros h x Hok Hx.
    pose proof (proj2 (heap_ok_null _ x Hok) Hx) as Hn.
    split; [by rewrite (is_linked_spec _ _ _ Hx)|].
    split; [by apply erase_unlinked|].
    split; [intros y Hy; by apply insert_fails_unlinked_pos|].
    unfold it_inc, it_dec, rd_next. rewrite rd_prev_Some. simpl.
    by rewrite Hx, Hn.
  - intros h s l1 x l2 Hok Hl.
    destruct (erase_list_spec _ _ _ _ _ Hok Hl)
      as (h' & l0 & p & _ & -> & _ & _ & Hx & _).
    simpl. apply erase_unlinked. unfold fprev. by rewrite Hx.
Qed.

Lemma X8_witness :
  (is_linked with_spare e6 = Some false ∧
   erase with_spare (Some e6) = None ∧
   (∀ y, y ≠ e6 → insert with_spare (Some e6) y = None) ∧
   it_inc with_spare (Some e6) = Some None ∧
   it_dec with_spare (Some e6) = Some None ∧
   it_inc with_spare None = None ∧ it_dec with_spare None = None)
  ∧ ('(h1, _) ← erase full (Some e2); erase h1 (Some e2)) = None.
Proof.
  split.
  - apply (proj1 X8_detached_node_is_no_position with_spare e6); by_compute.
  - apply (proj2 X8_detached_node_is_no_position full lst [e1] e2 [e3]);
      by_compute.
Defined.

(** X9.  [pop_front] and [pop_back] on an empty list do not fail: they
    remove the sentinel from its own ring and leave it unlinked.  The list
    object is broken afterwards: [empty()] answers false, and every further
    [pop], every [push] of another node, and the clearing loop of the
    destructor and of move assignment dereference a null reference. *)
Theorem X9_pop_on_empty_list_breaks_the_list :
  ∀ (h : heap) (s : addr),
    heap_ok h → is_list h s [] →
    let h' := <[s := Node None None]> h in
    pop_front h s = Some h' ∧ pop_back h s = Some h' ∧
    empty h' s = Some false ∧ pop_front h' s = None ∧ pop_back h' s = None ∧
    (∀ x, x ≠ s → push_back h' s x = None ∧ push_front h' s x = None) ∧
    (∀ fuel, untie_all fuel h' s = None ∧ list_dtor fuel h' s = None).
Proof.
  intros h s Hok Hl h'.
  destruct (pop_empty h s Hok Hl) as [E1 E2].
  split; [done|]. split; [done|].
  apply untied_sentinel; unfold h'.
  - rewrite fprev_fresh. by rewrite decide_True.
  - rewrite fnext_fresh. by rewrite decide_True.
Qed.

Lemma X9_witness :
  let h' := <[lst := Node None None]> built2 in
  pop_front built2 lst = Some h' ∧ pop_back built2 lst = Some h' ∧
  empty h' lst = Some false ∧ pop_front h' lst = None ∧ pop_back h' lst = None ∧
  (∀ x, x ≠ lst → push_back h' lst x = None ∧ push_front h' lst x = None) ∧
  (∀ fuel, untie_all fuel h' lst = None ∧ list_dtor fuel h' lst = None).
Proof.
  apply (X9_pop_on_empty_list_breaks_the_list built2 lst); by_compute.
Defined.

(** X10.  [list()] in fresh storage gives an empty list: [begin() == end()],
    iteration visits nothing, [front()] and [back()] refer to the sentinel;
    every other node and every other list is left as it was. *)
Theorem X10_default_constructed_list_is_empty :
  ∀ (h : heap) (s : addr),
    heap_ok h → h !! s = None →
    ∃ h', list_ctor h s = Some h' ∧ heap_ok h' ∧ is_list h' s [] ∧
      list_begin h' s = Some (list_end s) ∧ empty h' s = Some true ∧
      (∀ fuel, to_list fuel h' s = Some []) ∧
      h' = <[s := Node (Some s) (Some s)]> h ∧
      (∀ s' l', is_list h s' l' → is_list h' s' l').
Proof.
  intros h s Hok Hs.
  set (h0 := <[s := Node None None]> h).
  assert (is_Some (h0 !! s)) as A0 by (unfold h0; by rewrite lookup_insert_eq).
  assert (heap_ok h0) as Hok0 by by apply fresh_ok.
  assert (fprev h0 s = Some None) as Hp0.
  { unfold h0. rewrite fprev_fresh. by rewrite decide_True. }
  exists (tied h0 s). unfold list_ctor.
  rewrite (base_ctor_spec _ _ Hs). simpl. fold h0.
  rewrite (tie_tied _ _ A0).
  assert (is_list (tied h0 s) s []) as Hl.
  { split; [apply NoDup_singleton|]. simpl. split; [|done].
    rewrite tied_fnext by done. by rewrite decide_True. }
  split; [done|]. split; [apply tied_ok; auto|]. split; [done|].
  split; [by rewrite (is_list_begin _ _ _ Hl)|].
  split; [by rewrite (empty_spec _ _ _ Hl)|].
  split; [intros fuel; apply is_list_to_list; [done|simpl; lia]|].
  split.
  - apply map_eq. intros u. unfold tied. rewrite lookup_set_p, lookup_set_n.
    unfold h0. destruct (decide (u = s)) as [->|Hu].
    + by rewrite !lookup_insert_eq.
    + by rewrite !lookup_insert_ne.
  - intros s' l' [Hnd Hc]. split; [done|].
    assert (s ∉ s' :: l') as Hns.
    { intros Hin. destruct (chain_alloc _ _ _ _ Hc Hin) as [? E]. congruence. }
    apply (chain_frame h0); [|by apply chain_fresh_frame].
    intros u Hu. rewrite tied_fnext by done.
    rewrite decide_False; [done|]. intros ->. done.
Qed.

Lemma X10_witness :
  ∃ h', list_ctor full lst2 = Some h' ∧ heap_ok h' ∧ is_list h' lst2 [] ∧
    list_begin h' lst2 = Some (list_end lst2) ∧ empty h' lst2 = Some true ∧
    (∀ fuel, to_list fuel h' lst2 = Some []) ∧
    h' = <[lst2 := Node (Some lst2) (Some lst2)]> full ∧
    (∀ s' l', is_list full s' l' → is_list h' s' l').
Proof.
  apply (X10_default_constructed_list_is_empty full lst2); by_compute.
Defined.

(** ** Storage *)

Section storage.
Implicit Types (h : heap) (s x this other : addr) (q v : ptr).

Lemma wr_next_dom h q v h' : wr_next h q v = Some h' → dom h' = dom h.
Proof.
  intros E. apply wr_next_inv in E as (a & _ & _ & ->).
  apply dom_alloc_eq. intros u. apply alloc_set_n.
Qed.

Lemma wr_prev_dom h q v h' : wr_prev h q v = Some h' → dom h' = dom h.
Proof.
  intros E. apply wr_prev_inv in E as (a & _ & _ & ->).
  apply dom_alloc_eq. intros u. apply alloc_set_p.
Qed.
End storage.

(** Inversion of a successful run of monadic code, keeping of every write
    only that it leaves the set of live addresses as it is. *)
Ltac dom_step :=
  match goal with
  | E : wr_next _ _ _ = Some _ |- _ => apply wr_next_dom in E
  | E : wr_prev _ _ _ = Some _ |- _ => apply wr_prev_dom in E
  | E : (_ ≫= _) = Some _ |- _ =>
      let E' := fresh "E" in apply bind_Some in E as (? & E' & E)
  | E : (_ <$> _) = Some _ |- _ =>
      let E' := fresh "E" in apply fmap_Some in E as (? & E' & ?)
  | E : (if ?b then _ else _) = Some _ |- _ => destruct b
  | E : (let '(_, _) := ?x in _) = Some _ |- _ => destruct x
  | E : Some _ = Some _ |- _ => injection E as E
  | E : None = Some _ |- _ => discriminate E
  end.
Ltac dom_inv := repeat dom_step; simpl in *; subst; try congruence.

Section storage_of_operations.
Implicit Types (h : heap) (s x this other : addr) (q v : ptr).

Lemma unlink_dom h x h' : unlink h x = Some h' → dom h' = dom h.
Proof. unfold unlink. intros E. dom_inv. Qed.

Lemma tie_dom h x h' : tie h x = Some h' → dom h' = dom h.
Proof. unfold tie. intros E. dom_inv. Qed.

Lemma remove_dom h x (r : heap * ptr) :
  remove h x = Some r → dom r.1 = dom h.
Proof.
  unfold remove. intros E. repeat dom_step.
  match goal with H : unlink _ _ = Some _ |- _ => apply unlink_dom in H end.
  subst. simpl. congruence.
Qed.

Lemma erase_dom h q (r : heap * ptr) : erase h q = Some r → dom r.1 = dom h.
Proof.
  unfold erase. destruct q as [a|]; simpl; [|done]. apply remove_dom.
Qed.

Lemma insert_after_dom h q v (r : heap * ptr) :
  insert_after h q v = Some r → dom r.1 = dom h.
Proof.
  unfold insert_after. intros E. repeat dom_step;
    try match goal with H : remove _ _ = Some _ |- _ => apply remove_dom in H end;
    subst; simpl; congruence.
Qed.

Lemma insert_dom h q x (r : heap * ptr) :
  insert h q x = Some r → dom r.1 = dom h.
Proof.
  unfold insert. intros E. repeat dom_step;
    try match goal with H : insert_after _ _ _ = Some _ |- _ =>
      apply insert_after_dom in H end;
    subst; simpl; congruence.
Qed.

Lemma push_back_dom h s x h' : push_back h s x = Some h' → dom h' = dom h.
Proof.
  unfold push_back. intros E. apply fmap_Some in E as (r & E & ->).
  by apply insert_dom in E.
Qed.

Lemma push_front_dom h s x h' : push_front h s x = Some h' → dom h' = dom h.
Proof.
  unfold push_front. intros E. apply bind_Some in E as (b & _ & E).
  apply fmap_Some in E as (r & E & ->). by apply insert_dom in E.
Qed.

Lemma pop_back_dom h s h' : pop_back h s = Some h' → dom h' = dom h.
Proof.
  unfold pop_back. intros E. apply bind_Some in E as (b & _ & E).
  apply fmap_Some in E as (r & E & ->). by apply erase_dom in E.
Qed.

Lemma pop_front_dom h s h' : pop_front h s = Some h' → dom h' = dom h.
Proof.
  unfold pop_front. intros E. apply bind_Some in E as (b & _ & E).
  apply fmap_Some in E as (r & E & ->). by apply erase_dom in E.
Qed.

Lemma splice_dom h q o v w h' : splice h q o v w = Some h' → dom h' = dom h.
Proof. unfold splice. intros E. dom_inv. Qed.

Lemma untie_all_dom fuel h s h' : untie_all fuel h s = Some h' → dom h' = dom h.
Proof.
  revert h. induction fuel as [|fuel IH]; intros h E; simpl in E.
  - dom_inv.
  - apply bind_Some in E as (e & _ & E). destruct e; [by simplify_eq|].
    apply bind_Some in E as (h1 & E1 & E).
    apply pop_front_dom in E1. apply IH in E. congruence.
Qed.

Lemma move_dom h this other h' : move h this other = Some h' → dom h' = dom h.
Proof.
  unfold move. intros E. apply bind_Some in E as (e & _ & E).
  destruct e; simpl in E; [by apply tie_dom in E|].
  apply bind_Some in E as (last & _ & E).
  apply bind_Some in E as ([h1 r1] & E1 & E).
  apply bind_Some in E as ([h2 r2] & E2 & E).
  apply remove_dom in E1. apply insert_after_dom in E2. apply tie_dom in E.
  simpl in *. congruence.
Qed.

Lemma base_ctor_dom h x h' : base_ctor h x = Some h' → dom h' = {[x]} ∪ dom h.
Proof. intros E. apply base_ctor_inv in E as [_ ->]. apply dom_insert_L. Qed.

Lemma base_dtor_dom h x h' : base_dtor h x = Some h' → dom h' = dom h ∖ {[x]}.
Proof.
  unfold base_dtor. intros E. apply bind_Some in E as (l & _ & E).
  apply bind_Some in E as (h1 & E1 & E).
  apply bind_Some in E as (h2 & E2 & E). simplify_eq.
  rewrite dom_delete_L. apply unlink_dom in E2. rewrite E2.
  destruct l; [|by simplify_eq].
  apply fmap_Some in E1 as (r & E1 & ->). apply remove_dom in E1. by rewrite E1.
Qed.

Lemma base_move_ctor_dom h this other h' :
  base_move_ctor h this other = Some h' → dom h' = {[this]} ∪ dom h.
Proof.
  unfold base_move_ctor. intros E. apply bind_Some in E as (h0 & E0 & E).
  apply base_ctor_dom in E0. rewrite <-E0. clear E0.
  repeat dom_step;
    try match goal with H : unlink _ _ = Some _ |- _ => apply unlink_dom in H end;
    subst; congruence.
Qed.

Lemma run_public_dom fuel h o h' :
  run_public fuel h o = Some h' → dom h' = live_after (dom h) o.
Proof.
  destruct o; simpl; intros E.
  - by apply base_ctor_dom.
  - by apply base_move_ctor_dom in E.
  - by apply base_dtor_dom.
  - unfold list_ctor in E. apply bind_Some in E as (h0 & E0 & E).
    apply base_ctor_dom in E0. apply tie_dom in E. congruence.
  - unfold list_move_ctor in E. apply bind_Some in E as (h0 & E0 & E).
    apply base_ctor_dom in E0. apply move_dom in E. congruence.
  - unfold list_move_assign in E. apply bind_Some in E as (h0 & E0 & E).
    apply untie_all_dom in E0. apply move_dom in E. congruence.
  - unfold list_dtor in E. apply bind_Some in E as (h0 & E0 & E).
    apply untie_all_dom in E0. apply base_dtor_dom in E. congruence.
  - by apply push_back_dom in E.
  - by apply push_front_dom in E.
  - by apply pop_back_dom in E.
  - by apply pop_front_dom in E.
  - apply fmap_Some in E as (r & E & ->). by apply erase_dom in E.
  - apply fmap_Some in E as (r & E & ->). by apply insert_dom in E.
  - by apply splice_dom in E.
Qed.
End storage_of_operations.

(** X11.  Storage accounting, for every public operation that returns and
    without any assumption on the store: the constructors add exactly the
    address of the constructed object to the live addresses, the
    destructors remove exactly the address of the destroyed object, and no
    other operation creates or releases a node.  In particular [erase],
    [pop_front], [pop_back], move assignment and the destructor of a list
    never end the lifetime of an element, and moving from a node or a list
    leaves the source alive. *)
Theorem X11_storage_accounting :
  ∀ (fuel : nat) (h : heap) (o : public_op) (h' : heap),
    run_public fuel h o = Some h' → dom h' = live_after (dom h) o.
Proof. intros fuel h o h'. apply run_public_dom. Qed.

Lemma X11_witness :
  ∃ h', run_public 3 full (ListDtor lst) = Some h' ∧
        dom h' = live_after (dom full) (ListDtor lst).
Proof.
  eexists. split; [vm_compute; reflexivity|].
  apply (X11_storage_accounting 3 full (ListDtor lst)).
  vm_compute; reflexivity.
Defined.

(** ** Clearing, destroying and assigning lists *)

Section clearing.
Implicit Types (h : heap) (s x this other p n : addr) (l : list addr).

Lemma removed_lookup_frame h x p n u :
  u ≠ x → u ≠ p → u ≠ n → removed h x p n !! u = h !! u.
Proof.
  intros. unfold removed.
  rewrite lookup_set_p, decide_False, lookup_set_n, decide_False by done.
  by rewrite lookup_set_p, decide_False, lookup_set_n, decide_False by done.
Qed.

Lemma removed_lookup_self h x p n :
  is_Some (h !! x) → removed h x p n !! x = Some (Node None None).
Proof.
  intros [nd E]. unfold removed.
  rewrite lookup_set_p, decide_True, lookup_set_n, decide_True by done.
  destruct (set_p n (Some p) (set_n p (Some n) h) !! x) as [nd'|] eqn:E'; [done|].
  assert (is_Some (set_p n (Some p) (set_n p (Some n) h) !! x)) as [? ?];
    [|congruence].
  apply alloc_set_p, alloc_set_n. by eexists.
Qed.

(** The clearing loop detaches the members one by one from the front; no
    node outside the list is touched. *)
Lemma untie_all_full h s l fuel :
  heap_ok h → is_list h s l → length l ≤ fuel →
  ∃ h', untie_all fuel h s = Some h' ∧ heap_ok h' ∧ is_list h' s [] ∧
        (∀ x, x ∈ l → h' !! x = Some (Node None None)) ∧
        (∀ u, u ∉ s :: l → h' !! u = h !! u).
Proof.
  revert h fuel. induction l as [|x l IH]; intros h fuel Hok Hl Hlen.
  - exists h. split_and!; [|done|done|by intros ? ?%elem_of_nil|done].
    destruct fuel; simpl; by rewrite (empty_spec _ _ _ Hl).
  - destruct fuel as [|fuel]; [simpl in Hlen; lia|]. simpl in Hlen.
    simpl. rewrite (empty_spec _ _ _ Hl). simpl.
    destruct (is_list_fields h s [] x l Hok Hl) as (l0 & p & E & Hp & Hn).
    assert (p = s) as ->.
    { destruct l0 as [|? [|? ?]]; simplify_eq/=; done. }
    clear E. set (n := hd s l) in *.
    pose proof (heap_ok_prev_next _ _ _ Hok Hp) as Hsn.
    pose proof (heap_ok_next_prev _ _ _ Hok Hn) as Hnp.
    assert (is_Some (h !! s)) as As by solve_alloc.
    assert (is_Some (h !! n)) as An by solve_alloc.
    assert (is_Some (h !! x)) as Ax by solve_alloc.
    destruct (erase_list_spec h s [] x l Hok Hl)
      as (h1 & _ & _ & _ & Ee & Hok1 & Hl1 & _).
    unfold pop_front, list_begin. rewrite Hsn. simpl. rewrite Ee. simpl.
    assert (h1 = removed h x s n) as E1.
    { unfold erase in Ee. simpl in Ee.
      rewrite (remove_spec _ _ _ _ Hp Hn As An) in Ee. congruence. }
    destruct (IH h1 fuel Hok1 Hl1 ltac:(lia)) as (h' & Eu & Hok' & Hl' & Hm & Hf).
    exists h'. split_and!; [done..| |].
    + intros y [->|Hy]%elem_of_cons; [|by apply Hm].
      destruct Hl as [Hnd _]. rewrite Hf.
      * rewrite E1. by apply removed_lookup_self.
      * apply NoDup_cons in Hnd as [Hs Hnd]. apply NoDup_cons in Hnd as [Hx _].
        clear -Hs Hx. set_solver.
    + intros u Hu. rewrite Hf by (clear -Hu; set_solver).
      rewrite E1. apply removed_lookup_frame.
      * clear -Hu. set_solver.
      * clear -Hu. set_solver.
      * intros ->. apply Hu. unfold n.
        destruct (hd_elem s l) as [?|[_ ->]]; [|by left].
        right. by right.
Qed.

Lemma tied_id h x :
  fprev h x = Some (Some x) → fnext h x = Some (Some x) → tied h x = h.
Proof.
  intros Hp Hn. assert (is_Some (h !! x)) as Ax by solve_alloc.
  apply heap_ext; intros u.
  - rewrite tied_fnext by done. case_decide; by subst.
  - rewrite tied_fprev by done. case_decide; by subst.
Qed.

Lemma lookup_fields h u nd :
  fprev h u = Some (prev nd) → fnext h u = Some (next nd) → h !! u = Some nd.
Proof.
  unfold fprev, fnext. destruct (h !! u) as [[p n]|]; simpl; [|done].
  destruct nd. simpl. congruence.
Qed.
End clearing.

Section assignment.
Implicit Types (h : heap) (s x this other p n : addr) (l : list addr).

(** [move] into a list that is empty behaves as [move] into a sentinel that
    is unlinked: [insert_after] first removes the destination sentinel from
    its ring of one node. *)
Lemma move_tied h this other l :
  heap_ok h → is_list h other l → fprev h this = Some (Some this) →
  this ∉ other :: l →
  move h this other = move (detached h this) this other.
Proof.
  intros Hok Hl Ht Hnin.
  pose proof (heap_ok_prev_next _ _ _ Hok Ht) as Htn.
  assert (is_Some (h !! this)) as At by solve_alloc.
  assert (this ≠ other) as Hto by (intros ->; apply Hnin; by left).
  assert (this ∉ l) as Htl by (intros ?; apply Hnin; by right).
  assert (detached h this = removed h this this this) as Ed.
  { unfold detached. by rewrite Ht, Htn. }
  pose proof (detached_ok _ this Hok) as Hok0.
  pose proof (detached_is_list _ this _ _ Hok Hl Hto) as Hl0.
  rewrite (list_without_notin _ _ Htl) in Hl0.
  destruct (detached_unlinked h this Hok At) as [Ht0 Htn0].
  assert (∀ u, is_Some (detached h this !! u) ↔ is_Some (h !! u)) as A0
    by (intros; apply detached_alloc).
  set (h0 := detached h this) in *.
  unfold move. rewrite (empty_spec _ _ _ Hl), (empty_spec _ _ _ Hl0).
  case_bool_decide as Hnil; simpl.
  - rewrite !tie_tied by (done || by apply A0). f_equal.
    apply heap_ext; intros u.
    + rewrite !tied_fnext by (done || by apply A0). case_decide; [done|].
      rewrite Ed, removed_fnext by done. by rewrite !decide_False.
    + rewrite !tied_fprev by (done || by apply A0). case_decide; [done|].
      rewrite Ed, removed_fprev by done. by rewrite !decide_False.
  - pose proof (is_list_last _ _ _ Hok Hl) as Hp.
    pose proof (is_list_last _ _ _ Hok0 Hl0) as Hp0.
    pose proof (is_list_begin _ _ _ Hl) as Hn.
    pose proof (is_list_begin _ _ _ Hl0) as Hn0.
    unfold list_begin in Hn, Hn0.
    pose proof (last_elem other l) as Hpin.
    assert (hd other l ∈ other :: l) as Hyin.
    { destruct (hd_elem other l) as [?|[_ ->]]; [by right|by left]. }
    set (p := default other (last l)) in *. set (y := hd other l) in *.
    assert (p ≠ this) as Hpt by (intros ->; done).
    assert (y ≠ this) as Hyt by (intros ->; done).
    assert (p ≠ other) as Hpo.
    { unfold p. destruct (last l) as [z|] eqn:El.
      - simpl. destruct Hl as [Hnd _]. apply NoDup_cons in Hnd as [Hs _].
        intros ->. apply Hs. by eapply last_Some_elem_of.
      - by apply last_None in El. }
    assert (is_Some (h !! other)) as Ao by solve_alloc.
    assert (is_Some (h !! p)) as Ap by (by apply (is_list_alloc _ _ _ _ Hl)).
    assert (is_Some (h !! y)) as Ay by (by apply (is_list_alloc _ _ _ _ Hl)).
    rewrite Hp, Hp0. simpl.
    rewrite (remove_spec h other p y), (remove_spec h0 other p y)
      by (done || by apply A0).
    simpl.
    set (h1 := removed h other p y). set (h1' := removed h0 other p y).
    assert (∀ u, is_Some (h1 !! u) ↔ is_Some (h !! u)) as A1
      by (intros; apply removed_alloc).
    assert (∀ u, is_Some (h1' !! u) ↔ is_Some (h !! u)) as A1'.
    { intros. unfold h1'. rewrite removed_alloc. apply A0. }
    assert (heap_ok h1) as Hok1 by by apply removed_ok.
    assert (heap_ok h1') as Hok1' by by apply removed_ok.
    assert (fnext h1 p = Some (Some y)) as Hp1.
    { unfold h1. rewrite removed_fnext by done.
      rewrite decide_False by done. by rewrite decide_True. }
    assert (fnext h1' p = Some (Some y)) as Hp1'.
    { unfold h1'. rewrite removed_fnext by by apply A0.
      rewrite decide_False by done. by rewrite decide_True. }
    rewrite (insert_after_spec h1 p this y) by (done || by apply A1).
    rewrite (insert_after_spec h1' p this y) by (done || by apply A1').
    simpl.
    assert (detached h1 this = detached h1' this) as ->; [|done].
    assert (fprev h1' this = Some None) as Ht1'.
    { unfold h1'. rewrite removed_fprev by by apply A0.
      by rewrite !decide_False. }
    rewrite (detached_unlinked_id h1') by done.
    assert (detached h1 this = removed h1 this this this) as ->.
    { unfold detached, h1. rewrite removed_fprev, removed_fnext by done.
      rewrite !decide_False by done. by rewrite Ht, Htn. }
    apply heap_ext; intros u.
    + unfold h1', h1. rewrite !removed_fnext by (done || by apply A0 || by apply A1).
      rewrite Ed, removed_fnext by done.
      repeat case_decide; subst; congruence.
    + unfold h1', h1. rewrite !removed_fprev by (done || by apply A0 || by apply A1).
      rewrite Ed, removed_fprev by done.
      repeat case_decide; subst; congruence.
Qed.

(** [move] leaves a node that is in no list as it is. *)
Lemma move_unlinked_frame h this other h' u :
  heap_ok h → move h this other = Some h' →
  fprev h this = Some None ∨ fprev h this = Some (Some this) →
  u ≠ this → u ≠ other → fprev h u = Some None →
  h' !! u = Some (Node None None).
Proof.
  intros Hok E Hthis Hut Huo Hu.
  pose proof (move_inv _ _ _ _ Hok E Hthis) as Hok'.
  assert (fprev h' u = Some None) as Hu'.
  { unfold move, empty, list_begin, it_eq, list_end in E.
    destruct (fnext h other) as [b|] eqn:Hn; simpl in E; [|done].
    case_bool_decide as Hb; simpl in E.
    { apply tie_inv in E as [At ->]. rewrite tied_fprev by done.
      by rewrite decide_False. }
    destruct (fprev h other) as [lastp|] eqn:Hp; simpl in E; [|done].
    destruct (remove h other) as [[h1 r1]|] eqn:Hr; simpl in E; [|done].
    destruct (remove_inv _ _ _ _ Hok Hr) as (p & n & Hp' & Hn' & -> & _ & Hok1).
    rewrite Hp in Hp'. rewrite Hn in Hn'. simplify_eq.
    assert (is_Some (h !! other)) as Ao by solve_alloc.
    pose proof (heap_ok_prev_next _ _ _ Hok Hp) as Hpn.
    pose proof (heap_ok_next_prev _ _ _ Hok Hn) as Hnp.
    assert (is_Some (h !! p)) as Ap by solve_alloc.
    assert (is_Some (h !! n)) as An by solve_alloc.
    assert (n ≠ other) as Hno by congruence.
    assert (p ≠ other) as Hpo by (intros ->; congruence).
    destruct (insert_after (removed h other p n) (Some p) (Some this))
      as [[h2 r2]|] eqn:Hia; simpl in E; [|done].
    destruct (insert_after_inv _ _ _ _ _ Hok1 Hia) as (t & Ht & At & ->).
    rewrite removed_fnext in Ht by done.
    rewrite decide_False, decide_True in Ht by done. simplify_eq.
    apply tie_inv in E as [Ao' ->]. rewrite tied_fprev by done.
    rewrite decide_False by done.
    rewrite inserted_fprev;
      [|by rewrite detached_alloc|rewrite detached_alloc; by apply removed_alloc].
    assert (u ≠ t) as Hutt by (intros ->; congruence).
    rewrite !decide_False by done. apply detached_keeps_unlinked; [done|].
    rewrite removed_fprev by done. by rewrite !decide_False. }
  pose proof (proj2 (heap_ok_null _ u Hok') Hu') as Hn'.
  by apply lookup_fields.
Qed.
End assignment.

(** X12.  [~list()] on a list with the members [l]: every member stays
    alive and is left unlinked, the storage of the sentinel is released, no
    node outside the list is touched, and no node of the store references
    the released sentinel. *)
Theorem X12_list_destructor_detaches_members :
  ∀ (h : heap) (s : addr) (l : list addr) (fuel : nat),
    heap_ok h → is_list h s l → length l ≤ fuel →
    ∃ h', list_dtor fuel h s = Some h' ∧ h' !! s = None ∧
      (∀ x, x ∈ l → h' !! x = Some (Node None None)) ∧
      (∀ u, u ∉ s :: l → h' !! u = h !! u) ∧
      heap_ok h' ∧
      (∀ u nd, h' !! u = Some nd → prev nd ≠ Some s ∧ next nd ≠ Some s).
Proof.
  intros h s l fuel Hok Hl Hlen.
  destruct (untie_all_full h s l fuel Hok Hl Hlen)
    as (h1 & Eu & Hok1 & Hl1 & Hm & Hf).
  pose proof (is_list_begin _ _ _ Hl1) as Hn. unfold list_begin in Hn.
  simpl in Hn. pose proof (heap_ok_next_prev _ _ _ Hok1 Hn) as Hp.
  unfold list_dtor. rewrite Eu. simpl.
  rewrite (base_dtor_linked _ _ _ _ Hok1 Hp Hn).
  assert (heap_ok (delete s (removed h1 s s s))) as Hok'.
  { apply (base_dtor_inv h1 s); [done|].
    by rewrite (base_dtor_linked _ _ _ _ Hok1 Hp Hn). }
  eexists. split; [done|]. split; [by rewrite lookup_delete_eq|].
  destruct Hl as [Hnd _]. apply NoDup_cons in Hnd as [Hs _].
  split_and!; [| |done|].
  - intros x Hx. assert (x ≠ s) as Hxs by (intros ->; done).
    rewrite lookup_delete_ne by done.
    rewrite removed_lookup_frame by done. by apply Hm.
  - intros u Hu. assert (u ≠ s) as Hus by (intros ->; apply Hu; by left).
    rewrite lookup_delete_ne by done.
    rewrite removed_lookup_frame by done. by apply Hf.
  - intros u nd Hu. apply (heap_ok_no_dangling _ s u nd Hok'); [|done].
    by rewrite lookup_delete_eq.
Qed.

Lemma X12_witness :
  ∃ h', list_dtor 3 two_lists lst = Some h' ∧ h' !! lst = None ∧
    (∀ x, x ∈ [e1; e2; e3] → h' !! x = Some (Node None None)) ∧
    (∀ u, u ∉ lst :: [e1; e2; e3] → h' !! u = two_lists !! u) ∧
    heap_ok h' ∧
    (∀ u nd, h' !! u = Some nd → prev nd ≠ Some lst ∧ next nd ≠ Some lst).
Proof.
  apply (X12_list_destructor_detaches_members two_lists lst [e1; e2; e3] 3);
    [by_compute|by_compute|simpl; lia].
Defined.

(** X13.  Move assignment [dst = std::move(src)] between two separate
    lists: the former members of [dst] stay alive and are left unlinked,
    [dst] then holds exactly the sequence of [src], and [src] is empty. *)
Theorem X13_move_assignment_replaces_contents :
  ∀ (h : heap) (dst src : addr) (ld ls : list addr) (fuel : nat),
    heap_ok h → is_list h dst ld → is_list h src ls →
    dst ≠ src → dst ∉ ls → src ∉ ld → length ld ≤ fuel →
    ∃ h', list_move_assign fuel h dst src = Some h' ∧ heap_ok h' ∧
      is_list h' dst ls ∧ is_list h' src [] ∧
      (∀ x, x ∈ ld → h' !! x = Some (Node None None)) ∧
      dom h' = dom h.
Proof.
  intros h dst src ld ls fuel Hok Hld Hls Hne Hdl Hsl Hlen.
  destruct (untie_all_full h dst ld fuel Hok Hld Hlen)
    as (h1 & Eu & Hok1 & Hl1 & Hm & Hf).
  assert (∀ u, u ∈ src :: ls → u ∉ dst :: ld) as Hdisj.
  { intros u [->|Hu]%elem_of_cons [E|Hu']%elem_of_cons; try done.
    - by subst.
    - by apply (lists_disjoint h dst ld src ls u). }
  assert (is_list h1 src ls) as Hls1.
  { destruct Hls as [Hnd Hc]. split; [done|].
    apply (chain_frame h); [|done]. intros u Hu. unfold fnext.
    by rewrite Hf by by apply Hdisj. }
  pose proof (is_list_begin _ _ _ Hl1) as Hn. unfold list_begin in Hn.
  simpl in Hn. pose proof (heap_ok_next_prev _ _ _ Hok1 Hn) as Hp.
  assert (is_Some (h1 !! dst)) as Ad by solve_alloc.
  assert (dst ∉ src :: ls) as Hnin.
  { intros [E|?]%elem_of_cons; done. }
  assert (list_move_assign fuel h dst src = move h1 dst src) as E.
  { unfold list_move_assign. by rewrite Eu. }
  rewrite E.
  pose proof (move_tied h1 dst src ls Hok1 Hls1 Hp Hnin) as Emv.
  assert (is_list (detached h1 dst) src ls) as Hls0.
  { pose proof (detached_is_list _ dst _ _ Hok1 Hls1 Hne) as H.
    rewrite list_without_notin in H; [done|]. intros ?. apply Hnin. by right. }
  destruct (detached_unlinked h1 dst Hok1 Ad) as [Hd0 _].
  destruct (move_spec (detached h1 dst) dst src ls (detached_ok _ _ Hok1) Hls0 Hd0)
    as (h' & Hmv & Hok' & Hd' & Hs' & _).
  rewrite <-Emv in Hmv. exists h'.
  split_and!; [done..| |].
  - intros x Hx. apply (move_unlinked_frame h1 dst src h' x Hok1 Hmv).
    + by right.
    + destruct Hld as [Hnd _]. apply NoDup_cons in Hnd as [Hs _].
      intros ->. done.
    + intros ->. done.
    + unfold fprev. by rewrite (Hm x Hx).
  - apply move_dom in Hmv. apply untie_all_dom in Eu. congruence.
Qed.

Lemma X13_witness :
  ∃ h', list_move_assign 3 two_lists lst lst2 = Some h' ∧ heap_ok h' ∧
    is_list h' lst [e4; e5] ∧ is_list h' lst2 [] ∧
    (∀ x, x ∈ [e1; e2; e3] → h' !! x = Some (Node None None)) ∧
    dom h' = dom two_lists.
Proof.
  apply (X13_move_assignment_replaces_contents
           two_lists lst lst2 [e1; e2; e3] [e4; e5] 3);
    [by_compute|by_compute|by_compute|by_compute|by_compute|by_compute|simpl; lia].
Defined.

(** X14.  Self move assignment [x = std::move(x)] is not the identity: the
    assignment has no self check, it clears the list first and then ties
    the already tied sentinel; the members are left unlinked. *)
Theorem X14_self_move_assignment_clears :
  ∀ (h : heap) (s : addr) (l : list addr) (fuel : nat),
    heap_ok h → is_list h s l → length l ≤ fuel →
    ∃ h', list_move_assign fuel h s s = Some h' ∧
      untie_all fuel h s = Some h' ∧ heap_ok h' ∧ is_list h' s [] ∧
      (∀ x, x ∈ l → h' !! x = Some (Node None None)) ∧
      (∀ u, u ∉ s :: l → h' !! u = h !! u).
Proof.
  intros h s l fuel Hok Hl Hlen.
  destruct (untie_all_full h s l fuel Hok Hl Hlen)
    as (h1 & Eu & Hok1 & Hl1 & Hm & Hf).
  pose proof (is_list_begin _ _ _ Hl1) as Hn. unfold list_begin in Hn.
  simpl in Hn. pose proof (heap_ok_next_prev _ _ _ Hok1 Hn) as Hp.
  assert (is_Some (h1 !! s)) as As by solve_alloc.
  exists h1. split_and!; try done.
  unfold list_move_assign. rewrite Eu. simpl.
  unfold move. rewrite (empty_spec _ _ _ Hl1). simpl.
  rewrite tie_tied by done. by rewrite tied_id.
Qed.

Lemma X14_witness :
  ∃ h', list_move_assign 3 full lst lst = Some h' ∧
    untie_all 3 full lst = Some h' ∧ heap_ok h' ∧ is_list h' lst [] ∧
    (∀ x, x ∈ [e1; e2; e3] → h' !! x = Some (Node None None)) ∧
    (∀ u, u ∉ lst :: [e1; e2; e3] → h' !! u = full !! u).
Proof.
  apply (X14_self_move_assignment_clears full lst [e1; e2; e3] 3);
    [by_compute|by_compute|simpl; lia].
Defined.

(** ** Membership and locality *)

Section membership.
Implicit Types (h : heap) (s x u f t p n : addr) (l : list addr).

Lemma is_list_linked h s l x :
  heap_ok h → is_list h s l → x ∈ s :: l → is_linked h x = Some true.
Proof.
  intros Hok Hl [->|Hx]%elem_of_cons.
  - destruct (is_list_sentinel_prev _ _ _ Hok Hl) as (l0 & p & _ & Hp).
    by rewrite (is_linked_spec _ _ _ Hp).
  - apply list_elem_of_split in Hx as (l1 & l2 & ->).
    destruct (is_list_fields _ _ _ _ _ Hok Hl) as (l0 & p & _ & Hp & _).
    by rewrite (is_linked_spec _ _ _ Hp).
Qed.

Lemma inserted_lookup_frame h f x t u :
  u ≠ f → u ≠ x → u ≠ t → inserted h f x t !! u = h !! u.
Proof.
  intros. unfold inserted.
  rewrite lookup_set_p, decide_False, lookup_set_n, decide_False by done.
  by rewrite lookup_set_p, decide_False, lookup_set_n, decide_False by done.
Qed.

Lemma detached_lookup_frame h x u :
  u ≠ x → fprev h x ≠ Some (Some u) → fnext h x ≠ Some (Some u) →
  detached h x !! u = h !! u.
Proof.
  intros Hux Hp Hn. unfold detached.
  destruct (fprev h x) as [[p|]|]; [|done..].
  destruct (fnext h x) as [[n|]|]; [|done..].
  apply removed_lookup_frame; congruence.
Qed.

Lemma erase_local h x h' r u :
  heap_ok h → erase h (Some x) = Some (h', r) →
  u ≠ x → fprev h x ≠ Some (Some u) → fnext h x ≠ Some (Some u) →
  h' !! u = h !! u.
Proof.
  intros Hok E Hux Hp Hn. unfold erase in E. simpl in E.
  destruct (remove_inv _ _ _ _ Hok E) as (p & n & Hp' & Hn' & -> & _ & _).
  apply removed_lookup_frame; congruence.
Qed.

Lemma insert_local h pos x h' r u :
  heap_ok h → insert h (Some pos) x = Some (h', r) →
  u ≠ x → u ≠ pos → fprev h pos ≠ Some (Some u) →
  fprev h x ≠ Some (Some u) → fnext h x ≠ Some (Some u) →
  h' !! u = h !! u.
Proof.
  intros Hok E Hux Hup Hpp Hxp Hxn. unfold insert in E.
  case_decide; [by simplify_eq|]. rewrite !rd_prev_Some in E.
  destruct (fprev h pos) as [[f|]|] eqn:Hp; simpl in E; [| |done].
  - case_decide; [by simplify_eq|].
    destruct (insert_after h (Some f) (Some x)) as [[h1 r1]|] eqn:Hia;
      simpl in E; [|done]. simplify_eq.
    destruct (insert_after_inv _ _ _ _ _ Hok Hia) as (t & Ht & Ax & ->).
    pose proof (heap_ok_prev_next _ _ _ Hok Hp) as Hfn.
    assert (t = pos) as -> by congruence.
    rewrite inserted_lookup_frame by congruence.
    by apply detached_lookup_frame.
  - done.
Qed.
End membership.

(** X15.  [is_linked()] tells membership: it is true for every member and
    for the sentinel of a list, it is false for an element once it has been
    erased, and true once it has been pushed. *)
Theorem X15_is_linked_tells_membership :
  ∀ (h : heap) (s : addr) (l : list addr),
    heap_ok h → is_list h s l →
    (∀ x, x ∈ s :: l → is_linked h x = Some true) ∧
    (∀ x, is_linked h x = Some false → x ∉ s :: l) ∧
    (∀ x, x ∈ l →
       ('(h1, _) ← erase h (Some x); is_linked h1 x) = Some false) ∧
    (∀ x, x ≠ s → is_Some (h !! x) →
       (h1 ← push_back h s x; is_linked h1 x) = Some true ∧
       (h1 ← push_front h s x; is_linked h1 x) = Some true).
Proof.
  intros h s l Hok Hl. split_and!.
  - intros x Hx. by apply (is_list_linked h s l).
  - intros x Hf Hx. rewrite (is_list_linked h s l x Hok Hl Hx) in Hf. done.
  - intros x Hx. apply list_elem_of_split in Hx as (l1 & l2 & ->).
    destruct (erase_list_spec _ _ _ _ _ Hok Hl)
      as (h' & l0 & p & _ & -> & _ & _ & Hx & _).
    simpl. unfold is_linked, fprev. by rewrite Hx.
  - intros x Hxs Ax.
    assert (x ∈ dom h) as Hd by by apply elem_of_dom.
    destruct (run_op_spec h s l (PushBack x) Hok Hl) as (hb & Eb & Hokb & Hlb & _);
      [done|].
    destruct (run_op_spec h s l (PushFront x) Hok Hl) as (hf & Ef & Hokf & Hlf & _);
      [done|].
    simpl in *. rewrite Eb, Ef. simpl. split.
    + apply (is_list_linked _ _ _ _ Hokb Hlb). clear. set_solver.
    + apply (is_list_linked _ _ _ _ Hokf Hlf). clear. set_solver.
Qed.

Lemma X15_witness :
  (∀ x, x ∈ lst :: [e1; e2; e3] → is_linked with_spare x = Some true) ∧
  (∀ x, is_linked with_spare x = Some false → x ∉ lst :: [e1; e2; e3]) ∧
  (∀ x, x ∈ [e1; e2; e3] →
     ('(h1, _) ← erase with_spare (Some x); is_linked h1 x) = Some false) ∧
  (∀ x, x ≠ lst → is_Some (with_spare !! x) →
     (h1 ← push_back with_spare lst x; is_linked h1 x) = Some true ∧
     (h1 ← push_front with_spare lst x; is_linked h1 x) = Some true).
Proof.
  apply (X15_is_linked_tells_membership with_spare lst [e1; e2; e3]);
    by_compute.
Defined.

(** X16.  [erase] and [insert] are local: [erase] changes no node other
    than the erased one and its two neighbours, and [insert] changes no
    node other than the element, its two former neighbours, the position
    and the predecessor of the position. *)
Theorem X16_erase_and_insert_are_local :
  (∀ (h : heap) (x : addr) (h' : heap) (r : ptr) (u : addr),
     heap_ok h → erase h (Some x) = Some (h', r) →
     u ≠ x → fprev h x ≠ Some (Some u) → fnext h x ≠ Some (Some u) →
     h' !! u = h !! u)
  ∧ (∀ (h : heap) (pos x : addr) (h' : heap) (r : ptr) (u : addr),
       heap_ok h → insert h (Some pos) x = Some (h', r) →
       u ≠ x → u ≠ pos → fprev h pos ≠ Some (Some u) →
       fprev h x ≠ Some (Some u) → fnext h x ≠ Some (Some u) →
       h' !! u = h !! u).
Proof. split; [apply erase_local|apply insert_local]. Qed.

Lemma X16_witness :
  (∃ h' r, erase two_lists (Some e4) = Some (h', r) ∧
           h' !! e2 = two_lists !! e2)
  ∧ (∃ h' r, insert two_lists (Some e2) e5 = Some (h', r) ∧
             h' !! e3 = two_lists !! e3).
Proof.
  split.
  - eexists _, _. split; [vm_compute; reflexivity|].
    apply (proj1 X16_erase_and_insert_are_local two_lists e4 _ (Some e5) e2);
      [by_compute|vm_compute; reflexivity|by_compute..].
  - eexists _, _. split; [vm_compute; reflexivity|].
    apply (proj2 X16_erase_and_insert_are_local two_lists e2 e5 _ (Some e5) e3);
      [by_compute|vm_compute; reflexivity|by_compute..].
Defined.

(** ** The lifetime of a node *)

Section node_lifetime.
Implicit Types (h : heap) (x y u p n : addr).

Lemma moved_alloc h0 this other p n u :
  is_Some (moved h0 this other p n !! u) ↔ is_Some (h0 !! u).
Proof. unfold moved. by repeat (rewrite alloc_set_p || rewrite alloc_set_n). Qed.

Lemma fresh_alloc h x u :
  is_Some (<[x := Node None None]> h !! u) ↔ u = x ∨ is_Some (h !! u).
Proof.
  destruct (decide (u = x)) as [->|Hne].
  - rewrite lookup_insert_eq. naive_solver.
  - rewrite lookup_insert_ne by done. naive_solver.
Qed.

Lemma ctor_then_dtor h x :
  h !! x = None → (h1 ← base_ctor h x; base_dtor h1 x) = Some h.
Proof.
  intros Hx. rewrite (base_ctor_spec _ _ Hx). simpl.
  rewrite base_dtor_unlinked.
  - rewrite delete_insert_eq. by rewrite delete_id.
  - rewrite fprev_fresh. by rewrite decide_True.
Qed.

(** Moving a linked node to fresh storage, destroying the moved-from node
    and moving back gives the store from which one started. *)
Lemma move_there_and_back h x y p n :
  heap_ok h → fprev h x = Some (Some p) → fnext h x = Some (Some n) →
  p ≠ x → h !! y = None →
  (h1 ← base_move_ctor h y x; h2 ← base_dtor h1 x;
   h3 ← base_move_ctor h2 x y; base_dtor h3 y) = Some h.
Proof.
  intros Hok Hp Hn Hpx Hy.
  pose proof (heap_ok_prev_next _ _ _ Hok Hp) as Hpn.
  pose proof (heap_ok_next_prev _ _ _ Hok Hn) as Hnp.
  assert (is_Some (h !! x)) as Ax by solve_alloc.
  assert (is_Some (h !! p)) as Ap by solve_alloc.
  assert (is_Some (h !! n)) as An by solve_alloc.
  destruct (not_alloc_fields _ _ Hy) as [Hyn Hyp].
  assert (y ≠ x ∧ y ≠ p ∧ y ≠ n) as (Hyx & Hyp' & Hyn').
  { split_and!; intros ->; destruct Ax, Ap, An; congruence. }
  assert (n ≠ x) as Hnx by (intros ->; congruence).
  rewrite (base_move_ctor_linked h y x p n) by done. simpl.
  set (h0 := <[y := Node None None]> h).
  assert (∀ u, is_Some (h0 !! u) ↔ u = y ∨ is_Some (h !! u)) as A0
    by (intros; apply fresh_alloc).
  assert (heap_ok h0) as Hok0 by by apply fresh_ok.
  assert (fprev h0 y = Some None) as Hy0.
  { unfold h0. rewrite fprev_fresh. by rewrite decide_True. }
  assert (fprev h0 x = Some (Some p)) as Hp0.
  { unfold h0. rewrite fprev_fresh. by rewrite decide_False. }
  assert (fnext h0 x = Some (Some n)) as Hn0.
  { unfold h0. rewrite fnext_fresh. by rewrite decide_False. }
  set (h1 := moved h0 y x p n).
  assert (heap_ok h1) as Hok1 by by apply moved_ok.
  assert (∀ u, is_Some (h1 !! u) ↔ u = y ∨ is_Some (h !! u)) as A1.
  { intros u. unfold h1. rewrite moved_alloc. apply A0. }
  assert (∀ u, fnext h1 u =
             if decide (u = x) then Some None
             else if decide (u = y) then Some (Some n)
             else if decide (u = p) then Some (Some y) else fnext h u) as Fn1.
  { intros u. unfold h1. rewrite moved_fnext by (apply A0; auto).
    unfold h0. rewrite fnext_fresh. by repeat case_decide. }
  assert (∀ u, fprev h1 u =
             if decide (u = x) then Some None
             else if decide (u = y) then Some (Some p)
             else if decide (u = n) then Some (Some y) else fprev h u) as Fp1.
  { intros u. unfold h1. rewrite moved_fprev by (apply A0; auto).
    unfold h0. rewrite fprev_fresh. by repeat case_decide. }
  assert (fprev h1 x = Some None) as Hx1.
  { rewrite Fp1. by rewrite decide_True. }
  rewrite (base_dtor_unlinked h1 x Hx1). simpl.
  set (h2 := delete x h1).
  assert (heap_ok h2) as Hok2 by by apply delete_ok.
  assert (h2 !! x = None) as Hx2 by (unfold h2; by rewrite lookup_delete_eq).
  assert (fprev h2 y = Some (Some p)) as Hp2.
  { unfold h2. rewrite fprev_delete, decide_False, Fp1 by done.
    rewrite decide_False by done. by rewrite decide_True. }
  assert (fnext h2 y = Some (Some n)) as Hn2.
  { unfold h2. rewrite fnext_delete, decide_False, Fn1 by done.
    rewrite decide_False by done. by rewrite decide_True. }
  assert (p ≠ y) as Hpy by done.
  rewrite (base_move_ctor_linked h2 x y p n) by done. simpl.
  set (h20 := <[x := Node None None]> h2).
  assert (∀ u, is_Some (h2 !! u) ↔ u ≠ x ∧ (u = y ∨ is_Some (h !! u))) as A2.
  { intros u. unfold h2. destruct (decide (u = x)) as [->|Hne].
    - rewrite lookup_delete_eq. split; [by intros [? ?]|by intros [? _]].
    - rewrite lookup_delete_ne by done. rewrite A1. naive_solver. }
  assert (∀ u, is_Some (h20 !! u) ↔ u = y ∨ is_Some (h !! u)) as A20.
  { intros u. unfold h20. rewrite fresh_alloc, A2.
    destruct (decide (u = x)) as [->|Hne]; naive_solver. }
  set (h3 := moved h20 x y p n).
  assert (fprev h3 y = Some None) as Hy3.
  { unfold h3. rewrite moved_fprev by (apply A20; auto).
    by rewrite decide_True. }
  rewrite (base_dtor_unlinked h3 y Hy3). f_equal.
  apply heap_ext; intros u.
  - rewrite fnext_delete. unfold h3.
    rewrite moved_fnext by (apply A20; auto).
    unfold h20. rewrite fnext_fresh. unfold h2. rewrite fnext_delete, Fn1.
    repeat case_decide; subst; congruence.
  - rewrite fprev_delete. unfold h3.
    rewrite moved_fprev by (apply A20; auto).
    unfold h20. rewrite fprev_fresh. unfold h2. rewrite fprev_delete, Fp1.
    repeat case_decide; subst; congruence.
Qed.
End node_lifetime.

(** X17.  Round trips of the special members of a node.  Constructing a
    node and destroying it restores the store.  Moving a linked node (that
    is not a ring of its own) to fresh storage, destroying the moved-from
    node, moving back and destroying the intermediate node restores the
    store: the node is back between the same two neighbours.  Moving from a
    node that is in no list only creates the new, unlinked node. *)
Theorem X17_node_lifetime_round_trips :
  (∀ (h : heap) (y : addr),
     h !! y = None → (h1 ← base_ctor h y; base_dtor h1 y) = Some h)
  ∧ (∀ (h : heap) (x y : addr),
       heap_ok h → h !! y = None →
       is_linked h x = Some true → fprev h x ≠ Some (Some x) →
       (h1 ← base_move_ctor h y x; h2 ← base_dtor h1 x;
        h3 ← base_move_ctor h2 x y; base_dtor h3 y) = Some h)
  ∧ (∀ (h : heap) (x y : addr),
       heap_ok h → h !! y = None → is_linked h x = Some false →
       base_move_ctor h y x = Some (<[y := Node None None]> h)).
Proof.
  split; [apply ctor_then_dtor|]. split.
  - intros h x y Hok Hy Hl Hself.
    destruct (is_linked_true _ _ Hok Hl) as (p & n & Hp & Hn).
    apply (move_there_and_back h x y p n); try done. congruence.
  - intros h x y Hok Hy Hl. unfold is_linked in Hl.
    destruct (fprev h x) as [[p|]|] eqn:Hp; simpl in Hl; try done.
    pose proof (proj2 (heap_ok_null _ x Hok) Hp) as Hn.
    assert (x ≠ y) as Hxy.
    { intros ->. unfold fprev in Hp. by rewrite Hy in Hp. }
    apply base_move_ctor_unlinked; [done| |].
    + rewrite fprev_fresh. by rewrite decide_False.
    + rewrite fnext_fresh. by rewrite decide_False.
Qed.

Lemma X17_witness :
  (h1 ← base_ctor full e6; base_dtor h1 e6) = Some full
  ∧ (h1 ← base_move_ctor full e6 e2; h2 ← base_dtor h1 e2;
     h3 ← base_move_ctor h2 e2 e6; base_dtor h3 e6) = Some full
  ∧ base_move_ctor with_spare lst2 e6
      = Some (<[lst2 := Node None None]> with_spare).
Proof.
  split; [|split].
  - apply (proj1 X17_node_lifetime_round_trips full e6); by_compute.
  - apply (proj1 (proj2 X17_node_lifetime_round_trips) full e2 e6); by_compute.
  - apply (proj2 (proj2 X17_node_lifetime_round_trips) with_spare e6 lst2);
      by_compute.
Defined.

(** X18.  [empty()] answers true exactly when the list has no member, and
    dereferencing the iterators of a forward iteration yields the payloads
    of the members, in the order of the sequence. *)
Theorem X18_empty_and_payloads :
  ∀ (h : heap) (s : addr) (l : list addr) (elems : gmap addr Z) (fuel : nat),
    is_list h s l → length l ≤ fuel →
    empty h s = Some (bool_decide (l = [])) ∧
    (∀ vs, values fuel h elems s = Some vs ↔
           Forall2 (λ a v, it_deref elems (Some a) = Some v) l vs).
Proof.
  intros h s l elems fuel Hl Hlen. split; [by apply empty_spec|].
  intros vs. unfold values. rewrite (is_list_to_list _ _ _ _ Hl Hlen). simpl.
  apply mapM_Some.
Qed.

Lemma X18_witness :
  empty full lst = Some (bool_decide ([e1; e2; e3] = [])) ∧
  (∀ vs, values 3 full elems lst = Some vs ↔
         Forall2 (λ a v, it_deref elems (Some a) = Some v) [e1; e2; e3] vs).
Proof.
  apply (X18_empty_and_payloads full lst [e1; e2; e3] elems 3);
    [by_compute|simpl; lia].
Defined.
